(** * A reactive spreadsheet engine: [spreadsheet_main.py]

    The engine of the spreadsheet is the class [SpreadSheetItem]: every cell
    holds a formula text, a cached [value], the set [reqs] of the cells its
    formula names, the set [deps] of the cells that name it, and the flag
    [error_shown].  [calculate] re-evaluates one cell and maintains the two
    relation sets, [propagate] walks [deps] recursively, [display] runs both.

    The embedding below follows the source function by function.
    - Text is [string] (ASCII): [upper] and the word class of the regular
      expression are the ASCII ones.
    - The dictionary [cells] shared by all items is a [gmap string
      SpreadSheetItem]; the sets are [gset string].  The order in which
      Python iterates over a set is left open: it is the parameter [iter].
    - Python's builtin [eval] is a parameter [py_eval] of the engine.  The
      module [PyExpr] gives its behaviour on a fragment of Python's
      expressions, used to run the engine on concrete formulas.
    - Exceptions are explicit: an operation yields [Done] or [Raised], with the
      dictionary as it stands at that point.  The recursion of [propagate] is
      bounded by a fuel argument; running out of fuel is [None]. *)

From Stdlib Require Import ZArith String Ascii List Lia.
From stdpp Require Import base option list gmap sets strings.

#[local] Set Warnings "-clear-no-such-hyp".

Local Open Scope string_scope.

(** ** Text: [str.upper], the pattern [cell_references], [cell_name] *)

Module Text.

Definition ord (c : ascii) : nat := nat_of_ascii c.
Definition chr (n : nat) : ascii := ascii_of_nat n.

Definition in_range (lo hi : nat) (c : ascii) : bool :=
  (lo <=? ord c)%nat && (ord c <=? hi)%nat.

Definition is_upper : ascii -> bool := in_range 65 90.
Definition is_lower : ascii -> bool := in_range 97 122.
Definition is_digit : ascii -> bool := in_range 48 57.

(** The class [\w] on ASCII text: letters, digits and the underscore. *)
Definition is_word (c : ascii) : bool :=
  is_upper c || is_lower c || is_digit c || (ord c =? 95)%nat.

Definition upper_char (c : ascii) : ascii :=
  if is_lower c then chr (ord c - 32) else c.

(** [formula.upper()] *)
Fixpoint upper (s : string) : string :=
  match s with
  | EmptyString => EmptyString
  | String c s' => String (upper_char c) (upper s')
  end.

(** [\b] before a letter: the start of the text or a non-word character. *)
Definition boundary_before (prev : option ascii) : bool :=
  match prev with
  | None => true
  | Some p => negb (is_word p)
  end.

(** [\b] after a digit: the end of the text or a non-word character. *)
Definition boundary_after (rest : string) : bool :=
  match rest with
  | EmptyString => true
  | String c _ => negb (is_word c)
  end.

(** [re.compile(r'\b[A-Z][0-9]\b').findall]: the matches from left to right;
    [prev] is the character before the current position.  After a match the
    scan resumes behind it. *)
Fixpoint findall_from (prev : option ascii) (s : string) : list string :=
  match s with
  | EmptyString => []
  | String a s1 =>
      match s1 with
      | EmptyString => []
      | String b s2 =>
          if boundary_before prev && is_upper a && is_digit b && boundary_after s2
          then String a (String b EmptyString) :: findall_from (Some b) s2
          else findall_from (Some a) s1
      end
  end.

Definition findall (s : string) : list string := findall_from None s.

(** [str(n)] for a natural number: its decimal digits. *)
Definition digit_char (d : nat) : ascii := chr (48 + d).

Fixpoint str_digits (fuel n : nat) (acc : string) : string :=
  match fuel with
  | O => acc
  | S fuel' =>
      let acc' := String (digit_char (n mod 10)) acc in
      if (n <? 10)%nat then acc' else str_digits fuel' (n / 10) acc'
  end.

Definition str_nat (n : nat) : string := str_digits (S n) n EmptyString.

End Text.

(** [cell_name(i, j)] is [f'{chr(ord("A")+j)}{i+1}']: row [i] and column [j],
    both counted from 0.  [chr] yields one character; the model is exact for
    the columns whose letter is an ASCII character. *)
Definition cell_name (i j : nat) : string :=
  String (Text.chr (Text.ord "A" + j)) (Text.str_nat (i + 1)).

(** ** Python values and exceptions, as far as the engine meets them *)

(** A cell's [value] starts as the integer 0 and then is whatever [eval]
    returned: no check narrows it to numbers.  [VObject] stands for an object
    of any other type (a float, a tuple, a function), named by its [repr]. *)
Inductive pyvalue : Type :=
| VInt (n : Z)
| VStr (s : string)
| VObject (repr : string).

(** The classes of the exceptions met here.  [NotAnException] stands for the
    subclasses of [BaseException] outside [Exception] ([SystemExit],
    [KeyboardInterrupt], [GeneratorExit]): [except Exception] lets them pass. *)
Inductive exc_class : Type :=
| SyntaxError
| NameError
| TypeError
| ZeroDivisionError
| KeyError
| OtherException (cls : string)
| NotAnException (cls : string).

(** An exception object: its class and [str(e)]. *)
Record exn : Type := Exn { exc_type : exc_class; exc_str : string }.

Definition is_Exception (e : exn) : bool :=
  match exc_type e with
  | NotAnException _ => false
  | _ => true
  end.

(** [d[k]] on a missing key raises [KeyError(k)], whose [str] is [repr(k)]. *)
Definition key_error (k : string) : exn := Exn KeyError ("'" ++ k ++ "'").

(** What a call of [eval] does: it returns an object or raises. *)
Inductive outcome : Type :=
| Returns (v : pyvalue)
| Raises (e : exn).

(** ** A fragment of Python's expressions

    [eval] is Python's own; the engine takes it as a parameter.  To run the
    engine on concrete formulas this module describes [eval(src, {}, env)] on
    a small fragment: decimal integers, names without lower-case letters,
    plain single-quoted strings, [+ - * /], unary signs and parentheses, read
    with Python's precedences and evaluated from left to right.  [eval]
    answers [None] for a text outside the fragment: nothing is said about it.
    The messages are CPython's (3.10 and later). *)

Module PyExpr.

Import Text.

Inductive token : Type :=
| TInt (n : Z)
| TName (s : string)
| TStr (s : string)
| TPlus | TMinus | TStar | TSlash | TLParen | TRParen | TEq.

Fixpoint span (p : ascii -> bool) (s : string) : string * string :=
  match s with
  | EmptyString => (EmptyString, EmptyString)
  | String c s' =>
      if p c then let (a, b) := span p s' in (String c a, b)
      else (EmptyString, s)
  end.

Definition starts_with (p : ascii -> bool) (s : string) : bool :=
  match s with
  | EmptyString => false
  | String c _ => p c
  end.

Definition is_char (n : nat) (c : ascii) : bool := (ord c =? n)%nat.
Definition is_space (c : ascii) : bool := is_char 32 c || is_char 9 c.
Definition is_quote (c : ascii) : bool := is_char 39 c || is_char 34 c.

(** Characters of a name of the fragment: [A-Z], [0-9] and [_]. *)
Definition is_name_char (c : ascii) : bool :=
  is_upper c || is_digit c || is_char 95 c.

(** Characters of a plain string literal: printable ASCII without quotes and
    the backslash. *)
Definition is_plain_char (c : ascii) : bool :=
  in_range 32 126 c && negb (is_quote c) && negb (is_char 92 c).

Fixpoint int_of_digits (acc : Z) (s : string) : Z :=
  match s with
  | EmptyString => acc
  | String c s' => int_of_digits (10 * acc + Z.of_nat (ord c - 48)) s'
  end.

(** The tokens of a text of the fragment.  Left out ([None]): a number
    followed by a letter, a dot or an underscore, or written with a leading
    zero; a name with a lower-case letter or followed by a quote (a string
    prefix); [**] and [//]; every other character. *)
Fixpoint tokens (fuel : nat) (s : string) : option (list token) :=
  match fuel with
  | O => None
  | S fuel' =>
      match s with
      | EmptyString => Some []
      | String c rest =>
          if is_space c then tokens fuel' rest
          else if is_digit c then
            let (ds, rest') := span is_digit s in
            if starts_with (fun x => is_word x || is_char 46 x) rest' then None
            else if is_char 48 c && negb (String.length ds =? 1)%nat then None
            else cons (TInt (int_of_digits 0 ds)) <$> tokens fuel' rest'
          else if is_upper c || is_char 95 c then
            let (nm, rest') := span is_name_char s in
            if starts_with (fun x => is_lower x || is_quote x) rest' then None
            else cons (TName nm) <$> tokens fuel' rest'
          else if is_char 39 c then
            let (body, rest') := span is_plain_char rest in
            match rest' with
            | String q rest'' =>
                if negb (is_char 39 q) then None
                else if (String.length body =? 0)%nat && starts_with (is_char 39) rest''
                then None
                else cons (TStr body) <$> tokens fuel' rest''
            | EmptyString => None
            end
          else if is_char 43 c then cons TPlus <$> tokens fuel' rest
          else if is_char 45 c then cons TMinus <$> tokens fuel' rest
          else if is_char 42 c then
            if starts_with (is_char 42) rest then None
            else cons TStar <$> tokens fuel' rest
          else if is_char 47 c then
            if starts_with (is_char 47) rest then None
            else cons TSlash <$> tokens fuel' rest
          else if is_char 40 c then cons TLParen <$> tokens fuel' rest
          else if is_char 41 c then cons TRParen <$> tokens fuel' rest
          else if is_char 61 c then cons TEq <$> tokens fuel' rest
          else None
      end
  end.

Inductive binop : Type := Add | Sub | Mul | Div.

Inductive expr : Type :=
| EInt (n : Z)
| EName (s : string)
| EStr (s : string)
| EPos (e : expr)
| ENeg (e : expr)
| EBin (op : binop) (a b : expr).

(** The parser answers with a tree and the tokens left, with a syntax error,
    or with [POutside] when the text leaves the fragment. *)
Inductive parsed (A : Type) : Type :=
| POk (a : A) (rest : list token)
| PSyntaxError
| POutside.
Arguments POk {A} a rest.
Arguments PSyntaxError {A}.
Arguments POutside {A}.

(** [sum := term (('+'|'-') term)*], [term := factor (('*'|'/') factor)*],
    [factor := ('+'|'-') factor | atom], [atom := INT | NAME | STR | '(' sum ')'].
    A syntax error is reported where Python's is certain within the fragment,
    message included: the text ends where an operand must follow, outside any
    parenthesis. *)
Fixpoint parse_sum (fuel : nat) (ts : list token) : parsed expr :=
  match fuel with
  | O => POutside
  | S fuel' =>
      match parse_term fuel' ts with
      | POk a rest => sum_loop fuel' a rest
      | other => other
      end
  end
with sum_loop (fuel : nat) (a : expr) (ts : list token) : parsed expr :=
  match fuel with
  | O => POutside
  | S fuel' =>
      match ts with
      | TPlus :: r =>
          match parse_term fuel' r with
          | POk b rest => sum_loop fuel' (EBin Add a b) rest
          | other => other
          end
      | TMinus :: r =>
          match parse_term fuel' r with
          | POk b rest => sum_loop fuel' (EBin Sub a b) rest
          | other => other
          end
      | _ => POk a ts
      end
  end
with parse_term (fuel : nat) (ts : list token) : parsed expr :=
  match fuel with
  | O => POutside
  | S fuel' =>
      match parse_factor fuel' ts with
      | POk a rest => term_loop fuel' a rest
      | other => other
      end
  end
with term_loop (fuel : nat) (a : expr) (ts : list token) : parsed expr :=
  match fuel with
  | O => POutside
  | S fuel' =>
      match ts with
      | TStar :: r =>
          match parse_factor fuel' r with
          | POk b rest => term_loop fuel' (EBin Mul a b) rest
          | other => other
          end
      | TSlash :: r =>
          match parse_factor fuel' r with
          | POk b rest => term_loop fuel' (EBin Div a b) rest
          | other => other
          end
      | _ => POk a ts
      end
  end
with parse_factor (fuel : nat) (ts : list token) : parsed expr :=
  match fuel with
  | O => POutside
  | S fuel' =>
      match ts with
      | [] => PSyntaxError
      | TPlus :: r =>
          match parse_factor fuel' r with
          | POk a rest => POk (EPos a) rest
          | other => other
          end
      | TMinus :: r =>
          match parse_factor fuel' r with
          | POk a rest => POk (ENeg a) rest
          | other => other
          end
      | TInt n :: r => POk (EInt n) r
      | TName s :: r => POk (EName s) r
      | TStr s :: r => POk (EStr s) r
      | TLParen :: r =>
          match parse_sum fuel' r with
          | POk a (TRParen :: rest) => POk a rest
          | _ => POutside
          end
      | _ => POutside
      end
  end.

(** A whole text: an expression cannot begin with [=]; tokens left behind the
    expression leave the fragment (a call, adjacent literals, ...). *)
Definition parse (ts : list token) : parsed expr :=
  match ts with
  | TEq :: _ => PSyntaxError
  | _ =>
      match parse_sum (4 * List.length ts + 4) ts with
      | POk a [] => POk a []
      | POk _ (_ :: _) => POutside
      | other => other
      end
  end.

Definition type_name (v : pyvalue) : string :=
  match v with
  | VInt _ => "int"
  | VStr _ => "str"
  | VObject _ => "object"
  end.

Definition op_sign (op : binop) : string :=
  match op with Add => "+" | Sub => "-" | Mul => "*" | Div => "/" end.

Definition unsupported (op : binop) (a b : pyvalue) : exn :=
  Exn TypeError ("unsupported operand type(s) for " ++ op_sign op ++ ": '"
                 ++ type_name a ++ "' and '" ++ type_name b ++ "'").

(** A binary operation on two objects; [None] where the result or the message
    is outside the fragment (a float quotient, string repetition, ...). *)
Definition binary (op : binop) (a b : pyvalue) : option outcome :=
  match op, a, b with
  | Add, VInt x, VInt y => Some (Returns (VInt (x + y)))
  | Sub, VInt x, VInt y => Some (Returns (VInt (x - y)))
  | Mul, VInt x, VInt y => Some (Returns (VInt (x * y)))
  | Div, VInt x, VInt y =>
      if (y =? 0)%Z then Some (Raises (Exn ZeroDivisionError "division by zero"))
      else None
  | Add, VStr x, VStr y => Some (Returns (VStr (x ++ y)))
  | Add, VInt _, VStr _ => Some (Raises (unsupported op a b))
  | Sub, VInt _, VStr _ | Sub, VStr _, VInt _ | Sub, VStr _, VStr _ =>
      Some (Raises (unsupported op a b))
  | _, _, _ => None
  end.

(** A name is looked up in the mapping given to [eval]; the globals are empty
    and no builtin has a name without lower-case letters. *)
Fixpoint eval_expr (env : gmap string pyvalue) (e : expr) : option outcome :=
  match e with
  | EInt n => Some (Returns (VInt n))
  | EStr s => Some (Returns (VStr s))
  | EName x =>
      match env !! x with
      | Some v => Some (Returns v)
      | None => Some (Raises (Exn NameError ("name '" ++ x ++ "' is not defined")))
      end
  | EPos a =>
      match eval_expr env a with
      | Some (Returns (VInt n)) => Some (Returns (VInt n))
      | Some (Returns _) => None
      | other => other
      end
  | ENeg a =>
      match eval_expr env a with
      | Some (Returns (VInt n)) => Some (Returns (VInt (- n)))
      | Some (Returns _) => None
      | other => other
      end
  | EBin op a b =>
      match eval_expr env a with
      | Some (Returns va) =>
          match eval_expr env b with
          | Some (Returns vb) => binary op va vb
          | other => other
          end
      | other => other
      end
  end.

Definition syntax_error : exn := Exn SyntaxError "invalid syntax (<string>, line 1)".

(** [eval(src, {}, env)] on the fragment. *)
Definition eval (src : string) (env : gmap string pyvalue) : option outcome :=
  match tokens (S (String.length src)) src with
  | None => None
  | Some ts =>
      match parse ts with
      | POk e _ => eval_expr env e
      | PSyntaxError => Some (Raises syntax_error)
      | POutside => None
      end
  end.

(** A total evaluator that follows [eval] on the fragment.  Outside the
    fragment it raises; it is used only on formulas of the fragment. *)
Definition eval_total (src : string) (env : gmap string pyvalue) : outcome :=
  match eval src env with
  | Some o => o
  | None => Raises (Exn (OtherException "NotImplementedError") "outside the fragment")
  end.

End PyExpr.

(** ** The cells *)

(** [SpreadSheetItem]: [formula] is the text Qt holds for the cell ([None]
    until the first edit), the other fields are the attributes set by
    [__init__]. *)
Record SpreadSheetItem : Type := Item {
  formula : option string;
  value : pyvalue;
  deps : gset string;
  reqs : gset string;
  error_shown : bool
}.

Definition new_item : SpreadSheetItem := Item None (VInt 0) ∅ ∅ false.

Definition set_formula (f : option string) (c : SpreadSheetItem) : SpreadSheetItem :=
  Item f (value c) (deps c) (reqs c) (error_shown c).
Definition set_value (v : pyvalue) (c : SpreadSheetItem) : SpreadSheetItem :=
  Item (formula c) v (deps c) (reqs c) (error_shown c).
Definition set_deps (d : gset string) (c : SpreadSheetItem) : SpreadSheetItem :=
  Item (formula c) (value c) d (reqs c) (error_shown c).
Definition set_reqs (r : gset string) (c : SpreadSheetItem) : SpreadSheetItem :=
  Item (formula c) (value c) (deps c) r (error_shown c).
Definition set_error_shown (b : bool) (c : SpreadSheetItem) : SpreadSheetItem :=
  Item (formula c) (value c) (deps c) (reqs c) b.

(** The state the engine works on: the dictionary [cells] that every item
    shares as [siblings], the messages handed to [show_error_message] (oldest
    first), and, as a record of the run, the names of the cells on which
    [calculate] was called (oldest first). *)
Record world : Type := World {
  siblings : gmap string SpreadSheetItem;
  shown : list string;
  calculated : list string
}.

Definition with_siblings (m : gmap string SpreadSheetItem) (w : world) : world :=
  World m (shown w) (calculated w).

(** ** Operations that may raise *)

Inductive result (A : Type) : Type :=
| Done (a : A) (w : world)
| Raised (e : exn) (w : world).
Arguments Done {A} a w.
Arguments Raised {A} e w.

Definition world_of {A : Type} (r : result A) : world :=
  match r with
  | Done _ w => w
  | Raised _ w => w
  end.

Definition M (A : Type) : Type := world -> result A.

Definition ret {A : Type} (a : A) : M A := fun w => Done a w.

Definition bind {A B : Type} (m : M A) (k : A -> M B) : M B :=
  fun w =>
    match m w with
    | Done a w' => k a w'
    | Raised e w' => Raised e w'
    end.

Definition raise {A : Type} (e : exn) : M A := fun w => Raised e w.

Notation "x <- m ;; k" := (bind m (fun x => k))
  (at level 100, m at next level, right associativity).
Notation "m ;;; k" := (bind m (fun _ => k))
  (at level 100, right associativity).

(** [self.siblings[r]] *)
Definition get_item (r : string) : M SpreadSheetItem :=
  fun w =>
    match siblings w !! r with
    | Some c => Done c w
    | None => Raised (key_error r) w
    end.

(** An assignment to an attribute of the item stored under [r]. *)
Definition update_item (r : string) (f : SpreadSheetItem -> SpreadSheetItem) : M unit :=
  fun w => Done tt (with_siblings (alter f r (siblings w)) w).

(** [deps.add(name)] and [deps.remove(name)] on an item. *)
Definition add_dep (name : string) (c : SpreadSheetItem) : SpreadSheetItem :=
  set_deps ({[name]} ∪ deps c) c.
Definition remove_dep (name : string) (c : SpreadSheetItem) : SpreadSheetItem :=
  set_deps (deps c ∖ {[name]}) c.

(** [self.siblings[r].deps.add(name)] *)
Definition deps_add (name r : string) : M unit :=
  _ <- get_item r ;;
  update_item r (add_dep name).

(** [self.siblings[r].deps.remove(name)]: [set.remove] raises [KeyError] when
    the element is missing. *)
Definition deps_remove (name r : string) : M unit :=
  c <- get_item r ;;
  if decide (name ∈ deps c)
  then update_item r (remove_dep name)
  else raise (key_error name).

(** [show_error_message(message)]: the dialog, recorded in [shown]. *)
Definition show_error_message (message : string) : M unit :=
  fun w => Done tt (World (siblings w) (shown w ++ [message]) (calculated w)).

Definition note_calculate (name : string) : M unit :=
  fun w => Done tt (World (siblings w) (shown w) (calculated w ++ [name])).

(** [for x in l: body(x)] *)
Fixpoint for_each {A : Type} (l : list A) (body : A -> M unit) : M unit :=
  match l with
  | [] => ret tt
  | x :: l' => body x ;;; for_each l' body
  end.

(** [{r: self.siblings[r].value for r in l}] *)
Fixpoint values_of (l : list string) : M (gmap string pyvalue) :=
  match l with
  | [] => ret ∅
  | r :: l' =>
      c <- get_item r ;;
      m <- values_of l' ;;
      ret (<[r := value c]> m)
  end.

(** The same loop, for callees that may run out of fuel. *)
Fixpoint for_each_fuel {A : Type} (l : list A)
    (body : A -> world -> option (result unit)) (w : world) : option (result unit) :=
  match l with
  | [] => Some (Done tt w)
  | x :: l' =>
      match body x w with
      | Some (Done _ w') => for_each_fuel l' body w'
      | other => other
      end
  end.

(** ** The engine *)

(** What the engine takes from Python: [eval(formula, {}, environment)] as a
    function of the formula and of the mapping it reads names from, the
    namespace [math.__dict__], and the order in which a [for] loop visits a
    set (some enumeration of its elements). *)
Class Python : Type := {
  py_eval : string -> gmap string pyvalue -> outcome;
  math_dict : gmap string pyvalue;
  iter : gset string -> list string;
  iter_perm : forall X : gset string, iter X ≡ₚ elements X
}.

Section Engine.

Context {python : Python}.

(** The references of a formula: [set(cell_references.findall(formula.upper()))]. *)
Definition references (f : string) : gset string :=
  list_to_set (Text.findall (Text.upper f)).

(** [ChainMap(math.__dict__, req_values)]: a lookup tries [math.__dict__]
    first. *)
Definition environment (req_values : gmap string pyvalue) : gmap string pyvalue :=
  math_dict ∪ req_values.

(** The [try] block of [calculate] with its handler.  An exception that is
    not an [Exception] leaves the handler aside and leaves [calculate]. *)
Definition evaluate (name f : string) (env : gmap string pyvalue)
    (previous_value : pyvalue) : M unit :=
  match py_eval f env with
  | Returns v =>
      update_item name (set_value v) ;;;
      update_item name (set_error_shown false)
  | Raises e =>
      if is_Exception e then
        self <- get_item name ;;
        (if error_shown self then ret tt
         else show_error_message (exc_str e) ;;;
              update_item name (set_error_shown true)) ;;;
        update_item name (set_value previous_value)
      else raise e
  end.

(** [SpreadSheetItem.calculate], for the item stored under [name]. *)
Definition calculate (name : string) : M unit :=
  self <- get_item name ;;
  note_calculate name ;;;
  match formula self with
  | None => update_item name (set_value (VInt 0))
  | Some f =>
      if decide (f = "") then update_item name (set_value (VInt 0))
      else
        let current_reqs := references f in
        for_each (iter (current_reqs ∖ reqs self)) (deps_add name) ;;;
        for_each (iter (reqs self ∖ current_reqs)) (deps_remove name) ;;;
        req_values <- values_of (iter current_reqs) ;;
        self' <- get_item name ;;
        evaluate name (Text.upper f) (environment req_values) (value self') ;;;
        update_item name (set_reqs current_reqs)
  end.

(** [SpreadSheetItem.propagate]: for every dependent, [calculate] and then
    [propagate], without any record of the cells already visited. *)
Fixpoint propagate (fuel : nat) (name : string) (w : world) : option (result unit) :=
  match fuel with
  | O => None
  | S fuel' =>
      match siblings w !! name with
      | None => Some (Raised (key_error name) w)
      | Some self =>
          for_each_fuel (iter (deps self))
            (fun d w1 =>
               match calculate d w1 with
               | Done _ w2 => propagate fuel' d w2
               | Raised e w2 => Some (Raised e w2)
               end) w
      end
  end.

(** [SpreadSheetItem.display]: [calculate], then [propagate]. *)
Definition display (fuel : nat) (name : string) (w : world) : option (result unit) :=
  match calculate name w with
  | Done _ w1 => propagate fuel name w1
  | Raised e w1 => Some (Raised e w1)
  end.

(** An edit: the delegate stores the text in the item ([setModelData]) and Qt
    asks the item for its display text, which runs [display]. *)
Definition setData (name text : string) (w : world) : world :=
  with_siblings (alter (set_formula (Some text)) name (siblings w)) w.

Definition edit (fuel : nat) (name text : string) (w : world) : option (result unit) :=
  display fuel name (setData name text w).

(** A sequence of edits, each of which returns. *)
Inductive edits_to : world -> list (string * string) -> world -> Prop :=
| edits_nil w : edits_to w [] w
| edits_cons w name text fuel w1 es w2 :
    edit fuel name text w = Some (Done tt w1) ->
    edits_to w1 es w2 ->
    edits_to w ((name, text) :: es) w2.

(** The same as a function: the world after the last edit, [None] as soon
    as an edit runs out of fuel or raises. *)
Fixpoint edits (fuel : nat) (es : list (string * string)) (w : world) : option world :=
  match es with
  | [] => Some w
  | (name, text) :: es' =>
      match edit fuel name text w with
      | Some (Done _ w') => edits fuel es' w'
      | _ => None
      end
  end.

(** The world a run of edits ends in ([w] itself when the run does not
    return), and the tests that a run or a call returned. *)
Definition world_after (fuel : nat) (es : list (string * string)) (w : world) : world :=
  default w (edits fuel es w).

Definition returned (ow : option world) : bool :=
  match ow with
  | Some _ => true
  | None => false
  end.

Definition is_Done {A : Type} (r : result A) : bool :=
  match r with
  | Done _ _ => true
  | Raised _ _ => false
  end.

End Engine.

(** [SpreadSheet.create_widgets]: one new item per row and column, stored
    under its [cell_name]. *)
Definition create_row (i cols : nat) (m : gmap string SpreadSheetItem) :
    gmap string SpreadSheetItem :=
  foldl (fun m j => <[cell_name i j := new_item]> m) m (seq 0 cols).

Definition create_widgets (rows cols : nat) : gmap string SpreadSheetItem :=
  foldl (fun m i => create_row i cols m) ∅ (seq 0 rows).

Definition SpreadSheet (rows cols : nat) : world :=
  World (create_widgets rows cols) [] [].

(** ** The reference run: CPython on the fragment *)

(** Names of [math.__dict__] (a selection; all of its names have lower-case
    letters). *)
Definition math_namespace : gmap string pyvalue :=
  list_to_map
    [ ("pi", VObject "3.141592653589793"); ("e", VObject "2.718281828459045");
      ("tau", VObject "6.283185307179586"); ("inf", VObject "inf");
      ("nan", VObject "nan"); ("sqrt", VObject "<built-in function sqrt>");
      ("sin", VObject "<built-in function sin>");
      ("cos", VObject "<built-in function cos>");
      ("tan", VObject "<built-in function tan>");
      ("exp", VObject "<built-in function exp>");
      ("log", VObject "<built-in function log>");
      ("floor", VObject "<built-in function floor>");
      ("ceil", VObject "<built-in function ceil>") ].

#[export] Instance reference_python : Python := {|
  py_eval := PyExpr.eval_total;
  math_dict := math_namespace;
  iter := elements;
  iter_perm := fun X => reflexivity (elements X)
|}.

(** The sheet of [main]: [SpreadSheet(10, 10)]. *)
Definition main_sheet : world := SpreadSheet 10 10.

(** What a run left in a cell, and the exception an edit stopped at. *)
Definition cell_at (ow : option world) (name : string) : option SpreadSheetItem :=
  ow ≫= fun w => siblings w !! name.

Definition raised (r : option (result unit)) : option exn :=
  match r with
  | Some (Raised e _) => Some e
  | _ => None
  end.

(** ** Notions used in the statements *)

(** The relation sets of a dictionary are mutually inverse. *)
Definition mutual (m : gmap string SpreadSheetItem) : Prop :=
  forall X Y cx cy, m !! X = Some cx -> m !! Y = Some cy ->
    (Y ∈ reqs cx <-> X ∈ deps cy).

(** The part of an item that [calculate] reads the dependency graph from. *)
Definition links (c : SpreadSheetItem) : option string * gset string * gset string :=
  (formula c, deps c, reqs c).

Definition graph (w : world) : gmap string (option string * gset string * gset string) :=
  links <$> siblings w.

(** [Y] is a dependent of [X]: [Y ∈ X.deps]. *)
Definition dependent (g : gmap string (option string * gset string * gset string))
    (X Y : string) : Prop :=
  exists f d r, g !! X = Some (f, d, r) /\ Y ∈ d.

(** [Y] is a transitive dependent of [X]: the cells that [propagate] is meant
    to reach from [X]. *)
Inductive reaches (g : gmap string (option string * gset string * gset string)) :
    string -> string -> Prop :=
| reaches_one X Y : dependent g X Y -> reaches g X Y
| reaches_more X D Y : dependent g X D -> reaches g D Y -> reaches g X Y.

Definition acyclic (g : gmap string (option string * gset string * gset string)) : Prop :=
  forall X, ~ reaches g X X.

(** A cycle can be reached from [name]. *)
Definition reaches_cycle (g : gmap string (option string * gset string * gset string))
    (name : string) : Prop :=
  exists X, (X = name \/ reaches g name X) /\ reaches g X X.

(** [eval] raises nothing that the handler [except Exception] lets pass. *)
Definition eval_raises_Exception `{Python} : Prop :=
  forall f env e, py_eval f env = Raises e -> is_Exception e = true.

(** [e] is an exception that [eval] raised past the handler. *)
Definition escapes `{Python} (e : exn) : Prop :=
  is_Exception e = false /\ exists f env, py_eval f env = Raises e.

(** Only a cell with a two-character name has dependents. *)
Definition only_short_names_have_deps (m : gmap string SpreadSheetItem) : Prop :=
  forall r c, m !! r = Some c -> String.length r <> 2 -> deps c = ∅.

(** A dictionary as every returning edit leaves it: the relation sets name
    cells of the dictionary and mirror each other, and the [reqs] of a cell
    with a formula are the references of that formula. *)
Record consistent `{Python}
    (g : gmap string (option string * gset string * gset string)) : Prop := {
  reqs_mirrored : forall X f d r Y, g !! X = Some (f, d, r) -> Y ∈ r ->
      exists f' d' r', g !! Y = Some (f', d', r') /\ X ∈ d';
  deps_mirrored : forall Y f d r X, g !! Y = Some (f, d, r) -> X ∈ d ->
      exists f' d' r', g !! X = Some (f', d', r') /\ Y ∈ r';
  reqs_current : forall X f d r, g !! X = Some (Some f, d, r) -> f <> "" ->
      r = references f
}.

(** The dictionary after the two loops of [calculate] on the cell [name],
    whose formula has the references [C] and whose stored [reqs] are [R]. *)
Definition relink (name : string) (C R : gset string) (r : string)
    (c : SpreadSheetItem) : SpreadSheetItem :=
  if decide (r ∈ C ∖ R) then add_dep name c
  else if decide (r ∈ R ∖ C) then remove_dep name c
  else c.

Definition relinked (name : string) (C R : gset string)
    (m : gmap string SpreadSheetItem) : gmap string SpreadSheetItem :=
  map_imap (fun r c => Some (relink name C R r c)) m.

(** The item [name] at the end of [calculate], given what [eval] did. *)
Definition calculated_item (C : gset string) (o : outcome)
    (c : SpreadSheetItem) : SpreadSheetItem :=
  Item (formula c)
       (match o with Returns v => v | Raises _ => value c end)
       (deps c) C
       (match o with Returns _ => false | Raises _ => true end).

(** The dictionary [req_values] of [calculate]. *)
Definition req_values_of (m : gmap string SpreadSheetItem) (C : gset string) :
    gmap string pyvalue :=
  value <$> filter (fun kv => kv.1 ∈ C) m.

(** The body of the two loops of [calculate] in one shape: look the item up,
    test it, change it in place. *)
Definition guarded (pre : SpreadSheetItem -> bool)
    (g : SpreadSheetItem -> SpreadSheetItem) (err : exn) (r : string) : M unit :=
  fun w =>
    match siblings w !! r with
    | Some c =>
        if pre c then Done tt (with_siblings (alter g r (siblings w)) w)
        else Raised err w
    | None => Raised (key_error r) w
    end.

(** A dictionary changed item by item. *)
Definition each (F : string -> SpreadSheetItem -> SpreadSheetItem)
    (m : gmap string SpreadSheetItem) : gmap string SpreadSheetItem :=
  map_imap (fun r c => Some (F r c)) m.


(** The lookups of [calculate] on the cell [name] find their keys: every
    reference is a cell, and every cell that is no longer referenced still
    lists [name] among its [deps]. *)
Definition lookups_succeed (name : string) (m : gmap string SpreadSheetItem)
    (R C : gset string) : Prop :=
  (forall r, r ∈ C -> is_Some (m !! r)) /\
  (forall r, r ∈ R ∖ C -> exists c, m !! r = Some c /\ name ∈ deps c).

(** The [deps] of the cell [X] after the two loops of [calculate] on [name]. *)
Definition relink_deps (name : string) (C R : gset string) (X : string)
    (d : gset string) : gset string :=
  if decide (X ∈ C ∖ R) then {[name]} ∪ d
  else if decide (X ∈ R ∖ C) then d ∖ {[name]}
  else d.

(** The dependency graph after an edit of [name] to [text] whose [calculate]
    returned: [C] are the new [reqs] of [name] and [R] the old ones. *)
Definition rewire (name text : string) (C R : gset string) (X : string)
    (l : option string * gset string * gset string) :
    option string * gset string * gset string :=
  (if decide (X = name) then Some text else l.1.1,
   relink_deps name C R X l.1.2,
   if decide (X = name) then C else l.2).

Definition rewired (name text : string) (C R : gset string)
    (g : gmap string (option string * gset string * gset string)) :
    gmap string (option string * gset string * gset string) :=
  map_imap (fun X l => Some (rewire name text C R X l)) g.

(** Recalculating the item [c] in the dictionary [m] would leave its value
    as it is: the value of a cell without formula is 0, and the value of a
    cell with a formula is what [eval] returns for it now (when it returns). *)
Definition settled `{Python} (m : gmap string SpreadSheetItem)
    (c : SpreadSheetItem) : Prop :=
  match formula c with
  | None => value c = VInt 0
  | Some f =>
      if decide (f = "") then value c = VInt 0
      else
        match py_eval (Text.upper f)
                (environment (req_values_of m (references f))) with
        | Returns v => value c = v
        | Raises _ => True
        end
  end.

(** Every value is settled. *)
Definition stable `{Python} (w : world) : Prop :=
  forall X c, siblings w !! X = Some c -> settled (siblings w) c.

(** A run from [w] to [w'] that keeps the graph [g], changes cells of the
    footprint [P] only and leaves every cell of [P] settled. *)
Definition settles `{Python}
    (g : gmap string (option string * gset string * gset string))
    (P : string -> Prop) (w w' : world) : Prop :=
  graph w' = g /\
  (forall e c', P e -> siblings w' !! e = Some c' -> settled (siblings w') c') /\
  (forall e, siblings w' !! e <> siblings w !! e -> P e).

#[export] Instance pyvalue_eq_dec : EqDecision pyvalue.
Proof. solve_decision. Defined.

#[export] Instance SpreadSheetItem_eq_dec : EqDecision SpreadSheetItem.
Proof. solve_decision. Defined.

(** ** Further notions: display, flags, the pattern *)

(** The character before the position behind the prefix [p]; [prev] is the
    character before [p]. *)
Fixpoint char_before (prev : option ascii) (p : string) : option ascii :=
  match p with
  | EmptyString => prev
  | String c p' => char_before (Some c) p'
  end.

(** [x] is a match of [cell_references] in [s]: an upper-case letter and a
    digit between two word boundaries. *)
Definition is_match (prev : option ascii) (s x : string) : Prop :=
  exists p a b q,
    s = (p ++ String a (String b q))%string /\
    x = String a (String b EmptyString) /\
    Text.is_upper a = true /\ Text.is_digit b = true /\
    Text.boundary_before (char_before prev p) = true /\
    Text.boundary_after q = true.

(** The flag of the item [c] in the dictionary [m] tells whether its formula
    fails now: it is set when [eval] raises (an [Exception]) and clear when
    [eval] returns. *)
Definition flagged `{Python} (m : gmap string SpreadSheetItem)
    (c : SpreadSheetItem) : Prop :=
  match formula c with
  | None => True
  | Some f =>
      if decide (f = "") then True
      else
        match py_eval (Text.upper f)
                (environment (req_values_of m (references f))) with
        | Returns _ => error_shown c = false
        | Raises e => error_shown c = true /\ is_Exception e = true
        end
  end.

(** A run from [w] to [w'] that keeps the graph [g], changes cells of the
    footprint [P] only and leaves [S] at every cell of [P]. *)
Definition establishes `{Python}
    (S : gmap string SpreadSheetItem -> SpreadSheetItem -> Prop)
    (g : gmap string (option string * gset string * gset string))
    (P : string -> Prop) (w w' : world) : Prop :=
  graph w' = g /\
  (forall e c', P e -> siblings w' !! e = Some c' -> S (siblings w') c') /\
  (forall e, siblings w' !! e <> siblings w !! e -> P e).

(** [str(n)] for an integer. *)
Definition str_int (n : Z) : string :=
  if (n <? 0)%Z then "-" ++ Text.str_nat (Z.to_nat (- n))
  else Text.str_nat (Z.to_nat n).

(** [str(v)].  For the objects that an upper-cased formula can yield besides
    integers and strings (floats, bytes, tuples, lists, ...) [str] is [repr]. *)
Definition pystr (v : pyvalue) : string :=
  match v with
  | VInt n => str_int n
  | VStr s => s
  | VObject r => r
  end.

(** The roles that [SpreadSheetItem.data] handles itself; a call with another
    role goes to Qt's own [data] and is left out. *)
Inductive role : Type := EditRole | DisplayRole.

Section Data.

Context {python : Python}.

(** [SpreadSheetItem.display] with its result, [str(self.value)]. *)
Definition display_str (fuel : nat) (name : string) (w : world) :
    option (result string) :=
  match display fuel name w with
  | Some (Done _ w') =>
      match siblings w' !! name with
      | Some self => Some (Done (pystr (value self)) w')
      | None => Some (Raised (key_error name) w')
      end
  | Some (Raised e w') => Some (Raised e w')
  | None => None
  end.

(** [SpreadSheetItem.data], for the item stored under [name]: the formula
    (Python's [None] before the first edit) for the edit role, the result of
    [display] for the display role. *)
Definition data (fuel : nat) (r : role) (name : string) (w : world) :
    option (result (option string)) :=
  match r with
  | EditRole =>
      match siblings w !! name with
      | Some self => Some (Done (formula self) w)
      | None => Some (Raised (key_error name) w)
      end
  | DisplayRole =>
      match display_str fuel name w with
      | Some (Done s w') => Some (Done (Some s) w')
      | Some (Raised e w') => Some (Raised e w')
      | None => None
      end
  end.

End Data.

(** The formula of the item [c] evaluates now (or is none). *)
Definition evaluates `{Python} (m : gmap string SpreadSheetItem)
    (c : SpreadSheetItem) : bool :=
  match formula c with
  | None => true
  | Some f =>
      if decide (f = "") then true
      else
        match py_eval (Text.upper f)
                (environment (req_values_of m (references f))) with
        | Returns _ => true
        | Raises _ => false
        end
  end.

(** No formula of the dictionary fails. *)
Definition error_free `{Python} (m : gmap string SpreadSheetItem) : Prop :=
  map_Forall (fun _ c => evaluates m c = true) m.

(** A run of CPython that iterates over a set in the opposite order. *)
Definition reversed_python : Python := {|
  py_eval := PyExpr.eval_total;
  math_dict := math_namespace;
  iter := fun X => reverse (elements X);
  iter_perm := fun X => reverse_Permutation (elements X)
|}.

(** Every flag is up to date. *)
Definition flags_current `{Python} (w : world) : Prop :=
  forall X c, siblings w !! X = Some c -> flagged (siblings w) c.

(** * Facts about the operations *)

Local Open Scope list_scope.

Section TextFacts.

Lemma findall_from_length n : forall s prev x,
  String.length s <= n -> x ∈ Text.findall_from prev s -> String.length x = 2.
Proof.
  induction n as [|n IH]; intros s prev x Hn Hx.
  - destruct s; simpl in *; [by apply elem_of_nil in Hx|lia].
  - destruct s as [|a [|b s2]]; simpl in Hx; try by apply elem_of_nil in Hx.
    simpl in Hn.
    destruct (Text.boundary_before prev && Text.is_upper a && Text.is_digit b
              && Text.boundary_after s2).
    + apply elem_of_cons in Hx as [->|Hx]; [done|].
      apply (IH s2 (Some b)); [lia|done].
    + apply (IH (String b s2) (Some a)); [simpl; lia|done].
Qed.

Lemma findall_length s x : x ∈ Text.findall s -> String.length x = 2.
Proof. apply (findall_from_length (String.length s)). done. Qed.

Lemma str_digits_grows fuel : forall n acc,
  String.length acc <= String.length (Text.str_digits fuel n acc).
Proof.
  induction fuel as [|fuel IH]; intros n acc; [done|].
  cbn [Text.str_digits]. destruct (n <? 10)%nat; [simpl; lia|].
  etrans; [|apply IH]. simpl; lia.
Qed.

Lemma str_digits_two fuel n acc :
  10 <= n -> 2 <= fuel ->
  2 + String.length acc <= String.length (Text.str_digits fuel n acc).
Proof.
  intros Hn Hf. destruct fuel as [|[|fuel]]; [lia|lia|].
  cbn [Text.str_digits]. destruct (Nat.ltb_spec n 10) as [|_]; [lia|].
  destruct (n / 10 <? 10)%nat; [simpl; lia|].
  etrans; [|apply str_digits_grows]. simpl; lia.
Qed.

Lemma cell_name_length i j : 9 <= i -> 3 <= String.length (cell_name i j).
Proof.
  intros Hi. unfold cell_name, Text.str_nat. cbn [String.length].
  pose proof (str_digits_two (S (i + 1)) (i + 1) EmptyString) as H.
  cbn [String.length] in H. lia.
Qed.

End TextFacts.

Section Loops.

Lemma lookup_each F m r : each F m !! r = F r <$> m !! r.
Proof. unfold each. rewrite map_lookup_imap. by destruct (m !! r). Qed.

Lemma with_siblings_id w : with_siblings (siblings w) w = w.
Proof. by destruct w. Qed.

Lemma for_each_ext {A : Type} (l : list A) (body body' : A -> M unit) w :
  (forall x w, body x w = body' x w) ->
  for_each l body w = for_each l body' w.
Proof.
  intros E. revert w.
  induction l as [|x l IH]; intros w; simpl; [done|].
  unfold bind. rewrite E. destruct (body' x w); auto.
Qed.

Lemma deps_add_guarded name r w :
  deps_add name r w = guarded (fun _ => true) (add_dep name) (key_error name) r w.
Proof.
  unfold deps_add, guarded, bind, get_item, update_item.
  by destruct (siblings w !! r).
Qed.

Lemma deps_remove_guarded name r w :
  deps_remove name r w =
  guarded (fun c => bool_decide (name ∈ deps c)) (remove_dep name) (key_error name) r w.
Proof.
  unfold deps_remove, guarded, bind, get_item, update_item, raise.
  destruct (siblings w !! r) as [c|]; [|done].
  by destruct (decide (name ∈ deps c)); [rewrite bool_decide_eq_true_2|rewrite bool_decide_eq_false_2].
Qed.

Lemma for_each_guarded_Done pre g err l w :
  NoDup l ->
  (forall r, r ∈ l -> exists c, siblings w !! r = Some c /\ pre c = true) ->
  for_each l (guarded pre g err) w =
  Done tt (with_siblings (each (fun r c => if decide (r ∈ l) then g c else c) (siblings w)) w).
Proof.
  intros ND. revert w.
  induction ND as [|x l Hx ND IH]; intros w Hpre; simpl.
  - unfold ret. f_equal. rewrite <- (with_siblings_id w) at 1. f_equal.
    apply map_eq. intros r. rewrite lookup_each. by destruct (siblings w !! r).
  - destruct (Hpre x) as (c & Hc & Hp); [by left|].
    unfold bind. unfold guarded at 1. rewrite Hc, Hp.
    rewrite IH.
    + f_equal. destruct w as [m sh ca]; unfold with_siblings; simpl in *. f_equal.
      apply map_eq. intros r. rewrite !lookup_each.
      destruct (decide (r = x)) as [->|Hne].
      * rewrite lookup_alter_eq. destruct (m !! x); simpl; [|done].
        rewrite decide_False by done. by rewrite decide_True by left.
      * rewrite lookup_alter_ne by done.
        destruct (m !! r); simpl; [|done].
        destruct (decide (r ∈ l)).
        -- by rewrite decide_True by (by right).
        -- rewrite decide_False; [done|]. rewrite elem_of_cons. naive_solver.
    + intros r Hr. destruct (Hpre r) as (c' & Hc' & Hp'); [by right|].
      exists c'. split; [|done]. simpl.
      rewrite lookup_alter_ne; [done|]. congruence.
Qed.

Lemma for_each_guarded_inv pre g err l w w' :
  NoDup l ->
  for_each l (guarded pre g err) w = Done tt w' ->
  forall r, r ∈ l -> exists c, siblings w !! r = Some c /\ pre c = true.
Proof.
  intros ND. revert w.
  induction ND as [|x l Hx ND IH]; intros w H r Hr.
  - by apply elem_of_nil in Hr.
  - simpl in H. unfold bind in H. unfold guarded at 1 in H.
    destruct (siblings w !! x) as [c|] eqn:Hc; [|done].
    destruct (pre c) eqn:Hp; [|done].
    apply elem_of_cons in Hr as [->|Hr]; [by exists c|].
    destruct (IH _ H r Hr) as (c' & Hc' & Hp'). simpl in Hc'.
    rewrite lookup_alter_ne in Hc'; [by exists c'|]. by intros ->.
Qed.

Lemma lookup_req_values_of m C r :
  req_values_of m C !! r = if decide (r ∈ C) then value <$> m !! r else None.
Proof.
  unfold req_values_of. rewrite lookup_fmap.
  destruct (decide (r ∈ C)) as [Hr|Hr].
  - destruct (m !! r) as [c|] eqn:Hc.
    + by rewrite (map_lookup_filter_Some_2 _ _ _ c).
    + by rewrite map_lookup_filter_None_2; [|left].
  - rewrite map_lookup_filter_None_2; [done|]. right. intros c _. done.
Qed.

Lemma values_of_Done l w :
  (forall r, r ∈ l -> is_Some (siblings w !! r)) ->
  values_of l w = Done (req_values_of (siblings w) (list_to_set l)) w.
Proof.
  induction l as [|x l IH]; intros Hl; simpl.
  - unfold ret. f_equal. apply map_eq. intros r.
    rewrite lookup_req_values_of, lookup_empty.
    by rewrite decide_False by set_solver.
  - destruct (Hl x) as [c Hc]; [by left|].
    unfold bind, get_item. rewrite Hc.
    rewrite IH by (intros r Hr; apply Hl; by right).
    unfold ret. f_equal. apply map_eq. intros r.
    rewrite lookup_insert, !lookup_req_values_of.
    destruct (decide (x = r)) as [->|Hne].
    + rewrite decide_True by set_solver. by rewrite Hc.
    + destruct (decide (r ∈ (list_to_set l : gset string))).
      * by rewrite decide_True by set_solver.
      * by rewrite decide_False by set_solver.
Qed.

Lemma values_of_inv l w m w' :
  values_of l w = Done m w' ->
  forall r, r ∈ l -> is_Some (siblings w !! r).
Proof.
  revert m.
  induction l as [|x l IH]; intros m H r Hr.
  - by apply elem_of_nil in Hr.
  - simpl in H. unfold bind, get_item in H.
    destruct (siblings w !! x) as [c|] eqn:Hc; [|done].
    destruct (values_of l w) as [m1 w1|] eqn:Hv; [|done].
    apply elem_of_cons in Hr as [->|Hr]; [by exists c|].
    unfold ret in H. injection H as _ <-. by eapply IH.
Qed.

Lemma values_of_Raised l w e w' :
  values_of l w = Raised e w' -> w' = w /\ exists r, r ∈ l /\ siblings w !! r = None /\ e = key_error r.
Proof.
  induction l as [|x l IH]; intros H; simpl in H; [done|].
  unfold bind, get_item in H.
  destruct (siblings w !! x) as [c|] eqn:Hc.
  - destruct (values_of l w) as [m1 w1|e1 w1] eqn:Hv; [done|].
    injection H as <- <-. destruct IH as (-> & r & Hr & Hn & ->); [done|].
    split; [done|]. exists r. split; [by right|done].
  - injection H as <- <-. split; [done|]. exists x. split; [by left|done].
Qed.

End Loops.

Section Calculate.

Context {python : Python}.

Lemma elem_of_iter (X : gset string) r : r ∈ iter X <-> r ∈ X.
Proof. by rewrite (iter_perm X), elem_of_elements. Qed.

Lemma NoDup_iter (X : gset string) : NoDup (iter X).
Proof. rewrite (iter_perm X). apply NoDup_elements. Qed.

Lemma iter_empty : iter ∅ = [].
Proof.
  apply Permutation_nil_r. by rewrite (iter_perm ∅), elements_empty.
Qed.

Lemma list_to_set_iter (X : gset string) : list_to_set (iter X) = X.
Proof. apply set_eq. intros r. by rewrite elem_of_list_to_set, elem_of_iter. Qed.

Lemma calculate_missing name w :
  siblings w !! name = None -> calculate name w = Raised (key_error name) w.
Proof. intros H. unfold calculate, bind, get_item. by rewrite H. Qed.

Lemma calculate_empty name w self :
  siblings w !! name = Some self ->
  formula self = None \/ formula self = Some "" ->
  calculate name w =
  Done tt (World (alter (set_value (VInt 0)) name (siblings w)) (shown w)
                 (calculated w ++ [name])).
Proof.
  intros Hs Hf. unfold calculate, bind, get_item, note_calculate, update_item.
  rewrite Hs.
  destruct Hf as [-> | ->]; [reflexivity|].
  destruct (decide ("" = "")); [reflexivity|congruence].
Qed.

Lemma relink_loops name (C R : gset string) m :
  each (fun r c => if decide (r ∈ iter (R ∖ C)) then remove_dep name c else c)
    (each (fun r c => if decide (r ∈ iter (C ∖ R)) then add_dep name c else c) m)
  = relinked name C R m.
Proof.
  apply map_eq. intros r. unfold relinked. fold (each (relink name C R) m).
  rewrite !lookup_each. destruct (m !! r) as [c|]; simpl; [|done]. f_equal.
  unfold relink.
  destruct (decide (r ∈ iter (C ∖ R))) as [H1|H1];
    destruct (decide (r ∈ iter (R ∖ C))) as [H2|H2];
    rewrite elem_of_iter in H1; rewrite elem_of_iter in H2;
    repeat case_decide; try done; set_solver.
Qed.

Lemma lookup_relinked name C R m r :
  relinked name C R m !! r = relink name C R r <$> m !! r.
Proof. apply lookup_each. Qed.

Lemma value_relink name C R r c : value (relink name C R r c) = value c.
Proof. unfold relink. by repeat case_decide. Qed.
Lemma formula_relink name C R r c : formula (relink name C R r c) = formula c.
Proof. unfold relink. by repeat case_decide. Qed.
Lemma reqs_relink name C R r c : reqs (relink name C R r c) = reqs c.
Proof. unfold relink. by repeat case_decide. Qed.
Lemma error_shown_relink name C R r c :
  error_shown (relink name C R r c) = error_shown c.
Proof. unfold relink. by repeat case_decide. Qed.

Lemma req_values_relinked name C R m C' :
  req_values_of (relinked name C R m) C' = req_values_of m C'.
Proof.
  apply map_eq. intros r. rewrite !lookup_req_values_of, lookup_relinked.
  case_decide; [|done]. destruct (m !! r); simpl; [|done].
  by rewrite value_relink.
Qed.

Lemma calculate_loops name (C R : gset string) w :
  (forall r, r ∈ C ∖ R -> is_Some (siblings w !! r)) ->
  (forall r, r ∈ R ∖ C -> exists c, siblings w !! r = Some c /\ name ∈ deps c) ->
  (for_each (iter (C ∖ R)) (deps_add name) ;;;
   for_each (iter (R ∖ C)) (deps_remove name)) w
  = Done tt (with_siblings (relinked name C R (siblings w)) w).
Proof.
  intros HC HR. unfold bind.
  rewrite (for_each_ext _ _ _ _ (deps_add_guarded name)).
  rewrite for_each_guarded_Done; [|apply NoDup_iter|].
  2:{ intros r Hr. apply elem_of_iter in Hr. destruct (HC r Hr) as [c Hc]. by exists c. }
  rewrite (for_each_ext _ _ _ _ (deps_remove_guarded name)).
  rewrite for_each_guarded_Done; [|apply NoDup_iter|].
  - f_equal. destruct w; unfold with_siblings; simpl. f_equal. apply relink_loops.
  - intros r Hr. apply elem_of_iter in Hr. destruct (HR r Hr) as (c & Hc & Hn).
    exists c. simpl. rewrite lookup_each, Hc. simpl.
    rewrite decide_False; [by rewrite bool_decide_eq_true_2|].
    rewrite elem_of_iter. set_solver.
Qed.

Lemma calculate_loops_then {A : Type} name (C R : gset string) w (k : M A) :
  (forall r, r ∈ C ∖ R -> is_Some (siblings w !! r)) ->
  (forall r, r ∈ R ∖ C -> exists c, siblings w !! r = Some c /\ name ∈ deps c) ->
  (for_each (iter (C ∖ R)) (deps_add name) ;;;
   for_each (iter (R ∖ C)) (deps_remove name) ;;; k) w
  = k (with_siblings (relinked name C R (siblings w)) w).
Proof.
  intros HC HR. pose proof (calculate_loops name C R w HC HR) as H.
  unfold bind in *.
  destruct (for_each (iter (C ∖ R)) (deps_add name) w) as [[] w1|]; [|done].
  by rewrite H.
Qed.

Lemma calculate_nonempty name w self f :
  siblings w !! name = Some self ->
  formula self = Some f -> f <> "" ->
  lookups_succeed name (siblings w) (reqs self) (references f) ->
  calculate name w =
  let C := references f in
  let m1 := relinked name C (reqs self) (siblings w) in
  let o := py_eval (Text.upper f) (environment (req_values_of (siblings w) C)) in
  match o with
  | Returns v =>
      Done tt (World (alter (calculated_item C o) name m1) (shown w)
                     (calculated w ++ [name]))
  | Raises e =>
      if is_Exception e
      then Done tt (World (alter (calculated_item C o) name m1)
                          (shown w ++ (if error_shown self then [] else [exc_str e]))
                          (calculated w ++ [name]))
      else Raised e (World m1 (shown w) (calculated w ++ [name]))
  end.
Proof.
  intros Hs Hf Hne [HC HR]. simpl.
  unfold calculate. unfold bind at 1. unfold get_item at 1. rewrite Hs.
  unfold bind at 1. unfold note_calculate at 1. rewrite Hf.
  rewrite decide_False by done.
  rewrite calculate_loops_then; simpl; [|intros r Hr; apply HC; set_solver|done].
  set (C := references f). set (m1 := relinked name C (reqs self) (siblings w)).
  assert (Hm1 : m1 !! name = Some (relink name C (reqs self) name self)).
  { unfold m1. by rewrite lookup_relinked, Hs. }
  unfold bind at 1. rewrite values_of_Done; simpl.
  2:{ intros r Hr. apply elem_of_iter in Hr. unfold m1. rewrite lookup_relinked.
      apply fmap_is_Some. by apply HC. }
  rewrite list_to_set_iter. unfold m1 at 1. rewrite req_values_relinked.
  unfold bind at 1. unfold get_item at 1. simpl. rewrite Hm1.
  rewrite value_relink. unfold bind at 1. unfold evaluate.
  destruct (py_eval _ _) as [v|e].
  - unfold bind, update_item, with_siblings; simpl. do 2 f_equal.
    rewrite !alter_alter_eq. apply alter_ext. intros x Hx. simpl. by destruct x.
  - destruct (is_Exception e); [|done].
    unfold bind at 1. unfold get_item at 1. simpl. rewrite Hm1.
    rewrite error_shown_relink.
    destruct (error_shown self) eqn:Hes.
    + unfold bind, ret, update_item, with_siblings; simpl.
      rewrite app_nil_r. do 2 f_equal.
      rewrite !alter_alter_eq. apply alter_ext. intros x Hx. simpl.
      rewrite Hm1 in Hx. injection Hx as <-.
      unfold calculated_item, set_reqs, set_value; simpl.
      by rewrite error_shown_relink, Hes, value_relink.
    + unfold bind, ret, update_item, show_error_message, with_siblings; simpl.
      do 2 f_equal.
      rewrite !alter_alter_eq. apply alter_ext. intros x Hx. simpl.
      rewrite Hm1 in Hx. injection Hx as <-.
      unfold calculated_item, set_reqs, set_value, set_error_shown; simpl.
      by rewrite value_relink.
Qed.

Lemma calculate_Done_lookups name w w' self f :
  siblings w !! name = Some self ->
  formula self = Some f -> f <> "" ->
  calculate name w = Done tt w' ->
  lookups_succeed name (siblings w) (reqs self) (references f).
Proof.
  intros Hs Hf Hne H.
  unfold calculate in H. unfold bind at 1 in H. unfold get_item at 1 in H.
  rewrite Hs in H. unfold bind at 1 in H. unfold note_calculate at 1 in H.
  rewrite Hf in H. rewrite decide_False in H by done.
  set (C := references f) in *. set (R := reqs self) in *.
  set (w0 := World _ _ _) in H.
  unfold bind at 1 in H.
  destruct (for_each (iter (C ∖ R)) (deps_add name) w0) as [[] w1|] eqn:E1; [|done].
  unfold bind at 1 in H.
  destruct (for_each (iter (R ∖ C)) (deps_remove name) w1) as [[] w2|] eqn:E2; [|done].
  unfold bind at 1 in H.
  destruct (values_of (iter C) w2) as [rv w3|] eqn:E3; [|done].
  rewrite (for_each_ext _ _ _ _ (deps_add_guarded name)) in E1.
  pose proof (for_each_guarded_inv _ _ _ _ _ _ (NoDup_iter _) E1) as I1.
  rewrite for_each_guarded_Done in E1 by (done || apply NoDup_iter).
  injection E1 as <-.
  rewrite (for_each_ext _ _ _ _ (deps_remove_guarded name)) in E2.
  pose proof (for_each_guarded_inv _ _ _ _ _ _ (NoDup_iter _) E2) as I2.
  rewrite for_each_guarded_Done in E2 by (done || apply NoDup_iter).
  injection E2 as <-.
  pose proof (values_of_inv _ _ _ _ E3) as I3.
  simpl in *. split.
  - intros r Hr. specialize (I3 r). rewrite elem_of_iter in I3.
    specialize (I3 Hr). rewrite !lookup_each in I3.
    by apply fmap_is_Some, fmap_is_Some in I3.
  - intros r Hr. destruct (I2 r) as (c & Hc & Hp); [by apply elem_of_iter|].
    rewrite lookup_each in Hc.
    destruct (siblings w !! r) as [c0|]; simpl in *; [|done].
    rewrite decide_False in Hc by (rewrite elem_of_iter; set_solver).
    injection Hc as <-. exists c0. split; [done|].
    by apply bool_decide_eq_true_1 in Hp.
Qed.

Lemma calculate_Done_inv name w w' :
  calculate name w = Done tt w' ->
  exists self, siblings w !! name = Some self /\
    calculated w' = calculated w ++ [name] /\
    ((formula self = None \/ formula self = Some "") /\
       siblings w' = alter (set_value (VInt 0)) name (siblings w) /\
       shown w' = shown w
     \/ exists f, formula self = Some f /\ f <> "" /\
         lookups_succeed name (siblings w) (reqs self) (references f) /\
         let C := references f in
         let o := py_eval (Text.upper f) (environment (req_values_of (siblings w) C)) in
         siblings w' =
           alter (calculated_item C o) name (relinked name C (reqs self) (siblings w)) /\
         shown w' = shown w ++
           match o with
           | Raises e => if error_shown self then [] else [exc_str e]
           | Returns _ => []
           end /\
         match o with Raises e => is_Exception e = true | Returns _ => True end).
Proof.
  intros H.
  destruct (siblings w !! name) as [self|] eqn:Hs.
  2:{ by rewrite calculate_missing in H. }
  exists self. split; [done|].
  destruct (formula self) as [f|] eqn:Hf.
  2:{ rewrite (calculate_empty _ _ self) in H by auto. injection H as <-. simpl. auto. }
  destruct (decide (f = "")) as [->|Hne].
  { rewrite (calculate_empty _ _ self) in H by auto. injection H as <-. simpl. auto. }
  pose proof (calculate_Done_lookups _ _ _ _ _ Hs Hf Hne H) as HL.
  rewrite (calculate_nonempty _ _ self f) in H by done. simpl in H.
  destruct (py_eval _ _) as [v|e] eqn:Ho.
  - injection H as <-. simpl. split; [done|]. right. exists f.
    rewrite Ho. by rewrite app_nil_r.
  - destruct (is_Exception e) eqn:He; [|done].
    injection H as <-. simpl. split; [done|]. right. exists f. by rewrite Ho.
Qed.

Lemma relink_same name C r c : relink name C C r c = c.
Proof. unfold relink. rewrite !decide_False by set_solver. done. Qed.

Lemma relinked_same name C m : relinked name C C m = m.
Proof.
  apply map_eq. intros r. rewrite lookup_relinked.
  destruct (m !! r); simpl; [|done]. by rewrite relink_same.
Qed.

Lemma graph_lookup w X : graph w !! X = links <$> siblings w !! X.
Proof. apply lookup_fmap. Qed.

Lemma graph_lookup_Some w X f d r :
  graph w !! X = Some (f, d, r) <->
  exists c, siblings w !! X = Some c /\ formula c = f /\ deps c = d /\ reqs c = r.
Proof.
  rewrite graph_lookup. unfold links. split.
  - destruct (siblings w !! X) as [c|]; simpl; [|done].
    intros [= <- <- <-]. by exists c.
  - intros (c & -> & <- & <- & <-). done.
Qed.

Lemma graph_alter_value (g : SpreadSheetItem -> SpreadSheetItem) name m sh ca w :
  (forall c, m !! name = Some c -> links (g c) = links c) ->
  siblings w = m ->
  graph (World (alter g name m) sh ca) = graph w.
Proof.
  intros Hg <-. unfold graph; simpl. apply map_eq. intros X.
  rewrite !lookup_fmap. destruct (decide (X = name)) as [->|Hne].
  - rewrite lookup_alter_eq. destruct (siblings w !! name) as [c|]; simpl; [|done].
    by rewrite Hg.
  - by rewrite lookup_alter_ne.
Qed.

(** On a consistent dictionary [calculate] leaves the dependency graph as it
    is, and it raises only what [eval] raises past the handler. *)
Lemma calculate_keeps_graph d w :
  consistent (graph w) -> is_Some (siblings w !! d) ->
  graph (world_of (calculate d w)) = graph w /\
  calculated (world_of (calculate d w)) = calculated w ++ [d] /\
  match calculate d w with
  | Raised e _ => escapes e
  | Done _ _ => True
  end.
Proof.
  intros Hc [self Hs].
  destruct (formula self) as [f|] eqn:Hf.
  2:{ rewrite (calculate_empty _ _ self) by auto. simpl.
      split_and!; try done. by apply graph_alter_value. }
  destruct (decide (f = "")) as [->|Hne].
  { rewrite (calculate_empty _ _ self) by auto. simpl.
    split_and!; try done. by apply graph_alter_value. }
  assert (HR : reqs self = references f).
  { eapply (reqs_current _ Hc d f (deps self)); [|done].
    apply graph_lookup_Some. by exists self. }
  assert (HL : lookups_succeed d (siblings w) (reqs self) (references f)).
  { split.
    - intros r Hr. rewrite <- HR in Hr.
      destruct (reqs_mirrored _ Hc d (Some f) (deps self) (reqs self) r)
        as (f' & d' & r' & Hg & _); [|done|].
      + apply graph_lookup_Some. by exists self.
      + apply graph_lookup_Some in Hg as (c & -> & _). done.
    - intros r Hr. set_solver. }
  rewrite (calculate_nonempty _ _ self f) by done. simpl.
  rewrite HR, relinked_same.
  assert (HK : forall o c, siblings w !! d = Some c ->
             links (calculated_item (references f) o c) = links c).
  { intros o c Hc'. rewrite Hs in Hc'. injection Hc' as <-.
    unfold links; simpl. by rewrite HR. }
  destruct (py_eval _ _) as [v|e] eqn:Ho.
  - simpl. split_and!; try done. apply graph_alter_value; [|done]. apply HK.
  - destruct (is_Exception e) eqn:He; simpl.
    + split_and!; try done. apply graph_alter_value; [|done]. apply HK.
    + split_and!; try done. split; [done|]. eauto.
Qed.

End Calculate.

Section Propagate.

Context {python : Python}.

Lemma graph_is_Some w X : is_Some (graph w !! X) <-> is_Some (siblings w !! X).
Proof. rewrite graph_lookup. apply fmap_is_Some. Qed.

Lemma reaches_snoc g X Y Z : reaches g X Y -> dependent g Y Z -> reaches g X Z.
Proof.
  induction 1 as [X Y H|X D Y H _ IH]; intros HZ.
  - eapply reaches_more; [done|]. by apply reaches_one.
  - eapply reaches_more; [done|]. by apply IH.
Qed.

Lemma dependent_is_Some g X Y :
  consistent g -> dependent g X Y -> is_Some (g !! Y).
Proof.
  intros Hc (f & d & r & HX & HY).
  destruct (deps_mirrored _ Hc X f d r Y HX HY) as (f' & d' & r' & H' & _).
  by rewrite H'.
Qed.

(** The conclusion shared by the facts on [propagate] and its loop: the
    graph is kept, the record of [calculate] calls grows, and an exception
    that stops the run is one that the handler does not catch. *)
Lemma for_each_fuel_keeps (body : string -> world -> option (result unit)) g l :
  (forall d w r, graph w = g -> is_Some (g !! d) -> body d w = Some r ->
     graph (world_of r) = g /\
     calculated w `prefix_of` calculated (world_of r) /\
     match r with Raised e _ => escapes e | Done _ _ => True end) ->
  forall w r, graph w = g -> (forall d, d ∈ l -> is_Some (g !! d)) ->
    for_each_fuel l body w = Some r ->
    graph (world_of r) = g /\
    calculated w `prefix_of` calculated (world_of r) /\
    match r with Raised e _ => escapes e | Done _ _ => True end.
Proof.
  intros Hb. induction l as [|d l IHl]; intros w r Hg Hd H; simpl in H.
  - injection H as <-. done.
  - destruct (body d w) as [[[] w1|e w1]|] eqn:Hbd; [| |done].
    + destruct (Hb d w _ Hg ltac:(apply Hd; by left) Hbd) as (Bg & Bc & _).
      destruct (IHl w1 r Bg ltac:(intros; apply Hd; by right) H) as (Lg & Lc & Le).
      split_and!; [done| |done]. by etrans.
    + injection H as <-.
      by apply (Hb d w _ Hg ltac:(apply Hd; by left) Hbd).
Qed.

(** On a consistent dictionary [propagate] leaves the dependency graph as it
    is, whatever the fuel. *)
Lemma propagate_keeps_graph fuel : forall name w r,
  consistent (graph w) -> is_Some (siblings w !! name) ->
  propagate fuel name w = Some r ->
  graph (world_of r) = graph w /\
  calculated w `prefix_of` calculated (world_of r) /\
  match r with Raised e _ => escapes e | Done _ _ => True end.
Proof.
  induction fuel as [|fuel IH]; intros name w r Hc [self Hs] H; [done|].
  simpl in H. rewrite Hs in H.
  eapply for_each_fuel_keeps; [|done| |exact H].
  - clear H. intros d w1 r1 Hg Hd H.
    assert (Hc1 : consistent (graph w1)) by (by rewrite Hg).
    assert (Hd1 : is_Some (siblings w1 !! d)).
    { apply graph_is_Some. by rewrite Hg. }
    destruct (calculate_keeps_graph d w1 Hc1 Hd1) as (Kg & Kc & Ke).
    cbv beta in H. revert H Kg Kc Ke.
    destruct (calculate d w1) as [[] w2|e w2]; simpl; intros H Kg Kc Ke.
    + destruct (IH d w2 r1) as (Pg & Pc & Pe); [by rewrite Kg| |done|].
      { apply graph_is_Some. rewrite Kg, Hg. done. }
      split_and!; [by rewrite Pg, Kg, Hg| |done].
      etrans; [|exact Pc]. rewrite Kc. by apply prefix_app_r.
    + injection H as <-. simpl. split_and!; [by rewrite Kg, Hg| |done].
      rewrite Kc. by apply prefix_app_r.
  - intros d Hd. apply elem_of_iter in Hd.
    apply (dependent_is_Some _ name); [done|].
    exists (formula self), (deps self), (reqs self). split; [|done].
    apply graph_lookup_Some. by exists self.
Qed.

Lemma for_each_fuel_terminates (body : string -> world -> option (result unit)) g l :
  (forall d w, graph w = g -> d ∈ l ->
     exists r, body d w = Some r /\ graph (world_of r) = g) ->
  forall w, graph w = g -> exists r, for_each_fuel l body w = Some r.
Proof.
  induction l as [|d l IHl]; intros Hb w Hg; simpl; [by eexists|].
  destruct (Hb d w Hg) as (r & Hr & Hgr); [by left|]. rewrite Hr.
  destruct r as [[] w1|e w1]; [|by eexists].
  apply IHl; [|done]. intros d' w' Hg' Hd'. apply Hb; [done|by right].
Qed.

Lemma NoDup_bounded (g : gmap string (option string * gset string * gset string))
    (l : list string) :
  NoDup l -> (forall v, v ∈ l -> is_Some (g !! v)) -> length l <= size g.
Proof.
  intros ND Hin. rewrite <- (size_dom (D := gset string)).
  unfold size, set_size; simpl. apply submseteq_length, NoDup_submseteq; [done|].
  intros v Hv. apply elem_of_elements, elem_of_dom. by apply Hin.
Qed.

(** Without a cycle the recursion of [propagate] is bounded by the number of
    cells: [visited] are the cells on the way from the edited cell to [name]. *)
Lemma propagate_terminates_on_path g :
  consistent g -> acyclic g ->
  forall fuel visited name w,
    graph w = g ->
    NoDup (name :: visited) ->
    (forall v, v ∈ visited -> reaches g v name) ->
    (forall v, v ∈ name :: visited -> is_Some (g !! v)) ->
    size g < fuel + length (name :: visited) ->
    exists r, propagate fuel name w = Some r.
Proof.
  intros Hc Ha.
  induction fuel as [|fuel IH]; intros visited name w Hg ND Hv Hin Hsz.
  - pose proof (NoDup_bounded g _ ND Hin). simpl in *. lia.
  - simpl. destruct (siblings w !! name) as [self|] eqn:Hs; [|by eexists].
    assert (Hdep : forall d, d ∈ iter (deps self) -> dependent g name d).
    { intros d Hd. apply elem_of_iter in Hd.
      exists (formula self), (deps self), (reqs self). split; [|done].
      rewrite <- Hg. apply graph_lookup_Some. by exists self. }
    apply (for_each_fuel_terminates _ g); [|done].
    intros d w1 Hg1 Hd.
    assert (Hc1 : consistent (graph w1)) by (by rewrite Hg1).
    assert (Hd1 : is_Some (siblings w1 !! d)).
    { apply graph_is_Some. rewrite Hg1. apply (dependent_is_Some _ name); auto. }
    destruct (calculate_keeps_graph d w1 Hc1 Hd1) as (Kg & _ & _).
    destruct (calculate d w1) as [[] w2|e w2]; simpl in *.
    2:{ eexists. split; [done|]. simpl. by rewrite Kg. }
    destruct (IH (name :: visited) d w2) as [r Hr].
    + by rewrite Kg.
    + constructor; [|done]. intros Hmem.
      apply elem_of_cons in Hmem as [->|Hmem].
      * apply (Ha name). apply reaches_one. auto.
      * apply (Ha name). eapply reaches_more; [by apply Hdep|]. by apply Hv.
    + intros v Hmem. apply elem_of_cons in Hmem as [->|Hmem].
      * apply reaches_one. auto.
      * eapply reaches_snoc; [by apply Hv|]. auto.
    + intros v Hmem. apply elem_of_cons in Hmem as [->|Hmem]; [|by apply Hin].
      apply (dependent_is_Some _ name); auto.
    + simpl in *. lia.
    + exists r. split; [done|].
      destruct (propagate_keeps_graph fuel d w2 r) as (Pg & _); try done.
      * by rewrite Kg.
      * apply graph_is_Some. rewrite Kg. by apply graph_is_Some.
      * by rewrite Pg, Kg.
Qed.

End Propagate.

Section Edits.

Context {python : Python}.

Lemma lookup_rewired name text C R g X :
  rewired name text C R g !! X = rewire name text C R X <$> g !! X.
Proof. unfold rewired. rewrite map_lookup_imap. by destruct (g !! X). Qed.

Lemma lookup_rewired_Some name text C R g X f' d' r' :
  rewired name text C R g !! X = Some (f', d', r') ->
  exists f d r, g !! X = Some (f, d, r) /\
    f' = (if decide (X = name) then Some text else f) /\
    d' = relink_deps name C R X d /\
    r' = (if decide (X = name) then C else r).
Proof.
  rewrite lookup_rewired. destruct (g !! X) as [[[f d] r]|]; simpl; [|done].
  unfold rewire; simpl. intros [= <- <- <-]. by exists f, d, r.
Qed.

Lemma elem_of_relink_deps name C R X d Z :
  Z ∈ relink_deps name C R X d <->
  (Z = name /\ X ∈ C ∖ R) \/ (Z ∈ d /\ ~ (Z = name /\ X ∈ R ∖ C)).
Proof. unfold relink_deps. repeat case_decide; set_solver. Qed.

Lemma consistent_rewired g name text C f0 d0 R :
  consistent g ->
  g !! name = Some (f0, d0, R) ->
  (forall r, r ∈ C -> is_Some (g !! r)) ->
  (text <> "" -> C = references text) ->
  consistent (rewired name text C R g).
Proof.
  intros Hc Hn HC Ht. split.
  - intros X f' d' r' Y HX HY.
    apply lookup_rewired_Some in HX as (f & d & r & HX & -> & -> & ->).
    destruct (decide (X = name)) as [->|Hne].
    + destruct (HC Y HY) as [[[fy dy] ry] Hy].
      exists (if decide (Y = name) then Some text else fy),
             (relink_deps name C R Y dy),
             (if decide (Y = name) then C else ry).
      split; [by rewrite lookup_rewired, Hy|].
      apply elem_of_relink_deps.
      destruct (decide (Y ∈ R)) as [HR|HR]; [|left; set_solver].
      right. split; [|set_solver].
      destruct (reqs_mirrored _ Hc name f0 d0 R Y Hn HR) as (? & ? & ? & Hy' & ?).
      rewrite Hy in Hy'. by injection Hy' as <- <- <-.
    + destruct (reqs_mirrored _ Hc X f d r Y HX HY) as (fy & dy & ry & Hy & HXd).
      exists (if decide (Y = name) then Some text else fy),
             (relink_deps name C R Y dy),
             (if decide (Y = name) then C else ry).
      split; [by rewrite lookup_rewired, Hy|].
      apply elem_of_relink_deps. right. split; [done|]. by intros [? _].
  - intros Y f' d' r' X HY HX.
    apply lookup_rewired_Some in HY as (f & d & r & HY & -> & -> & ->).
    apply elem_of_relink_deps in HX as [[-> HX]|[HX Hno]].
    + exists (Some text), (relink_deps name C R name d0), C.
      split; [|set_solver].
      rewrite lookup_rewired, Hn. unfold rewire; simpl. by rewrite !decide_True.
    + destruct (deps_mirrored _ Hc Y f d r X HY HX) as (fx & dx & rx & Hx & HYr).
      exists (if decide (X = name) then Some text else fx),
             (relink_deps name C R X dx),
             (if decide (X = name) then C else rx).
      split; [by rewrite lookup_rewired, Hx|].
      case_decide as HXn; [|done]. subst X.
      rewrite Hn in Hx. injection Hx as <- <- <-.
      destruct (decide (Y ∈ C)); [done|]. exfalso. apply Hno. set_solver.
  - intros X f d' r' HX Hf.
    apply lookup_rewired_Some in HX as (f1 & d & r & HX & Hf' & -> & ->).
    case_decide as HXn.
    + injection Hf' as ->. by apply Ht.
    + subst f1. by eapply (reqs_current _ Hc).
Qed.

Lemma relink_deps_same name C X d : relink_deps name C C X d = d.
Proof. unfold relink_deps. rewrite !decide_False by set_solver. done. Qed.

Lemma deps_relink name C R X c :
  deps (relink name C R X c) = relink_deps name C R X (deps c).
Proof. unfold relink, relink_deps. by repeat case_decide. Qed.

Lemma links_relink name C R X c :
  links (relink name C R X c) =
  (formula c, relink_deps name C R X (deps c), reqs c).
Proof. unfold links. by rewrite formula_relink, deps_relink, reqs_relink. Qed.

Lemma lookup_setData name text w X :
  siblings (setData name text w) !! X =
  (if decide (X = name) then set_formula (Some text) else id) <$> siblings w !! X.
Proof.
  unfold setData; simpl. case_decide as HX.
  - subst. apply lookup_alter_eq.
  - rewrite lookup_alter_ne by done. by destruct (siblings w !! X).
Qed.

(** The dependency graph after the [calculate] of an edit. *)
Lemma edit_calculate_graph name text w w1 :
  calculate name (setData name text w) = Done tt w1 ->
  exists self, siblings w !! name = Some self /\
    let C := if decide (text = "") then reqs self else references text in
    graph w1 = rewired name text C (reqs self) (graph w) /\
    (text <> "" -> forall r, r ∈ C -> is_Some (graph w !! r)).
Proof.
  intros H. apply calculate_Done_inv in H as (self_s & Hs & _ & H).
  rewrite lookup_setData, decide_True in Hs by done.
  destruct (siblings w !! name) as [self|] eqn:Hself; [|done].
  injection Hs as <-. exists self. split; [done|].
  cbv zeta in H. cbn [formula reqs set_formula] in H.
  destruct H as [(Hf & Hm & _)|(f & Hf & Hne & [HC _] & Hm & _)].
  - assert (text = "") as -> by (destruct Hf as [Hf|Hf]; congruence).
    rewrite decide_True by done. split; [|done].
    apply map_eq. intros X. rewrite graph_lookup, lookup_rewired, graph_lookup, Hm.
    destruct (decide (X = name)) as [->|HX].
    + rewrite lookup_alter_eq, lookup_setData, decide_True, Hself by done. simpl.
      unfold rewire, links; simpl. rewrite relink_deps_same.
      by destruct (decide (name = name)).
    + rewrite lookup_alter_ne, lookup_setData, decide_False by done.
      destruct (siblings w !! X) as [c|]; simpl; [|done].
      unfold rewire, links; simpl. rewrite relink_deps_same.
      by destruct (decide (X = name)).
  - injection Hf as <-. rewrite decide_False by done. split.
    + apply map_eq. intros X.
      rewrite graph_lookup, lookup_rewired, graph_lookup, Hm.
      destruct (decide (X = name)) as [->|HX].
      * rewrite lookup_alter_eq, lookup_relinked, lookup_setData, decide_True, Hself
          by done. simpl.
        unfold rewire, links; simpl. rewrite formula_relink, deps_relink. simpl.
        by destruct (decide (name = name)).
      * rewrite lookup_alter_ne, lookup_relinked, lookup_setData, decide_False by done.
        destruct (siblings w !! X) as [c|]; simpl; [|done].
        rewrite links_relink. unfold rewire; simpl.
        by destruct (decide (X = name)).
    + intros _ r Hr. apply graph_is_Some. specialize (HC r Hr).
      rewrite lookup_setData in HC. by apply fmap_is_Some in HC.
Qed.

Lemma edit_calculate_consistent name text w w1 :
  consistent (graph w) ->
  calculate name (setData name text w) = Done tt w1 ->
  consistent (graph w1).
Proof.
  intros Hc H. apply edit_calculate_graph in H as (self & Hs & Hg & HC).
  rewrite Hg.
  assert (Hn : graph w !! name = Some (formula self, deps self, reqs self)).
  { apply graph_lookup_Some. by exists self. }
  eapply consistent_rewired; [done|exact Hn| |].
  - case_decide as Ht; [|by apply HC].
    intros r Hr.
    destruct (reqs_mirrored _ Hc name _ _ _ r Hn Hr) as (? & ? & ? & -> & _). done.
  - intros Ht. by rewrite decide_False.
Qed.

(** Every edit that returns leaves a consistent dictionary. *)
Lemma edit_consistent fuel name text w w' :
  consistent (graph w) ->
  edit fuel name text w = Some (Done tt w') ->
  consistent (graph w').
Proof.
  intros Hc H. unfold edit, display in H.
  destruct (calculate name (setData name text w)) as [[] w1|] eqn:Hcal; [|done].
  pose proof (edit_calculate_consistent _ _ _ _ Hc Hcal) as Hc1.
  assert (Hs1 : is_Some (siblings w1 !! name)).
  { apply calculate_Done_inv in Hcal as (self & Hs & Hcalc & Hcases).
    destruct Hcases as [(_ & -> & _)|(f & _ & _ & _ & Hm & _)].
    - apply lookup_alter_is_Some. by rewrite Hs.
    - cbv zeta in Hm. rewrite Hm. apply lookup_alter_is_Some.
      rewrite lookup_relinked, Hs. done. }
  destruct (propagate_keeps_graph fuel name w1 _ Hc1 Hs1 H) as (Hg & _).
  simpl in Hg. by rewrite Hg.
Qed.

Lemma create_row_new i cols m :
  map_Forall (fun _ c => c = new_item) m ->
  map_Forall (fun _ c => c = new_item) (create_row i cols m).
Proof.
  unfold create_row. generalize (seq 0 cols). intros l. revert m.
  induction l as [|j l IH]; intros m Hm; simpl; [done|].
  apply IH. by apply map_Forall_insert_2.
Qed.

Lemma create_rows_new cols (l : list nat) : forall m,
  map_Forall (fun _ c => c = new_item) m ->
  map_Forall (fun _ c => c = new_item) (foldl (fun m i => create_row i cols m) m l).
Proof.
  induction l as [|i l IH]; intros m Hm; simpl; [done|].
  apply IH. by apply create_row_new.
Qed.

Lemma create_widgets_new rows cols :
  map_Forall (fun _ c => c = new_item) (create_widgets rows cols).
Proof. apply create_rows_new, map_Forall_empty. Qed.

Lemma SpreadSheet_lookup rows cols r c :
  siblings (SpreadSheet rows cols) !! r = Some c -> c = new_item.
Proof. apply (create_widgets_new rows cols). Qed.

Lemma SpreadSheet_consistent rows cols : consistent (graph (SpreadSheet rows cols)).
Proof.
  split.
  - intros X f d r Y HX HY. apply graph_lookup_Some in HX as (c & Hc & _ & _ & <-).
    apply SpreadSheet_lookup in Hc as ->. set_solver.
  - intros X f d r Y HX HY. apply graph_lookup_Some in HX as (c & Hc & _ & <- & _).
    apply SpreadSheet_lookup in Hc as ->. set_solver.
  - intros X f d r HX. apply graph_lookup_Some in HX as (c & Hc & Hf & _).
    apply SpreadSheet_lookup in Hc as ->. done.
Qed.

Lemma edits_to_consistent w es w' :
  edits_to w es w' -> consistent (graph w) -> consistent (graph w').
Proof.
  induction 1 as [|w name text fuel w1 es w2 He _ IH]; [done|].
  intros Hc. apply IH. by eapply edit_consistent.
Qed.

Lemma edit_returned_sound fuel name text w :
  returned (edits fuel [(name, text)] w) = true ->
  edit fuel name text w = Some (Done tt (world_after fuel [(name, text)] w)).
Proof.
  unfold world_after. simpl.
  by destruct (edit fuel name text w) as [[[] w1|]|].
Qed.

Lemma is_Done_sound (r : result unit) :
  is_Done r = true -> r = Done tt (world_of r).
Proof. by destruct r as [[] ?|]. Qed.

Lemma edits_sound fuel es : forall w w',
  edits fuel es w = Some w' -> edits_to w es w'.
Proof.
  induction es as [|[name text] es IH]; intros w w' H; simpl in H.
  - injection H as <-. constructor.
  - destruct (edit fuel name text w) as [[[] w1|]|] eqn:He; try done.
    econstructor; [exact He|]. by apply IH.
Qed.

Lemma world_after_sound fuel es w :
  returned (edits fuel es w) = true -> edits_to w es (world_after fuel es w).
Proof.
  unfold world_after. destruct (edits fuel es w) as [w'|] eqn:E; [|done].
  intros _. by apply (edits_sound fuel).
Qed.

Lemma consistent_mutual w : consistent (graph w) -> mutual (siblings w).
Proof.
  intros Hc X Y cx cy HX HY. split; intros H.
  - destruct (reqs_mirrored _ Hc X (formula cx) (deps cx) (reqs cx) Y)
      as (f & d & r & Hg & Hd); [|done|].
    + apply graph_lookup_Some. by exists cx.
    + apply graph_lookup_Some in Hg as (c & Hc' & _ & <- & _). congruence.
  - destruct (deps_mirrored _ Hc Y (formula cy) (deps cy) (reqs cy) X)
      as (f & d & r & Hg & Hd); [|done|].
    + apply graph_lookup_Some. by exists cy.
    + apply graph_lookup_Some in Hg as (c & Hc' & _ & _ & <-). congruence.
Qed.

End Edits.

Section Runs.

Context {python : Python}.

(** A property that [calculate] keeps is kept by every run that returns. *)
Lemma for_each_fuel_Done_ind (P : world -> Prop)
    (body : string -> world -> option (result unit)) l :
  (forall d w w', P w -> body d w = Some (Done tt w') -> P w') ->
  forall w w', P w -> for_each_fuel l body w = Some (Done tt w') -> P w'.
Proof.
  intros Hb. induction l as [|d l IH]; intros w w' Hw H; simpl in H.
  - by injection H as <-.
  - destruct (body d w) as [[[] w1|]|] eqn:Hd; try done.
    eapply IH; [|exact H]. by eapply Hb.
Qed.

Lemma propagate_Done_ind (P : world -> Prop) :
  (forall d w w', P w -> calculate d w = Done tt w' -> P w') ->
  forall fuel name w w', P w -> propagate fuel name w = Some (Done tt w') -> P w'.
Proof.
  intros Hcal. induction fuel as [|fuel IH]; intros name w w' Hw H; [done|].
  simpl in H. destruct (siblings w !! name) as [self|]; [|done].
  eapply for_each_fuel_Done_ind; [|exact Hw|exact H].
  intros d w1 w2 Hw1 Hb. cbv beta in Hb.
  destruct (calculate d w1) as [[] w3|] eqn:Hc; [|done].
  eapply IH; [|exact Hb]. by eapply Hcal.
Qed.

Lemma edit_Done_ind (P : world -> Prop) :
  (forall name text w, P w -> P (setData name text w)) ->
  (forall d w w', P w -> calculate d w = Done tt w' -> P w') ->
  forall fuel name text w w',
    P w -> edit fuel name text w = Some (Done tt w') -> P w'.
Proof.
  intros Hset Hcal fuel name text w w' Hw H. unfold edit, display in H.
  destruct (calculate name (setData name text w)) as [[] w1|] eqn:Hc; [|done].
  eapply propagate_Done_ind; [exact Hcal| |exact H].
  eapply Hcal; [|exact Hc]. by apply Hset.
Qed.

Lemma edits_to_ind_world (P : world -> Prop) :
  (forall name text w, P w -> P (setData name text w)) ->
  (forall d w w', P w -> calculate d w = Done tt w' -> P w') ->
  forall w es w', edits_to w es w' -> P w -> P w'.
Proof.
  intros Hset Hcal w es w'.
  induction 1 as [|w name text fuel w1 es w2 He _ IH]; [done|].
  intros Hw. apply IH. by eapply edit_Done_ind.
Qed.

Lemma references_length f r : r ∈ references f -> String.length r = 2.
Proof.
  unfold references. rewrite elem_of_list_to_set. apply findall_length.
Qed.

Lemma calculate_only_short d w w' :
  only_short_names_have_deps (siblings w) ->
  calculate d w = Done tt w' ->
  only_short_names_have_deps (siblings w').
Proof.
  intros Hw H. apply calculate_Done_inv in H as (self & Hs & _ & H).
  cbv zeta in H.
  destruct H as [(_ & -> & _)|(f & Hf & Hne & _ & -> & _)]; intros r c Hr Hlen.
  - destruct (decide (r = d)) as [->|Hrd].
    + rewrite lookup_alter_eq in Hr.
      destruct (siblings w !! d) as [c0|] eqn:Hc0; [|done].
      injection Hr as <-. simpl. by eapply Hw.
    + rewrite lookup_alter_ne in Hr by done. by eapply Hw.
  - assert (Hd0 : exists c0, siblings w !! r = Some c0 /\
              deps c = relink_deps d (references f) (reqs self) r (deps c0)).
    { destruct (decide (r = d)) as [->|Hrd].
      - rewrite lookup_alter_eq, lookup_relinked in Hr.
        destruct (siblings w !! d) as [c0|]; [|done]. injection Hr as <-.
        exists c0. split; [done|]. simpl. apply deps_relink.
      - rewrite lookup_alter_ne, lookup_relinked in Hr by done.
        destruct (siblings w !! r) as [c0|]; [|done]. injection Hr as <-.
        exists c0. split; [done|]. apply deps_relink. }
    destruct Hd0 as (c0 & Hc0 & ->).
    rewrite (Hw r c0 Hc0 Hlen). unfold relink_deps.
    rewrite decide_False.
    + case_decide; set_solver.
    + intros Hin. apply Hlen, (references_length f). set_solver.
Qed.

Lemma setData_only_short name text w :
  only_short_names_have_deps (siblings w) ->
  only_short_names_have_deps (siblings (setData name text w)).
Proof.
  intros Hw r c Hr Hlen. rewrite lookup_setData in Hr.
  destruct (siblings w !! r) as [c0|] eqn:Hc0; [|done]. injection Hr as <-.
  case_decide; simpl; by eapply Hw.
Qed.

Lemma SpreadSheet_only_short rows cols :
  only_short_names_have_deps (siblings (SpreadSheet rows cols)).
Proof. intros r c Hr _. by apply SpreadSheet_lookup in Hr as ->. Qed.

Lemma dependent_graph w name self d :
  siblings w !! name = Some self -> (dependent (graph w) name d <-> d ∈ deps self).
Proof.
  intros Hs. split.
  - intros (f & ds & r & Hg & Hd).
    apply graph_lookup_Some in Hg as (c & Hc & _ & <- & _). congruence.
  - intros Hd. exists (formula self), (deps self), (reqs self). split; [|done].
    apply graph_lookup_Some. by exists self.
Qed.

(** The step of [propagate] on one dependent, on a consistent dictionary. *)
Lemma propagate_step_keeps fuel d w r :
  consistent (graph w) -> is_Some (graph w !! d) ->
  match calculate d w with
  | Done _ w2 => propagate fuel d w2
  | Raised e w2 => Some (Raised e w2)
  end = Some r ->
  graph (world_of r) = graph w /\
  (exists t, calculated (world_of r) = calculated w ++ d :: t) /\
  match r with Raised e _ => escapes e | Done _ _ => True end.
Proof.
  intros Hc Hd H. apply graph_is_Some in Hd.
  destruct (calculate_keeps_graph d w Hc Hd) as (Kg & Kc & Ke).
  revert H Kg Kc Ke.
  destruct (calculate d w) as [[] w2|e w2]; simpl; intros H Kg Kc Ke.
  - destruct (propagate_keeps_graph fuel d w2 r) as (Pg & [t Pc] & Pe); [by rewrite Kg| |done|].
    { apply graph_is_Some. rewrite Kg. by apply graph_is_Some. }
    split_and!; [by rewrite Pg|exists t|done].
    by rewrite Pc, Kc, <- app_assoc.
  - injection H as <-. simpl. split_and!; [done|by exists []|done].
Qed.

Lemma propagate_loop_visits fuel g Y d :
  consistent g ->
  (forall w w', graph w = g -> propagate fuel d w = Some (Done tt w') ->
     reaches g d Y -> exists t, calculated w' = calculated w ++ t /\ Y ∈ t) ->
  Y = d \/ reaches g d Y ->
  forall l w1 w', graph w1 = g -> d ∈ l ->
    (forall x, x ∈ l -> is_Some (g !! x)) ->
    for_each_fuel l
      (fun d w1 =>
         match calculate d w1 with
         | Done _ w2 => propagate fuel d w2
         | Raised e w2 => Some (Raised e w2)
         end) w1 = Some (Done tt w') ->
    exists t, calculated w' = calculated w1 ++ t /\ Y ∈ t.
Proof.
  intros Hc IH HdY.
  induction l as [|x l IHl]; intros w1 w' Hg Hd Hin H.
  - by apply elem_of_nil in Hd.
  - simpl in H.
    destruct (match calculate x w1 with
              | Done _ w2 => propagate fuel x w2
              | Raised e w2 => Some (Raised e w2)
              end) as [[[] w2|]|] eqn:Hstep; try done.
    assert (Hc1 : consistent (graph w1)) by (by rewrite Hg).
    assert (Hx1 : is_Some (graph w1 !! x)) by (rewrite Hg; apply Hin; by left).
    destruct (propagate_step_keeps fuel x w1 _ Hc1 Hx1 Hstep) as (Sg & [t St] & _).
    simpl in Sg, St.
    assert (HL : exists t', calculated w' = calculated w2 ++ t').
    { pose proof (for_each_fuel_keeps
        (fun d w1 =>
           match calculate d w1 with
           | Done _ w2 => propagate fuel d w2
           | Raised e w2 => Some (Raised e w2)
           end) g l) as HK.
      destruct (HK) with (w := w2) (r := @Done unit tt w') as (_ & Lt & _).
      - intros d0 w0 r0 Hg0 Hd0 Hb0.
        destruct (propagate_step_keeps fuel d0 w0 r0) as (? & [? Hq] & ?);
          [by rewrite Hg0|by rewrite Hg0|done|].
        split_and!; [congruence| |done]. rewrite Hq. by apply prefix_app_r.
      - by rewrite Sg.
      - intros; apply Hin; by right.
      - exact H.
      - exact Lt. }
    destruct HL as [t' Lt].
    apply elem_of_cons in Hd as [->|Hd].
    + destruct HdY as [->|HdY].
      * exists (x :: t ++ t'). split; [|by left].
        by rewrite Lt, St, <- app_assoc.
      * revert Hstep.
        apply graph_is_Some in Hx1.
        destruct (calculate_keeps_graph x w1 Hc1 Hx1) as (Kg & Kc & _).
        revert Kg Kc. destruct (calculate x w1) as [[] w3|]; simpl; [|done].
        intros Kg Kc Hstep.
        destruct (IH w3 w2) as (t2 & Ht2 & HY2); [by rewrite Kg|done|done|].
        exists ([x] ++ t2 ++ t'). split.
        -- by rewrite Lt, Ht2, Kc, <- !app_assoc.
        -- set_solver.
    + destruct (IHl w2 w') as (t2 & Ht2 & HY2);
        [by rewrite Sg|done|intros; apply Hin; by right|done|].
      exists (x :: t ++ t2). split; [|set_solver].
      by rewrite Ht2, St, <- app_assoc.
Qed.

(** Every transitive dependent is recalculated during the pass. *)
Lemma propagate_visits g fuel : forall name w w' Y,
  consistent g -> graph w = g ->
  propagate fuel name w = Some (Done tt w') ->
  reaches g name Y ->
  exists t, calculated w' = calculated w ++ t /\ Y ∈ t.
Proof.
  induction fuel as [|fuel IH]; intros name w w' Y Hc Hg H HY; [done|].
  simpl in H. destruct (siblings w !! name) as [self|] eqn:Hs; [|done].
  assert (Hd : exists d, d ∈ iter (deps self) /\ (Y = d \/ reaches g d Y)).
  { subst g. inversion HY as [? ? Hdep|? D ? Hdep Hr]; subst.
    - exists Y. split; [|by left]. apply elem_of_iter. by eapply dependent_graph.
    - exists D. split; [|by right]. apply elem_of_iter. by eapply dependent_graph. }
  destruct Hd as (d & Hd & HdY).
  eapply (propagate_loop_visits fuel g Y d); try done.
  - intros w0 w0' Hg0 Hp0 Hr0. by eapply IH.
  - intros x Hx. apply (dependent_is_Some _ name); [done|]. subst g.
    eapply dependent_graph; [done|]. by apply elem_of_iter.
Qed.

Lemma reaches_cycle_step g name :
  reaches_cycle g name ->
  exists d, dependent g name d /\ reaches_cycle g d.
Proof.
  intros (X & [->|HX] & Hcyc).
  - inversion Hcyc as [? ? Hdep|? D ? Hdep Hr]; subst.
    + exists name. split; [done|]. exists name. auto.
    + exists D. split; [done|]. exists D. split; [by left|].
      by eapply reaches_snoc.
  - inversion HX as [? ? Hdep|? D ? Hdep Hr]; subst.
    + exists X. split; [done|]. exists X. auto.
    + exists D. split; [done|]. exists X. auto.
Qed.

Lemma for_each_fuel_None (body : string -> world -> option (result unit)) g d l :
  (forall x w, graph w = g -> x ∈ l ->
     body x w = None \/ exists w', body x w = Some (Done tt w') /\ graph w' = g) ->
  (forall w, graph w = g -> body d w = None) ->
  d ∈ l ->
  forall w, graph w = g -> for_each_fuel l body w = None.
Proof.
  intros Hb Hd. induction l as [|x l IHl]; intros Hin w Hg.
  - by apply elem_of_nil in Hin.
  - simpl. destruct (decide (x = d)) as [->|Hne].
    + by rewrite Hd.
    + destruct (Hb x w Hg) as [->|(w' & -> & Hg')]; [by left|done|].
      apply IHl; [|set_solver|done].
      intros y w0 Hg0 Hy. apply Hb; [done|by right].
Qed.

(** When [eval] raises nothing past the handler, the recursion of
    [propagate] from a cell that reaches a cycle exhausts any fuel. *)
Lemma propagate_diverges g :
  eval_raises_Exception -> consistent g ->
  forall fuel name w, graph w = g -> reaches_cycle g name ->
    propagate fuel name w = None.
Proof.
  intros Hev Hc. induction fuel as [|fuel IH]; intros name w Hg Hcyc; [done|].
  simpl. destruct (reaches_cycle_step _ _ Hcyc) as (d & Hdep & Hd).
  destruct (siblings w !! name) as [self|] eqn:Hs.
  2:{ destruct Hdep as (? & ? & ? & Hn & _). rewrite <- Hg in Hn.
      apply graph_lookup_Some in Hn as (? & ? & _). congruence. }
  assert (Hstep : forall x w1, graph w1 = g -> is_Some (g !! x) ->
            exists w2, calculate x w1 = Done tt w2 /\ graph w2 = g).
  { intros x w1 Hg1 Hx.
    destruct (calculate_keeps_graph x w1) as (Kg & _ & Ke).
    - by rewrite Hg1.
    - apply graph_is_Some. by rewrite Hg1.
    - destruct (calculate x w1) as [[] w2|e w2]; simpl in *.
      + exists w2. split; [done|]. by rewrite Kg.
      + destruct Ke as (He & f & env & Hf). apply Hev in Hf. congruence. }
  apply (for_each_fuel_None _ g d); [| | |done].
  - intros x w1 Hg1 Hx.
    assert (Hxs : is_Some (g !! x)).
    { apply (dependent_is_Some _ name); [done|]. subst g.
      eapply dependent_graph; [done|]. by apply elem_of_iter in Hx. }
    destruct (Hstep x w1 Hg1 Hxs) as (w2 & -> & Hg2).
    destruct (propagate fuel x w2) as [r|] eqn:Hp; [|by left]. right.
    destruct (propagate_keeps_graph fuel x w2 r) as (Pg & _ & Pe); [by rewrite Hg2| |done|].
    { apply graph_is_Some. by rewrite Hg2. }
    destruct r as [[] w3|e w3]; simpl in *.
    + exists w3. split; [done|]. by rewrite Pg.
    + destruct Pe as (He & f & env & Hf). apply Hev in Hf. congruence.
  - intros w1 Hg1.
    destruct (Hstep d w1 Hg1) as (w2 & -> & Hg2).
    { by apply (dependent_is_Some _ name). }
    by apply IH.
  - apply elem_of_iter. subst g. by eapply dependent_graph.
Qed.

End Runs.

Section FragmentFacts.

Lemma binary_raises op a b e :
  PyExpr.binary op a b = Some (Raises e) -> is_Exception e = true.
Proof.
  destruct op, a, b; simpl; try done; try by intros [= <-].
  destruct (n0 =? 0)%Z; [by intros [= <-]|done].
Qed.

Lemma eval_expr_raises env x e :
  PyExpr.eval_expr env x = Some (Raises e) -> is_Exception e = true.
Proof.
  revert e. induction x as [n|s|s|a IH|a IH|op a IHa b IHb]; intros e; simpl.
  - done.
  - destruct (env !! s); [done|]. by intros [= <-].
  - done.
  - destruct (PyExpr.eval_expr env a) as [[[]|]|]; try done. intros [= <-]. by apply IH.
  - destruct (PyExpr.eval_expr env a) as [[[]|]|]; try done. intros [= <-]. by apply IH.
  - destruct (PyExpr.eval_expr env a) as [[va|ea]|]; try done.
    + destruct (PyExpr.eval_expr env b) as [[vb|eb]|]; try done.
      * apply binary_raises.
      * intros [= <-]. by apply IHb.
    + intros [= <-]. by apply IHa.
Qed.

Lemma eval_total_raises : @eval_raises_Exception reference_python.
Proof.
  intros f env e. simpl. unfold PyExpr.eval_total, PyExpr.eval.
  destruct (PyExpr.tokens _ f) as [ts|]; [|by intros [= <-]].
  destruct (PyExpr.parse ts) as [x rest| |]; [|by intros [= <-]|by intros [= <-]].
  destruct (PyExpr.eval_expr env x) as [[v|e']|] eqn:Hx; [done| |by intros [= <-]].
  intros [= <-]. by eapply eval_expr_raises.
Qed.

End FragmentFacts.

(** ** Values after an edit *)

Section Stable.

Context {python : Python}.

Lemma req_values_of_ext m m' (C : gset string) :
  (forall r, r ∈ C -> value <$> m !! r = value <$> m' !! r) ->
  req_values_of m C = req_values_of m' C.
Proof.
  intros H. apply map_eq. intros r. rewrite !lookup_req_values_of.
  case_decide; [by apply H|done].
Qed.

Lemma settled_ext m m' c c' :
  formula c' = formula c -> value c' = value c ->
  (forall f r, formula c = Some f -> r ∈ references f ->
     value <$> m !! r = value <$> m' !! r) ->
  settled m c -> settled m' c'.
Proof.
  intros Hf Hv Hr. unfold settled. rewrite Hf, Hv.
  destruct (formula c) as [f|]; [|done].
  case_decide; [done|].
  by rewrite (req_values_of_ext m m' (references f)) by eauto.
Qed.

(** A settled value is what a further call of [calculate] leaves. *)
Lemma calculate_settled X w w' c :
  siblings w !! X = Some c -> settled (siblings w) c ->
  calculate X w = Done tt w' ->
  forall Y, value <$> siblings w' !! Y = value <$> siblings w !! Y.
Proof.
  intros Hc Hs H Y.
  apply calculate_Done_inv in H as (self & Hself & _ & H).
  rewrite Hc in Hself. injection Hself as <-. cbv zeta in H.
  unfold settled in Hs.
  destruct H as [(Hf & -> & _)|(f & Hf & Hne & _ & -> & _ & _)].
  - destruct (decide (Y = X)) as [->|HY]; [|by rewrite lookup_alter_ne].
    rewrite lookup_alter_eq, Hc. simpl. f_equal.
    destruct Hf as [Hf|Hf]; rewrite Hf in Hs; [done|].
    by rewrite decide_True in Hs.
  - rewrite Hf, decide_False in Hs by done.
    destruct (decide (Y = X)) as [->|HY].
    + rewrite lookup_alter_eq, lookup_relinked, Hc. simpl. f_equal.
      rewrite value_relink. by destruct (py_eval _ _).
    + rewrite lookup_alter_ne, lookup_relinked by done.
      destruct (siblings w !! Y); simpl; [|done]. by rewrite value_relink.
Qed.

Lemma no_self_reference w x self f :
  consistent (graph w) -> acyclic (graph w) ->
  siblings w !! x = Some self -> formula self = Some f -> f <> "" ->
  x ∉ references f.
Proof.
  intros Hc Ha Hs Hf Hne Hx.
  assert (Hg : graph w !! x = Some (Some f, deps self, reqs self)).
  { apply graph_lookup_Some. by exists self. }
  rewrite <- (reqs_current _ Hc x f _ _ Hg Hne) in Hx.
  destruct (reqs_mirrored _ Hc x _ _ _ x Hg Hx) as (f' & d' & r' & Hg' & Hd).
  apply (Ha x). apply reaches_one. by exists f', d', r'.
Qed.

(** [calculate] on a cell of a consistent dictionary without cycles changes
    that cell only and leaves its value settled. *)
Lemma calculate_settles x w w1 :
  consistent (graph w) -> acyclic (graph w) ->
  calculate x w = Done tt w1 ->
  graph w1 = graph w /\
  (forall e, e <> x -> siblings w1 !! e = siblings w !! e) /\
  (forall c1, siblings w1 !! x = Some c1 -> settled (siblings w1) c1).
Proof.
  intros Hc Ha H.
  pose proof H as H'. apply calculate_Done_inv in H' as (self & Hs & _ & H').
  destruct (calculate_keeps_graph x w Hc) as (Kg & _); [by rewrite Hs|].
  rewrite H in Kg. simpl in Kg. split; [done|]. cbv zeta in H'.
  destruct H' as [(Hf & Hm & _)|(f & Hf & Hne & _ & Hm & _ & _)].
  - split.
    + intros e He. by rewrite Hm, lookup_alter_ne.
    + intros c1 Hc1. rewrite Hm, lookup_alter_eq, Hs in Hc1. injection Hc1 as <-.
      unfold settled; simpl. destruct Hf as [->| ->]; [done|].
      by rewrite decide_True.
  - assert (HR : reqs self = references f).
    { eapply (reqs_current _ Hc x f (deps self)); [|done].
      apply graph_lookup_Some. by exists self. }
    rewrite HR, relinked_same in Hm. split.
    + intros e He. by rewrite Hm, lookup_alter_ne.
    + intros c1 Hc1. rewrite Hm, lookup_alter_eq, Hs in Hc1. injection Hc1 as <-.
      unfold settled; simpl. rewrite Hf, decide_False by done.
      rewrite (req_values_of_ext _ (siblings w) (references f)).
      * by destruct (py_eval _ _).
      * intros r Hr. rewrite Hm, lookup_alter_ne; [done|].
        intros <-. by eapply no_self_reference.
Qed.

Lemma requires_dependent g e f d r x :
  consistent g -> g !! e = Some (Some f, d, r) -> f <> "" ->
  x ∈ references f -> dependent g x e.
Proof.
  intros Hc Hg Hne Hx. rewrite <- (reqs_current _ Hc e f d r Hg Hne) in Hx.
  destruct (reqs_mirrored _ Hc e _ _ _ x Hg Hx) as (f' & d' & r' & Hg' & Hd).
  by exists f', d', r'.
Qed.

(** What was settled before a run stays settled: a cell whose requirements
    the run changed lies in the footprint. *)
Lemma settles_kept g (P : string -> Prop) w w' :
  consistent g -> graph w = g ->
  (forall x e, P x -> dependent g x e -> P e) ->
  settles g P w w' ->
  forall e c c', siblings w !! e = Some c -> settled (siblings w) c ->
    siblings w' !! e = Some c' -> settled (siblings w') c'.
Proof.
  intros Hc Hg Hcl (Hg' & Ha & Hb) e c c' He Hs He'.
  destruct (decide (siblings w' !! e = siblings w !! e)) as [Heq|Hne];
    [|by eapply Ha; [apply Hb|]].
  rewrite He, He' in Heq. injection Heq as ->.
  destruct (formula c) as [f|] eqn:Hf.
  2:{ eapply settled_ext; [done|done| |exact Hs]. intros ? ? Hf'. congruence. }
  destruct (decide (f = "")) as [->|Hfne].
  { revert Hs. unfold settled. rewrite Hf. by rewrite !decide_True. }
  destruct (decide (set_Forall (fun r => siblings w' !! r = siblings w !! r)
                      (references f))) as [Hall|Hsome].
  - eapply settled_ext; [done|done| |exact Hs].
    intros f0 r Hf0 Hr. rewrite Hf in Hf0. injection Hf0 as <-.
    by rewrite (Hall r Hr).
  - apply not_set_Forall_Exists in Hsome as (r & Hr & Hch); [|apply _].
    eapply Ha; [|done]. apply (Hcl r); [by apply Hb|].
    eapply (requires_dependent g e f (deps c) (reqs c)); try done.
    rewrite <- Hg. apply graph_lookup_Some. by exists c.
Qed.

Lemma lookup_same_graph w w' e :
  graph w' = graph w -> is_Some (siblings w' !! e) -> is_Some (siblings w !! e).
Proof. intros Hg H. apply graph_is_Some. rewrite <- Hg. by apply graph_is_Some. Qed.

(** One step of the loop of [propagate]: [calculate] on [x], then a run that
    settles the dependents of [x]. *)
Lemma step_settles g x w w1 w2 :
  consistent g -> acyclic g -> graph w = g ->
  calculate x w = Done tt w1 ->
  settles g (reaches g x) w1 w2 ->
  settles g (fun e => e = x \/ reaches g x e) w w2.
Proof.
  intros Hc Ha Hg Hcal Hrun.
  destruct (calculate_settles x w w1) as (Kg & Ko & Kx); [by rewrite Hg..|done|].
  pose proof Hrun as (Rg & Ra & Rb).
  assert (Hkept := settles_kept g (reaches g x) w1 w2 Hc ltac:(by rewrite Kg)
                     (fun a b Ha' Hd => reaches_snoc g x a b Ha' Hd) Hrun).
  split_and!; [done| |].
  - intros e c' [->|Hr] He'; [|by eapply Ra].
    destruct (lookup_same_graph w1 w2 x) as [c1 Hc1]; [congruence|by rewrite He'|].
    eapply Hkept; [exact Hc1|by apply Kx|done].
  - intros e Hch.
    destruct (decide (siblings w2 !! e = siblings w1 !! e)) as [Heq|Hne];
      [|right; by apply Rb].
    left. destruct (decide (e = x)) as [->|Hex]; [done|].
    exfalso. apply Hch. rewrite Heq. by apply Ko.
Qed.

Lemma settles_iff g (P Q : string -> Prop) w w' :
  (forall e, P e <-> Q e) -> settles g P w w' -> settles g Q w w'.
Proof.
  intros HPQ (Hg & Ha & Hb). split_and!; [done| |].
  - intros e c' He. apply Ha. by apply HPQ.
  - intros e He. apply HPQ. by apply Hb.
Qed.

(** Two runs in a row. *)
Lemma settles_then g (P Q : string -> Prop) w0 w w' :
  consistent g -> graph w = g ->
  (forall x e, Q x -> dependent g x e -> Q e) ->
  settles g P w0 w -> settles g Q w w' ->
  settles g (fun e => P e \/ Q e) w0 w'.
Proof.
  intros Hc Hg Hcl HP HQ.
  pose proof (settles_kept g Q w w' Hc Hg Hcl HQ) as Hkept.
  destruct HP as (_ & Pa & Pb). destruct HQ as (Qg & Qa & Qb).
  split_and!; [done| |].
  - intros e c' [He|He] He'; [|by eapply Qa].
    destruct (lookup_same_graph w w' e) as [c Hc']; [congruence|by rewrite He'|].
    eapply Hkept; [exact Hc'| |done]. by eapply Pa.
  - intros e Hch.
    destruct (decide (siblings w' !! e = siblings w !! e)) as [Heq|Hne];
      [|right; by apply Qb].
    left. apply Pb. by rewrite <- Heq.
Qed.

Lemma loop_settles fuel g :
  consistent g -> acyclic g ->
  (forall d w w', graph w = g -> propagate fuel d w = Some (Done tt w') ->
     settles g (reaches g d) w w') ->
  forall l seen w0 w w', graph w = g ->
    settles g (fun e => exists x, x ∈ seen /\ (e = x \/ reaches g x e)) w0 w ->
    for_each_fuel l
      (fun d w1 =>
         match calculate d w1 with
         | Done _ w2 => propagate fuel d w2
         | Raised e w2 => Some (Raised e w2)
         end) w = Some (Done tt w') ->
    settles g (fun e => exists x, x ∈ seen ++ l /\ (e = x \/ reaches g x e)) w0 w'.
Proof.
  intros Hc Ha IH. induction l as [|x l IHl]; intros seen w0 w w' Hg Hseen H.
  - simpl in H. injection H as <-. by rewrite app_nil_r.
  - simpl in H.
    destruct (calculate x w) as [[] w1|] eqn:Hcal; [|done].
    destruct (propagate fuel x w1) as [[[] w2|]|] eqn:Hp; try done.
    destruct (calculate_settles x w w1) as (Kg & _); [by rewrite Hg..|done|].
    assert (Hstep : settles g (fun e => e = x \/ reaches g x e) w w2).
    { eapply step_settles; try done. apply IH; [congruence|done]. }
    assert (Hg2 : graph w2 = g) by apply Hstep.
    replace (seen ++ x :: l) with ((seen ++ [x]) ++ l) by by rewrite <- app_assoc.
    apply (IHl (seen ++ [x]) w0 w2 w' Hg2); [|done].
    eapply settles_iff; [|eapply (settles_then g _ _ w0 w w2 Hc Hg _ Hseen Hstep)].
    intros e. split.
    + intros [(x' & Hx' & He)|He].
      * exists x'. split; [|done]. apply elem_of_app. by left.
      * exists x. split; [|done]. apply elem_of_app. right. by left.
    + intros (x' & Hx' & He). apply elem_of_app in Hx' as [Hx'|Hx'].
      * left. by exists x'.
      * right. apply elem_of_cons in Hx' as [->|Hx']; [done|].
        by apply elem_of_nil in Hx'.
Unshelve.
  intros a b [->|Hr] Hd; right; [by apply reaches_one|by eapply reaches_snoc].
Qed.

(** A pass of [propagate] that returns changes dependents of [d] only and
    leaves every one of them settled. *)
Lemma propagate_settles g : consistent g -> acyclic g ->
  forall fuel d w w', graph w = g ->
    propagate fuel d w = Some (Done tt w') ->
    settles g (reaches g d) w w'.
Proof.
  intros Hc Ha.
  induction fuel as [|fuel IH]; intros d w w' Hg H; [done|].
  simpl in H. destruct (siblings w !! d) as [self|] eqn:Hs; [|done].
  eapply settles_iff;
    [|eapply (loop_settles fuel g Hc Ha IH (iter (deps self)) [] w w w' Hg _ H)].
  intros e. simpl. split.
  - intros (x & Hx & He). apply elem_of_iter in Hx.
    assert (dependent g d x) by (subst g; by eapply dependent_graph).
    destruct He as [->|He]; [by apply reaches_one|by eapply reaches_more].
  - intros Hr.
    inversion Hr as [? ? Hdep|? D ? Hdep Hr']; subst.
    + exists e. split; [|by left]. apply elem_of_iter. by eapply dependent_graph.
    + exists D. split; [|by right]. apply elem_of_iter. by eapply dependent_graph.
Unshelve.
  split_and!; [done| |done].
  intros e c' (x & Hx & _). by apply elem_of_nil in Hx.
Qed.

Lemma for_each_fuel_Done_elem (Q : world -> Prop)
    (body : string -> world -> option (result unit)) l d :
  (forall x w w', Q w -> body x w = Some (Done tt w') -> Q w') ->
  forall w w', Q w -> for_each_fuel l body w = Some (Done tt w') -> d ∈ l ->
    exists w1 w2, Q w1 /\ body d w1 = Some (Done tt w2).
Proof.
  intros HQ. induction l as [|x l IH]; intros w w' Hw H Hd.
  - by apply elem_of_nil in Hd.
  - simpl in H. destruct (body x w) as [[[] w1|]|] eqn:Hx; try done.
    apply elem_of_cons in Hd as [->|Hd]; [by exists w, w1|].
    eapply IH; [|exact H|done]. by eapply HQ.
Qed.

(** A pass that returns has met no cycle. *)
Lemma propagate_Done_no_cycle g : consistent g ->
  forall fuel name w w', graph w = g ->
    propagate fuel name w = Some (Done tt w') -> ~ reaches_cycle g name.
Proof.
  intros Hc. induction fuel as [|fuel IH]; intros name w w' Hg H Hcyc; [done|].
  simpl in H. destruct (siblings w !! name) as [self|] eqn:Hs; [|done].
  destruct (reaches_cycle_step _ _ Hcyc) as (d & Hdep & Hd).
  assert (Hin : d ∈ iter (deps self)).
  { apply elem_of_iter. subst g. by eapply dependent_graph. }
  assert (HQ : forall x wa wb, graph wa = g ->
            match calculate x wa with
            | Done _ w2 => propagate fuel x w2
            | Raised e w2 => Some (Raised e w2)
            end = Some (Done tt wb) -> graph wb = g).
  { intros x wa wb Hga Hb.
    assert (Hx : is_Some (graph wa !! x)).
    { destruct (calculate x wa) as [[] wc|] eqn:Hcal; [|done].
      apply calculate_Done_inv in Hcal as (c & Hc' & _).
      apply graph_is_Some. by rewrite Hc'. }
    destruct (propagate_step_keeps fuel x wa _ ltac:(by rewrite Hga) Hx Hb)
      as (Sg & _).
    simpl in Sg. congruence. }
  destruct (for_each_fuel_Done_elem (fun w => graph w = g) _
              (iter (deps self)) d HQ w w' Hg H Hin) as (w1 & w2 & Hg1 & Hb).
  cbv beta in Hb.
  destruct (calculate d w1) as [[] w3|] eqn:Hcal; [|done].
  destruct (calculate_keeps_graph d w1) as (Kg & _); [by rewrite Hg1| |].
  - apply calculate_Done_inv in Hcal as (c & Hc' & _). by rewrite Hc'.
  - rewrite Hcal in Kg. simpl in Kg.
    eapply (IH d w3 w2); [congruence|done|done].
Qed.

Lemma dependent_rewired name text C R g X Y :
  dependent (rewired name text C R g) X Y -> dependent g X Y \/ Y = name.
Proof.
  intros (f' & d' & r' & Hg & HY).
  apply lookup_rewired_Some in Hg as (f & d & r & Hg & _ & -> & _).
  apply elem_of_relink_deps in HY as [[-> _]|[HY _]]; [by right|].
  left. by exists f, d, r.
Qed.

Lemma reaches_trans g X Y Z : reaches g X Y -> reaches g Y Z -> reaches g X Z.
Proof.
  induction 1 as [X Y H|X D Y H _ IH]; intros HZ.
  - by eapply reaches_more.
  - eapply reaches_more; [done|]. by apply IH.
Qed.

Lemma reaches_rewired name text C R g X Y :
  reaches (rewired name text C R g) X Y ->
  reaches g X Y \/
  ((Y = name \/ reaches (rewired name text C R g) name Y) /\
   reaches (rewired name text C R g) X name).
Proof.
  induction 1 as [X Y H|X D Y H Hr IH].
  - destruct (dependent_rewired _ _ _ _ _ _ _ H) as [Hd| ->].
    + left. by apply reaches_one.
    + right. split; [by left|]. by apply reaches_one.
  - destruct (dependent_rewired _ _ _ _ _ _ _ H) as [Hd| ->].
    + destruct IH as [IH|[HY HD]].
      * left. by eapply reaches_more.
      * right. split; [done|]. by eapply reaches_more.
    + right. split; [by right|]. by apply reaches_one.
Qed.

(** An edit that returns leaves no cycle behind. *)
Lemma edit_acyclic fuel name text w w' :
  consistent (graph w) -> acyclic (graph w) ->
  edit fuel name text w = Some (Done tt w') ->
  acyclic (graph w').
Proof.
  intros Hc Ha H. unfold edit, display in H.
  destruct (calculate name (setData name text w)) as [[] w1|] eqn:Hcal; [|done].
  pose proof (edit_calculate_consistent _ _ _ _ Hc Hcal) as Hc1.
  assert (Hs1 : is_Some (siblings w1 !! name)).
  { apply graph_is_Some.
    destruct (edit_calculate_graph _ _ _ _ Hcal) as (self & Hs & Hg & _).
    rewrite Hg, lookup_rewired, graph_lookup, Hs. done. }
  destruct (propagate_keeps_graph fuel name w1 _ Hc1 Hs1 H) as (Hg & _).
  simpl in Hg. rewrite Hg.
  pose proof (propagate_Done_no_cycle _ Hc1 fuel name w1 w' eq_refl H) as Hno.
  destruct (edit_calculate_graph _ _ _ _ Hcal) as (self & Hs & Hg1 & _).
  intros X HX. rewrite Hg1 in HX.
  apply reaches_rewired in HX as [HX|[[->|HY] HXn]].
  - by apply (Ha X).
  - apply Hno. exists name. split; [by left|]. by rewrite Hg1.
  - apply Hno. exists name. split; [by left|]. rewrite Hg1.
    by eapply reaches_trans.
Qed.

(** [calculate] on [x] leaves the formula and the value of every other cell. *)
Lemma calculate_others x w w1 e :
  calculate x w = Done tt w1 -> e <> x ->
  formula <$> siblings w1 !! e = formula <$> siblings w !! e /\
  value <$> siblings w1 !! e = value <$> siblings w !! e.
Proof.
  intros H He. apply calculate_Done_inv in H as (self & Hs & _ & H).
  cbv zeta in H.
  destruct H as [(_ & -> & _)|(f & _ & _ & _ & -> & _)];
    rewrite lookup_alter_ne by done; [done|].
  rewrite lookup_relinked. destruct (siblings w !! e); simpl; [|done].
  by rewrite formula_relink, value_relink.
Qed.

(** [calculate] leaves the value of its cell settled, unless the formula
    refers to the cell itself. *)
Lemma calculate_settles_self x w w1 self :
  calculate x w = Done tt w1 -> siblings w !! x = Some self ->
  (forall f, formula self = Some f -> f <> "" -> x ∉ references f) ->
  exists c1, siblings w1 !! x = Some c1 /\ formula c1 = formula self /\
    settled (siblings w1) c1.
Proof.
  intros H Hs Hno.
  pose proof H as H'. apply calculate_Done_inv in H' as (self' & Hs' & _ & H').
  rewrite Hs in Hs'. injection Hs' as <-. cbv zeta in H'.
  destruct H' as [(Hf & Hm & _)|(f & Hf & Hne & _ & Hm & _ & _)].
  - eexists. split; [by rewrite Hm, lookup_alter_eq, Hs|]. split; [done|].
    unfold settled; simpl. destruct Hf as [->| ->]; [done|].
    by rewrite decide_True.
  - eexists. split; [by rewrite Hm, lookup_alter_eq, lookup_relinked, Hs|].
    split; [by simpl; rewrite formula_relink|].
    unfold settled; simpl. rewrite formula_relink, Hf, decide_False by done.
    rewrite (req_values_of_ext _ (siblings w) (references f)).
    + by destruct (py_eval _ _).
    + intros r Hr. apply (calculate_others x w w1 r H).
      intros ->. by eapply Hno.
Qed.

(** An edit that returns leaves every value settled. *)
Lemma edit_stable fuel name text w w' :
  consistent (graph w) -> acyclic (graph w) -> stable w ->
  edit fuel name text w = Some (Done tt w') ->
  stable w'.
Proof.
  intros Hc Ha Hst H.
  pose proof (edit_acyclic _ _ _ _ _ Hc Ha H) as Ha'.
  unfold edit, display in H.
  destruct (calculate name (setData name text w)) as [[] w1|] eqn:Hcal; [|done].
  pose proof (edit_calculate_consistent _ _ _ _ Hc Hcal) as Hc1.
  destruct (edit_calculate_graph _ _ _ _ Hcal) as (self & Hs & Hg1 & _).
  assert (Hs1 : is_Some (siblings w1 !! name)).
  { apply graph_is_Some. rewrite Hg1, lookup_rewired, graph_lookup, Hs. done. }
  destruct (propagate_keeps_graph fuel name w1 _ Hc1 Hs1 H) as (Hg & _).
  simpl in Hg. rewrite Hg in Ha'.
  pose proof (propagate_settles _ Hc1 Ha' fuel name w1 w' eq_refl H) as Hrun.
  pose proof (settles_kept _ (reaches (graph w1) name) w1 w' Hc1 eq_refl
                (fun a b Ha0 Hd => reaches_snoc _ name a b Ha0 Hd) Hrun) as Hkept.
  assert (Hf1 : forall c1, siblings w1 !! name = Some c1 -> formula c1 = Some text).
  { intros c1 Hc1'.
    assert (Hl : graph w1 !! name = Some (links c1)) by by rewrite graph_lookup, Hc1'.
    rewrite Hg1, lookup_rewired, graph_lookup, Hs in Hl. simpl in Hl.
    injection Hl as Hl _ _. by rewrite decide_True in Hl. }
  intros X c' HX.
  destruct (lookup_same_graph w1 w' X) as [c1 HX1]; [done|by rewrite HX|].
  destruct (decide (X = name)) as [->|HXn].
  { (* the edited cell *)
    destruct (calculate_settles_self name _ w1 (set_formula (Some text) self) Hcal)
      as (c1' & Hc1' & _ & Hset).
    - by rewrite lookup_setData, Hs, decide_True.
    - intros f Hf Hne. simpl in Hf. injection Hf as <-.
      eapply (no_self_reference w1); [done|done|exact HX1|by apply Hf1|done].
    - rewrite HX1 in Hc1'. injection Hc1' as <-. by eapply Hkept. }
  (* another cell: its formula and value are those before the edit *)
  destruct (calculate_others name _ w1 X Hcal HXn) as (Kf & Kv).
  rewrite lookup_setData, decide_False, HX1 in Kf, Kv by done.
  destruct (siblings w !! X) as [c|] eqn:HXw; [|done].
  simpl in Kf, Kv. injection Kf as Kf. injection Kv as Kv.
  destruct (formula c) as [f|] eqn:Hf.
  2:{ eapply Hkept; [exact HX1| |done].
      eapply (settled_ext (siblings w) _ c); [by rewrite Hf|done| |by eapply Hst].
      intros ? ? Hf'. congruence. }
  destruct (decide (f = "")) as [->|Hfne].
  { eapply Hkept; [exact HX1| |done].
    pose proof (Hst X c HXw) as Hset. revert Hset. unfold settled.
    rewrite Kf, Hf, Kv. by rewrite !decide_True. }
  destruct (decide (name ∈ references f)) as [Hin|Hnin].
  - (* a dependent of the edited cell *)
    destruct Hrun as (_ & Hsettled & _). eapply Hsettled; [|done].
    apply reaches_one.
    destruct (requires_dependent (graph w) X f (deps c) (reqs c) name Hc)
      as (f0 & d0 & r0 & Hg0 & Hd0); [|done|done|].
    { apply graph_lookup_Some. by exists c. }
    rewrite Hg1. eexists _, _, _.
    split; [by rewrite lookup_rewired, Hg0|].
    simpl. apply elem_of_relink_deps. right. split; [done|]. by intros [? _].
  - eapply Hkept; [exact HX1| |done].
    eapply (settled_ext (siblings w) _ c); [by rewrite Hf|done| |by eapply Hst].
    intros f0 r Hf0 Hr. rewrite Hf in Hf0. injection Hf0 as <-.
    destruct (calculate_others name _ w1 r Hcal) as (_ & Kr); [by intros ->|].
    rewrite Kr, lookup_setData, decide_False by (by intros ->).
    by destruct (siblings w !! r).
Qed.

Lemma SpreadSheet_acyclic rows cols : acyclic (graph (SpreadSheet rows cols)).
Proof.
  intros X HX.
  assert (Hd : forall A B, ~ dependent (graph (SpreadSheet rows cols)) A B).
  { intros A B (f & d & r & Hg & HB).
    apply graph_lookup_Some in Hg as (c & Hc & _ & <- & _).
    apply SpreadSheet_lookup in Hc as ->. simpl in HB. set_solver. }
  inversion HX as [? ? H|? ? ? H _]; by apply Hd in H.
Qed.

Lemma SpreadSheet_stable rows cols : stable (SpreadSheet rows cols).
Proof. intros X c Hc. by apply SpreadSheet_lookup in Hc as ->. Qed.

(** Every sheet that a run of returning edits leaves has no cycle and holds
    settled values only. *)
Lemma edits_to_stable w es w' :
  edits_to w es w' ->
  consistent (graph w) -> acyclic (graph w) -> stable w ->
  consistent (graph w') /\ acyclic (graph w') /\ stable w'.
Proof.
  induction 1 as [w|w name text fuel w1 es w2 He _ IH]; intros Hc Ha Hst; [done|].
  apply IH.
  - by eapply edit_consistent.
  - by eapply edit_acyclic.
  - by eapply edit_stable.
Qed.


End Stable.

(** ** Invariants of a cell that an edit keeps *)
Section Kept.

Context {python : Python}.

Variable S : gmap string SpreadSheetItem -> SpreadSheetItem -> Prop.

(** [S] reads the formula, the value and the flag of a cell and the values
    of the cells its formula names. *)
Hypothesis S_ext : forall m m' c c',
  formula c' = formula c -> value c' = value c -> error_shown c' = error_shown c ->
  (forall f r, formula c = Some f -> f <> "" -> r ∈ references f ->
     value <$> m !! r = value <$> m' !! r) ->
  S m c -> S m' c'.

(** [calculate] leaves [S] at its cell, unless the formula names the cell. *)
Hypothesis S_calculate : forall x w w1 self,
  calculate x w = Done tt w1 -> siblings w !! x = Some self ->
  (forall f, formula self = Some f -> f <> "" -> x ∉ references f) ->
  forall c1, siblings w1 !! x = Some c1 -> S (siblings w1) c1.

Hypothesis S_new : forall m, S m new_item.

Lemma calculate_frame x w w1 e :
  calculate x w = Done tt w1 -> e <> x ->
  formula <$> siblings w1 !! e = formula <$> siblings w !! e /\
  value <$> siblings w1 !! e = value <$> siblings w !! e /\
  error_shown <$> siblings w1 !! e = error_shown <$> siblings w !! e.
Proof.
  intros H He. apply calculate_Done_inv in H as (self & Hs & _ & H).
  cbv zeta in H.
  destruct H as [(_ & -> & _)|(f & _ & _ & _ & -> & _)];
    rewrite lookup_alter_ne by done; [done|].
  rewrite lookup_relinked. destruct (siblings w !! e); simpl; [|done].
  by rewrite formula_relink, value_relink, error_shown_relink.
Qed.

Lemma established_kept g (P : string -> Prop) w w' :
  consistent g -> graph w = g ->
  (forall x e, P x -> dependent g x e -> P e) ->
  establishes S g P w w' ->
  forall e c c', siblings w !! e = Some c -> S (siblings w) c ->
    siblings w' !! e = Some c' -> S (siblings w') c'.
Proof.
  intros Hc Hg Hcl (Hg' & Ha & Hb) e c c' He Hs He'.
  destruct (decide (siblings w' !! e = siblings w !! e)) as [Heq|Hne];
    [|by eapply Ha; [apply Hb|]].
  rewrite He, He' in Heq. injection Heq as ->.
  destruct (formula c) as [f|] eqn:Hf.
  2:{ eapply S_ext; [done|done|done| |exact Hs]. intros ? ? Hf'. congruence. }
  destruct (decide (f = "")) as [->|Hfne].
  { eapply S_ext; [done|done|done| |exact Hs]. intros ? ? Hf' Hne'. congruence. }
  destruct (decide (set_Forall (fun r => siblings w' !! r = siblings w !! r)
                      (references f))) as [Hall|Hsome].
  - eapply S_ext; [done|done|done| |exact Hs].
    intros f0 r Hf0 _ Hr. rewrite Hf in Hf0. injection Hf0 as <-.
    by rewrite (Hall r Hr).
  - apply not_set_Forall_Exists in Hsome as (r & Hr & Hch); [|apply _].
    eapply Ha; [|done]. apply (Hcl r); [by apply Hb|].
    eapply (requires_dependent g e f (deps c) (reqs c)); try done.
    rewrite <- Hg. apply graph_lookup_Some. by exists c.
Qed.

Lemma calculate_establishes x w w1 :
  consistent (graph w) -> acyclic (graph w) ->
  calculate x w = Done tt w1 ->
  graph w1 = graph w /\
  (forall e, e <> x -> siblings w1 !! e = siblings w !! e) /\
  (forall c1, siblings w1 !! x = Some c1 -> S (siblings w1) c1).
Proof.
  intros Hc Ha H.
  destruct (calculate_settles x w w1 Hc Ha H) as (Kg & Ko & _).
  split; [done|]. split; [done|].
  pose proof H as H'. apply calculate_Done_inv in H' as (self & Hs & _).
  apply (S_calculate x w w1 self H Hs).
  intros f Hf Hne. by eapply no_self_reference.
Qed.

Lemma step_establishes g x w w1 w2 :
  consistent g -> acyclic g -> graph w = g ->
  calculate x w = Done tt w1 ->
  establishes S g (reaches g x) w1 w2 ->
  establishes S g (fun e => e = x \/ reaches g x e) w w2.
Proof.
  intros Hc Ha Hg Hcal Hrun.
  destruct (calculate_establishes x w w1) as (Kg & Ko & Kx); [by rewrite Hg..|done|].
  pose proof Hrun as (Rg & Ra & Rb).
  assert (Hkept := established_kept g (reaches g x) w1 w2 Hc ltac:(by rewrite Kg)
                     (fun a b Ha' Hd => reaches_snoc g x a b Ha' Hd) Hrun).
  split_and!; [done| |].
  - intros e c' [->|Hr] He'; [|by eapply Ra].
    destruct (lookup_same_graph w1 w2 x) as [c1 Hc1]; [congruence|by rewrite He'|].
    eapply Hkept; [exact Hc1|by apply Kx|done].
  - intros e Hch.
    destruct (decide (siblings w2 !! e = siblings w1 !! e)) as [Heq|Hne];
      [|right; by apply Rb].
    left. destruct (decide (e = x)) as [->|Hex]; [done|].
    exfalso. apply Hch. rewrite Heq. by apply Ko.
Qed.

Lemma establishes_iff g (P Q : string -> Prop) w w' :
  (forall e, P e <-> Q e) -> establishes S g P w w' -> establishes S g Q w w'.
Proof.
  intros HPQ (Hg & Ha & Hb). split_and!; [done| |].
  - intros e c' He. apply Ha. by apply HPQ.
  - intros e He. apply HPQ. by apply Hb.
Qed.

Lemma establishes_then g (P Q : string -> Prop) w0 w w' :
  consistent g -> graph w = g ->
  (forall x e, Q x -> dependent g x e -> Q e) ->
  establishes S g P w0 w -> establishes S g Q w w' ->
  establishes S g (fun e => P e \/ Q e) w0 w'.
Proof.
  intros Hc Hg Hcl HP HQ.
  pose proof (established_kept g Q w w' Hc Hg Hcl HQ) as Hkept.
  destruct HP as (_ & Pa & Pb). destruct HQ as (Qg & Qa & Qb).
  split_and!; [done| |].
  - intros e c' [He|He] He'; [|by eapply Qa].
    destruct (lookup_same_graph w w' e) as [c Hc']; [congruence|by rewrite He'|].
    eapply Hkept; [exact Hc'| |done]. by eapply Pa.
  - intros e Hch.
    destruct (decide (siblings w' !! e = siblings w !! e)) as [Heq|Hne];
      [|right; by apply Qb].
    left. apply Pb. by rewrite <- Heq.
Qed.

Lemma loop_establishes fuel g :
  consistent g -> acyclic g ->
  (forall d w w', graph w = g -> propagate fuel d w = Some (Done tt w') ->
     establishes S g (reaches g d) w w') ->
  forall l seen w0 w w', graph w = g ->
    establishes S g (fun e => exists x, x ∈ seen /\ (e = x \/ reaches g x e)) w0 w ->
    for_each_fuel l
      (fun d w1 =>
         match calculate d w1 with
         | Done _ w2 => propagate fuel d w2
         | Raised e w2 => Some (Raised e w2)
         end) w = Some (Done tt w') ->
    establishes S g (fun e => exists x, x ∈ seen ++ l /\ (e = x \/ reaches g x e)) w0 w'.
Proof.
  intros Hc Ha IH. induction l as [|x l IHl]; intros seen w0 w w' Hg Hseen H.
  - simpl in H. injection H as <-. by rewrite app_nil_r.
  - simpl in H.
    destruct (calculate x w) as [[] w1|] eqn:Hcal; [|done].
    destruct (propagate fuel x w1) as [[[] w2|]|] eqn:Hp; try done.
    destruct (calculate_establishes x w w1) as (Kg & _); [by rewrite Hg..|done|].
    assert (Hstep : establishes S g (fun e => e = x \/ reaches g x e) w w2).
    { eapply step_establishes; try done. apply IH; [congruence|done]. }
    assert (Hg2 : graph w2 = g) by apply Hstep.
    replace (seen ++ x :: l) with ((seen ++ [x]) ++ l) by by rewrite <- app_assoc.
    apply (IHl (seen ++ [x]) w0 w2 w' Hg2); [|done].
    eapply establishes_iff; [|eapply (establishes_then g _ _ w0 w w2 Hc Hg _ Hseen Hstep)].
    intros e. split.
    + intros [(x' & Hx' & He)|He].
      * exists x'. split; [|done]. apply elem_of_app. by left.
      * exists x. split; [|done]. apply elem_of_app. right. by left.
    + intros (x' & Hx' & He). apply elem_of_app in Hx' as [Hx'|Hx'].
      * left. by exists x'.
      * right. apply elem_of_cons in Hx' as [->|Hx']; [done|].
        by apply elem_of_nil in Hx'.
Unshelve.
  intros a b [->|Hr] Hd; right; [by apply reaches_one|by eapply reaches_snoc].
Qed.

Lemma propagate_establishes g : consistent g -> acyclic g ->
  forall fuel d w w', graph w = g ->
    propagate fuel d w = Some (Done tt w') ->
    establishes S g (reaches g d) w w'.
Proof.
  intros Hc Ha.
  induction fuel as [|fuel IH]; intros d w w' Hg H; [done|].
  simpl in H. destruct (siblings w !! d) as [self|] eqn:Hs; [|done].
  eapply establishes_iff;
    [|eapply (loop_establishes fuel g Hc Ha IH (iter (deps self)) [] w w w' Hg _ H)].
  intros e. simpl. split.
  - intros (x & Hx & He). apply elem_of_iter in Hx.
    assert (dependent g d x) by (subst g; by eapply dependent_graph).
    destruct He as [->|He]; [by apply reaches_one|by eapply reaches_more].
  - intros Hr.
    inversion Hr as [? ? Hdep|? D ? Hdep Hr']; subst.
    + exists e. split; [|by left]. apply elem_of_iter. by eapply dependent_graph.
    + exists D. split; [|by right]. apply elem_of_iter. by eapply dependent_graph.
Unshelve.
  split_and!; [done| |done].
  intros e c' (x & Hx & _). by apply elem_of_nil in Hx.
Qed.

(** An edit that returns leaves [S] at every cell. *)
Lemma edit_keeps fuel name text w w' :
  consistent (graph w) -> acyclic (graph w) ->
  (forall X c, siblings w !! X = Some c -> S (siblings w) c) ->
  edit fuel name text w = Some (Done tt w') ->
  forall X c, siblings w' !! X = Some c -> S (siblings w') c.
Proof.
  intros Hc Ha Hst H.
  pose proof (edit_acyclic _ _ _ _ _ Hc Ha H) as Ha'.
  unfold edit, display in H.
  destruct (calculate name (setData name text w)) as [[] w1|] eqn:Hcal; [|done].
  pose proof (edit_calculate_consistent _ _ _ _ Hc Hcal) as Hc1.
  destruct (edit_calculate_graph _ _ _ _ Hcal) as (self & Hs & Hg1 & _).
  assert (Hs1 : is_Some (siblings w1 !! name)).
  { apply graph_is_Some. rewrite Hg1, lookup_rewired, graph_lookup, Hs. done. }
  destruct (propagate_keeps_graph fuel name w1 _ Hc1 Hs1 H) as (Hg & _).
  simpl in Hg. rewrite Hg in Ha'.
  pose proof (propagate_establishes _ Hc1 Ha' fuel name w1 w' eq_refl H) as Hrun.
  pose proof (established_kept _ (reaches (graph w1) name) w1 w' Hc1 eq_refl
                (fun a b Ha0 Hd => reaches_snoc _ name a b Ha0 Hd) Hrun) as Hkept.
  assert (Hf1 : forall c1, siblings w1 !! name = Some c1 -> formula c1 = Some text).
  { intros c1 Hc1'.
    assert (Hl : graph w1 !! name = Some (links c1)) by by rewrite graph_lookup, Hc1'.
    rewrite Hg1, lookup_rewired, graph_lookup, Hs in Hl. simpl in Hl.
    injection Hl as Hl _ _. by rewrite decide_True in Hl. }
  intros X c' HX.
  destruct (lookup_same_graph w1 w' X) as [c1 HX1]; [done|by rewrite HX|].
  destruct (decide (X = name)) as [->|HXn].
  { eapply Hkept; [exact HX1| |done].
    eapply (S_calculate name _ w1 (set_formula (Some text) self) Hcal); [| |done].
    - by rewrite lookup_setData, Hs, decide_True.
    - intros f Hf Hne. simpl in Hf. injection Hf as <-.
      eapply (no_self_reference w1); [done|done|exact HX1|by apply Hf1|done]. }
  destruct (calculate_frame name _ w1 X Hcal HXn) as (Kf & Kv & Ke).
  rewrite lookup_setData, decide_False, HX1 in Kf, Kv, Ke by done.
  destruct (siblings w !! X) as [c|] eqn:HXw; [|done].
  simpl in Kf, Kv, Ke. injection Kf as Kf. injection Kv as Kv. injection Ke as Ke.
  destruct (formula c) as [f|] eqn:Hf.
  2:{ eapply Hkept; [exact HX1| |done].
      eapply (S_ext (siblings w) _ c); [by rewrite Hf|done|done| |by eapply Hst].
      intros ? ? Hf'. congruence. }
  destruct (decide (f = "")) as [->|Hfne].
  { eapply Hkept; [exact HX1| |done].
    eapply (S_ext (siblings w) _ c); [by rewrite Hf|done|done| |by eapply Hst].
    intros ? ? Hf' Hne'. congruence. }
  destruct (decide (name ∈ references f)) as [Hin|Hnin].
  - destruct Hrun as (_ & Hsettled & _). eapply Hsettled; [|done].
    apply reaches_one.
    destruct (requires_dependent (graph w) X f (deps c) (reqs c) name Hc)
      as (f0 & d0 & r0 & Hg0 & Hd0); [|done|done|].
    { apply graph_lookup_Some. by exists c. }
    rewrite Hg1. eexists _, _, _.
    split; [by rewrite lookup_rewired, Hg0|].
    simpl. apply elem_of_relink_deps. right. split; [done|]. by intros [? _].
  - eapply Hkept; [exact HX1| |done].
    eapply (S_ext (siblings w) _ c); [by rewrite Hf|done|done| |by eapply Hst].
    intros f0 r Hf0 _ Hr. rewrite Hf in Hf0. injection Hf0 as <-.
    destruct (calculate_frame name _ w1 r Hcal) as (_ & Kr & _); [by intros ->|].
    rewrite Kr, lookup_setData, decide_False by (by intros ->).
    by destruct (siblings w !! r).
Qed.

Lemma edits_to_keep w es w' :
  edits_to w es w' ->
  consistent (graph w) -> acyclic (graph w) ->
  (forall X c, siblings w !! X = Some c -> S (siblings w) c) ->
  forall X c, siblings w' !! X = Some c -> S (siblings w') c.
Proof.
  induction 1 as [w|w name text fuel w1 es w2 He _ IH]; intros Hc Ha Hst; [done|].
  apply IH.
  - by eapply edit_consistent.
  - by eapply edit_acyclic.
  - by eapply edit_keeps.
Qed.

Lemma edits_to_SpreadSheet_keep rows cols es w :
  edits_to (SpreadSheet rows cols) es w ->
  forall X c, siblings w !! X = Some c -> S (siblings w) c.
Proof.
  intros He. eapply edits_to_keep; [done|apply SpreadSheet_consistent
    |apply SpreadSheet_acyclic|].
  intros X c Hc. apply SpreadSheet_lookup in Hc as ->. apply S_new.
Qed.

End Kept.

Section Redisplay.

Context {python : Python}.

Lemma flagged_ext m m' c c' :
  formula c' = formula c -> value c' = value c -> error_shown c' = error_shown c ->
  (forall f r, formula c = Some f -> f <> "" -> r ∈ references f ->
     value <$> m !! r = value <$> m' !! r) ->
  flagged m c -> flagged m' c'.
Proof.
  intros Hf _ He Hr. unfold flagged. rewrite Hf, He.
  destruct (formula c) as [f|]; [|done].
  case_decide; [done|].
  by rewrite (req_values_of_ext m m' (references f)) by eauto.
Qed.

Lemma flagged_calculate x w w1 self :
  calculate x w = Done tt w1 -> siblings w !! x = Some self ->
  (forall f, formula self = Some f -> f <> "" -> x ∉ references f) ->
  forall c1, siblings w1 !! x = Some c1 -> flagged (siblings w1) c1.
Proof.
  intros H Hs Hno c1 Hc1.
  pose proof H as H'. apply calculate_Done_inv in H' as (self' & Hs' & _ & H').
  rewrite Hs in Hs'. injection Hs' as <-. cbv zeta in H'.
  destruct H' as [(Hf & Hm & _)|(f & Hf & Hne & _ & Hm & _ & Hex)].
  - rewrite Hm, lookup_alter_eq, Hs in Hc1. injection Hc1 as <-.
    unfold flagged; simpl. destruct Hf as [->| ->]; [done|].
    by rewrite decide_True.
  - rewrite Hm, lookup_alter_eq, lookup_relinked, Hs in Hc1. injection Hc1 as <-.
    unfold flagged; simpl. rewrite formula_relink, Hf, decide_False by done.
    rewrite (req_values_of_ext _ (siblings w) (references f)).
    + by destruct (py_eval _ _).
    + intros r Hr. apply (calculate_others x w w1 r H).
      intros ->. by eapply Hno.
Qed.

(** After any run of returning edits every flag is up to date. *)
Lemma edits_to_flagged rows cols es w :
  edits_to (SpreadSheet rows cols) es w ->
  forall X c, siblings w !! X = Some c -> flagged (siblings w) c.
Proof.
  apply (edits_to_SpreadSheet_keep flagged flagged_ext flagged_calculate).
  done.
Qed.

(** [calculate] on a cell whose value and flag are up to date changes
    nothing and shows nothing. *)
Lemma calculate_fixed X w c :
  consistent (graph w) -> siblings w !! X = Some c ->
  settled (siblings w) c -> flagged (siblings w) c ->
  calculate X w = Done tt (World (siblings w) (shown w) (calculated w ++ [X])).
Proof.
  intros Hc HX Hs Hf. unfold settled in Hs. unfold flagged in Hf.
  destruct (formula c) as [f|] eqn:Hfc.
  2:{ rewrite (calculate_empty X w c HX) by by left.
      rewrite alter_id; [done|].
      intros c' Hc'. rewrite HX in Hc'. injection Hc' as <-.
      destruct c; simpl in *; by subst. }
  destruct (decide (f = "")) as [->|Hne].
  { rewrite (calculate_empty X w c HX) by by right.
    rewrite alter_id; [done|].
    intros c' Hc'. rewrite HX in Hc'. injection Hc' as <-.
    destruct c; simpl in *; by subst. }
  assert (HR : reqs c = references f).
  { eapply (reqs_current _ Hc X f (deps c)); [|done].
    apply graph_lookup_Some. by exists c. }
  rewrite (calculate_nonempty X w c f HX Hfc Hne).
  2:{ split.
      - intros r Hr. rewrite <- HR in Hr.
        destruct (reqs_mirrored _ Hc X (Some f) (deps c) (reqs c) r)
          as (f' & d' & r' & Hg & _); [|done|].
        + apply graph_lookup_Some. by exists c.
        + apply graph_is_Some. by rewrite Hg.
      - intros r Hr. rewrite HR in Hr. set_solver. }
  cbv zeta. rewrite HR, relinked_same.
  destruct (py_eval _ _) as [v|e].
  - rewrite alter_id; [done|].
    intros c' Hc'. rewrite HX in Hc'. injection Hc' as <-.
    destruct c; simpl in *; by subst.
  - destruct Hf as (Hflag & ->). rewrite Hflag, app_nil_r.
    rewrite alter_id; [done|].
    intros c' Hc'. rewrite HX in Hc'. injection Hc' as <-.
    destruct c; simpl in *; by subst.
Qed.

Lemma for_each_fuel_fixed (P : world -> Prop)
    (body : string -> world -> option (result unit)) l :
  (forall d w r, P w -> d ∈ l -> body d w = Some r -> exists w', r = Done tt w' /\ P w') ->
  forall w r, P w -> for_each_fuel l body w = Some r ->
    exists w', r = Done tt w' /\ P w'.
Proof.
  induction l as [|x l IH]; intros Hb w r Hw H.
  - simpl in H. injection H as <-. by exists w.
  - simpl in H. destruct (body x w) as [r0|] eqn:Hx; [|done].
    destruct (Hb x w r0 Hw ltac:(by left) Hx) as (w1 & -> & Hw1).
    eapply IH; [|exact Hw1|exact H].
    intros d w0 r1 Hw0 Hd. apply Hb; [done|by right].
Qed.

(** A pass of [propagate] over cells that are all up to date changes
    nothing and shows nothing. *)
Lemma propagate_fixed m L :
  consistent (links <$> m) ->
  (forall X c, m !! X = Some c -> settled m c /\ flagged m c) ->
  forall fuel X w r, siblings w = m -> shown w = L -> is_Some (m !! X) ->
    propagate fuel X w = Some r ->
    exists w', r = Done tt w' /\ siblings w' = m /\ shown w' = L.
Proof.
  intros Hc Hall. induction fuel as [|fuel IH]; intros X w r Hm HL HX H; [done|].
  simpl in H. rewrite Hm in H. destruct HX as [self Hs]. rewrite Hs in H.
  eapply (for_each_fuel_fixed (fun w => siblings w = m /\ shown w = L));
    [|split; [exact Hm|exact HL]|exact H].
  intros d w0 r0 (Hm0 & HL0) Hd Hb. cbv beta in Hb.
  assert (Hdm : is_Some (m !! d)).
  { apply elem_of_iter in Hd.
    destruct (deps_mirrored _ Hc X (formula self) (deps self) (reqs self) d)
      as (f' & d' & r' & Hg & _); [by rewrite lookup_fmap, Hs|done|].
    rewrite lookup_fmap in Hg. by destruct (m !! d). }
  destruct Hdm as [cd Hcd].
  destruct (Hall d cd Hcd) as (Hsd & Hfd).
  rewrite (calculate_fixed d w0 cd) in Hb.
  - apply IH in Hb; [done|by simpl..|by rewrite Hcd].
  - unfold graph. by rewrite Hm0.
  - by rewrite Hm0.
  - by rewrite Hm0.
  - by rewrite Hm0.
Qed.

(** Displaying a cell again after a run of edits that return: [display]
    returns, the text is that of the stored value, no cell changes and no
    message is shown. *)
Lemma redisplay_fixed rows cols es w X c :
  edits_to (SpreadSheet rows cols) es w ->
  siblings w !! X = Some c ->
  exists fuel w',
    data fuel DisplayRole X w = Some (Done (Some (pystr (value c))) w') /\
    siblings w' = siblings w /\ shown w' = shown w.
Proof.
  intros He HX.
  destruct (edits_to_stable _ _ _ He (SpreadSheet_consistent _ _)
              (SpreadSheet_acyclic _ _) (SpreadSheet_stable _ _))
    as (Hc & Ha & Hst).
  pose proof (edits_to_flagged _ _ _ _ He) as Hfl.
  pose proof (calculate_fixed X w c Hc HX (Hst X c HX) (Hfl X c HX)) as Hcal.
  set (w1 := World (siblings w) (shown w) (calculated w ++ [X])) in *.
  destruct (propagate_terminates_on_path (graph w) Hc Ha
              (size (graph w)) [] X w1) as [r Hr]; try done.
  - apply NoDup_singleton.
  - intros v Hv. by apply elem_of_nil in Hv.
  - intros v Hv. apply elem_of_cons in Hv as [->|Hv]; [|by apply elem_of_nil in Hv].
    apply graph_is_Some. by rewrite HX.
  - simpl. lia.
  - destruct (propagate_fixed (siblings w) (shown w) Hc
                (fun Y cy HY => conj (Hst Y cy HY) (Hfl Y cy HY))
                _ X w1 r eq_refl eq_refl ltac:(by rewrite HX) Hr)
      as (w' & -> & Hm & HL).
    exists (size (graph w)), w'. split; [|done].
    unfold data, display_str, display. by rewrite Hcal, Hr, Hm, HX.
Qed.

End Redisplay.

Section Determined.

Context {python : Python}.

(** Two dictionaries with the same formulas, both with settled values, hold
    the same values when no formula of the first fails: by induction along
    the requirements, which are finite for a graph without cycle. *)
Lemma settled_values_agree g w w' :
  consistent g -> acyclic g -> graph w = g ->
  stable w -> stable w' ->
  formula <$> siblings w = formula <$> siblings w' ->
  error_free (siblings w) ->
  forall fuel visited X,
    NoDup (X :: visited) ->
    (forall v, v ∈ visited -> reaches g X v) ->
    (forall v, v ∈ X :: visited -> is_Some (g !! v)) ->
    size g < fuel + length (X :: visited) ->
    value <$> siblings w !! X = value <$> siblings w' !! X.
Proof.
  intros Hc Ha Hg Hst Hst' Hfm Hef.
  induction fuel as [|fuel IH]; intros visited X ND Hv Hin Hsz.
  { pose proof (NoDup_bounded g _ ND Hin). simpl in *. lia. }
  assert (HX : is_Some (siblings w !! X)).
  { apply graph_is_Some. rewrite Hg. apply Hin. by left. }
  destruct HX as [c HX].
  assert (HX' : formula <$> siblings w' !! X = Some (formula c)).
  { by rewrite <- lookup_fmap, <- Hfm, lookup_fmap, HX. }
  destruct (siblings w' !! X) as [c'|] eqn:HXc'; [|done].
  simpl in HX'. injection HX' as HX'. rewrite HX. simpl. f_equal.
  pose proof (Hst X c HX) as Hs. pose proof (Hst' X c' HXc') as Hs'.
  pose proof (Hef X c HX) as He. simpl in He.
  unfold settled in Hs, Hs'. unfold evaluates in He. rewrite HX' in Hs'.
  destruct (formula c) as [f|] eqn:Hf; [|congruence].
  destruct (decide (f = "")) as [->|Hne]; [congruence|].
  assert (Hdep : forall r, r ∈ references f -> dependent g r X).
  { intros r Hr. eapply (requires_dependent g X f (deps c) (reqs c)); try done.
    rewrite <- Hg. apply graph_lookup_Some. by exists c. }
  rewrite (req_values_of_ext (siblings w') (siblings w) (references f)) in Hs'.
  { destruct (py_eval _ _); [congruence|done]. }
  intros r Hr. symmetry. pose proof (Hdep r Hr) as Hd.
  apply (IH (X :: visited) r).
  - apply NoDup_cons. split; [|done].
    intros Hrin. apply elem_of_cons in Hrin as [->|Hrin].
    + apply (Ha X). by apply reaches_one.
    + apply (Ha X). eapply reaches_snoc; [by apply Hv|done].
  - intros v Hvin. apply elem_of_cons in Hvin as [->|Hvin].
    + by apply reaches_one.
    + eapply reaches_more; [done|]. by apply Hv.
  - intros v Hvin. apply elem_of_cons in Hvin as [->|Hvin]; [|by apply Hin].
    destruct Hd as (f0 & d0 & r0 & Hg0 & _). by rewrite Hg0.
  - simpl in *. lia.
Qed.

Lemma settled_values_equal w w' :
  consistent (graph w) -> acyclic (graph w) ->
  stable w -> stable w' ->
  formula <$> siblings w = formula <$> siblings w' ->
  error_free (siblings w) ->
  value <$> siblings w = value <$> siblings w'.
Proof.
  intros Hc Ha Hst Hst' Hfm Hef. apply map_eq. intros X. rewrite !lookup_fmap.
  destruct (siblings w !! X) as [c|] eqn:HX.
  - rewrite <- HX.
    apply (settled_values_agree (graph w) w w' Hc Ha eq_refl Hst Hst' Hfm Hef
             (size (graph w)) [] X).
    + apply NoDup_singleton.
    + intros v Hv. by apply elem_of_nil in Hv.
    + intros v Hv. apply elem_of_cons in Hv as [->|Hv]; [|by apply elem_of_nil in Hv].
      apply graph_is_Some. by rewrite HX.
    + simpl. lia.
  - assert (H' : formula <$> siblings w' !! X = None).
    { by rewrite <- lookup_fmap, <- Hfm, lookup_fmap, HX. }
    by destruct (siblings w' !! X).
Qed.

End Determined.

(** ** What an edit leaves alone *)

Section Frames.

Context {python : Python}.

Lemma alter_formulas (g : SpreadSheetItem -> SpreadSheetItem) r
    (m : gmap string SpreadSheetItem) :
  (forall c, formula (g c) = formula c) -> formula <$> alter g r m = formula <$> m.
Proof.
  intros Hg. apply map_eq. intros i. rewrite !lookup_fmap.
  destruct (decide (i = r)) as [->|Hi].
  - rewrite lookup_alter_eq. destruct (m !! r); simpl; [|done]. by rewrite Hg.
  - by rewrite lookup_alter_ne.
Qed.

Lemma world_of_bind {A B : Type} (m : M A) (k : A -> M B) w :
  world_of (bind m k w) =
  match m w with
  | Done a w' => world_of (k a w')
  | Raised _ w' => w'
  end.
Proof. unfold bind. by destruct (m w). Qed.

Lemma guarded_formulas pre g err r w :
  (forall c, formula (g c) = formula c) ->
  formula <$> siblings (world_of (guarded pre g err r w)) = formula <$> siblings w.
Proof.
  intros Hg. unfold guarded. destruct (siblings w !! r) as [c|]; [|done].
  destruct (pre c); [|done]. simpl. by apply alter_formulas.
Qed.

Lemma deps_add_formulas name x w :
  formula <$> siblings (world_of (deps_add name x w)) = formula <$> siblings w.
Proof. rewrite deps_add_guarded. by apply guarded_formulas. Qed.

Lemma deps_remove_formulas name x w :
  formula <$> siblings (world_of (deps_remove name x w)) = formula <$> siblings w.
Proof. rewrite deps_remove_guarded. by apply guarded_formulas. Qed.

Lemma for_each_formulas (body : string -> M unit) l :
  (forall x w, formula <$> siblings (world_of (body x w)) = formula <$> siblings w) ->
  forall w, formula <$> siblings (world_of (for_each l body w)) = formula <$> siblings w.
Proof.
  intros Hb. induction l as [|x l IH]; intros w; [done|].
  simpl. rewrite world_of_bind. specialize (Hb x w).
  destruct (body x w) as [[] w1|e w1]; simpl in Hb; [|done].
  by rewrite IH.
Qed.

Lemma values_of_world l : forall w, world_of (values_of l w) = w.
Proof.
  induction l as [|r l IH]; intros w; [done|].
  simpl. unfold bind, get_item. destruct (siblings w !! r); [|done].
  specialize (IH w). by destruct (values_of l w).
Qed.

Lemma evaluate_formulas name f env prev w :
  formula <$> siblings (world_of (evaluate name f env prev w)) = formula <$> siblings w.
Proof.
  unfold evaluate. destruct (py_eval f env) as [v|e].
  - unfold bind, update_item. simpl. by rewrite !alter_formulas.
  - destruct (is_Exception e); [|done].
    unfold bind, get_item. destruct (siblings w !! name) as [c|]; [|done].
    destruct (error_shown c); unfold ret, show_error_message, update_item; simpl.
    + by rewrite alter_formulas.
    + by rewrite !alter_formulas.
Qed.

(** [calculate] changes no formula and neither adds nor removes a cell,
    however it ends. *)
Lemma calculate_formulas name w :
  formula <$> siblings (world_of (calculate name w)) = formula <$> siblings w.
Proof.
  unfold calculate. rewrite world_of_bind. unfold get_item.
  destruct (siblings w !! name) as [self|]; [|done].
  rewrite world_of_bind. unfold note_calculate.
  set (w0 := World (siblings w) (shown w) (calculated w ++ [name])).
  change (formula <$> siblings w) with (formula <$> siblings w0).
  generalize w0. clear w0. intros w0.
  assert (He : formula <$> siblings
                 (world_of (update_item name (set_value (VInt 0)) w0))
               = formula <$> siblings w0).
  { unfold update_item. simpl. by apply alter_formulas. }
  destruct (formula self) as [f|]; [|done].
  case_decide; [done|]. cbv zeta.
  rewrite world_of_bind.
  pose proof (for_each_formulas (deps_add name)
                (iter (references f ∖ reqs self)) (deps_add_formulas name) w0) as H1.
  destruct (for_each _ (deps_add name) w0) as [[] w1|e w1]; simpl in H1; [|done].
  rewrite <- H1. rewrite world_of_bind.
  pose proof (for_each_formulas (deps_remove name)
                (iter (reqs self ∖ references f)) (deps_remove_formulas name) w1) as H2.
  destruct (for_each _ (deps_remove name) w1) as [[] w2|e w2]; simpl in H2; [|done].
  rewrite <- H2. rewrite world_of_bind.
  pose proof (values_of_world (iter (references f)) w2) as H3.
  destruct (values_of _ w2) as [rv w3|e w3]; simpl in H3; subst w3; [|done].
  rewrite world_of_bind. unfold get_item.
  destruct (siblings w2 !! name) as [self'|]; [|done].
  rewrite world_of_bind.
  pose proof (evaluate_formulas name (Text.upper f) (environment rv) (value self') w2) as H4.
  destruct (evaluate _ _ _ _ w2) as [[] w4|e w4]; simpl in H4; [|done].
  rewrite <- H4. unfold update_item. simpl. by apply alter_formulas.
Qed.

Lemma for_each_fuel_formulas (body : string -> world -> option (result unit)) l :
  (forall x w r, body x w = Some r ->
     formula <$> siblings (world_of r) = formula <$> siblings w) ->
  forall w r, for_each_fuel l body w = Some r ->
    formula <$> siblings (world_of r) = formula <$> siblings w.
Proof.
  intros Hb. induction l as [|x l IH]; intros w r H.
  - simpl in H. by injection H as <-.
  - simpl in H. destruct (body x w) as [[[] w1|e w1]|] eqn:Hx; [| |done].
    + rewrite (IH _ _ H). apply (Hb x w _ Hx).
    + injection H as <-. apply (Hb x w _ Hx).
Qed.

Lemma propagate_formulas fuel : forall name w r,
  propagate fuel name w = Some r ->
  formula <$> siblings (world_of r) = formula <$> siblings w.
Proof.
  induction fuel as [|fuel IH]; intros name w r H; [done|].
  simpl in H. destruct (siblings w !! name) as [self|]; [|by injection H as <-].
  eapply for_each_fuel_formulas; [|exact H].
  intros x w0 r0 Hx. cbv beta in Hx.
  pose proof (calculate_formulas x w0) as Hc.
  destruct (calculate x w0) as [[] w1|e w1]; simpl in Hc.
  - rewrite <- Hc. by eapply IH.
  - by injection Hx as <-.
Qed.

(** However an edit ends, the formulas are those before it with the text
    typed in the edited cell. *)
Lemma edit_formulas fuel name text w r :
  edit fuel name text w = Some r ->
  formula <$> siblings (world_of r)
  = alter (fun _ => Some text) name (formula <$> siblings w).
Proof.
  intros H. unfold edit, display in H.
  assert (Hs : formula <$> siblings (setData name text w)
               = alter (fun _ => Some text) name (formula <$> siblings w)).
  { unfold setData. simpl. apply map_eq. intros i. rewrite !lookup_fmap.
    destruct (decide (i = name)) as [->|Hi].
    - rewrite !lookup_alter_eq, lookup_fmap. by destruct (siblings w !! name).
    - by rewrite !lookup_alter_ne, lookup_fmap. }
  rewrite <- Hs.
  pose proof (calculate_formulas name (setData name text w)) as Hc.
  destruct (calculate name (setData name text w)) as [[] w1|e w1];
    cbn [world_of] in Hc.
  - rewrite <- Hc. by eapply propagate_formulas.
  - by injection H as <-.
Qed.

End Frames.

(** ** The pattern and the names of the cells *)

Section PatternFacts.

Lemma upper_not_digit a : Text.is_upper a = true -> Text.is_digit a = true -> False.
Proof.
  unfold Text.is_upper, Text.is_digit, Text.in_range.
  rewrite !andb_true_iff, !Nat.leb_le. lia.
Qed.

Lemma findall_from_spec n : forall s prev x,
  String.length s <= n ->
  x ∈ Text.findall_from prev s <-> is_match prev s x.
Proof.
  induction n as [|n IH]; intros s prev x Hn.
  { destruct s; [|simpl in Hn; lia]. simpl. split.
    - intros H. by apply elem_of_nil in H.
    - intros (p & a & b & q & Hs & _). destruct p; discriminate. }
  destruct s as [|a0 [|b0 s2]].
  - simpl. split.
    + intros H. by apply elem_of_nil in H.
    + intros (p & a & b & q & Hs & _). destruct p; discriminate.
  - simpl. split.
    + intros H. by apply elem_of_nil in H.
    + intros (p & a & b & q & Hs & _).
      destruct p as [|c [|d p]]; simpl in Hs; discriminate.
  - simpl in Hn.
    change (Text.findall_from prev (String a0 (String b0 s2)))
      with (if Text.boundary_before prev && Text.is_upper a0 && Text.is_digit b0
                 && Text.boundary_after s2
            then String a0 (String b0 EmptyString) :: Text.findall_from (Some b0) s2
            else Text.findall_from (Some a0) (String b0 s2)).
    destruct (Text.boundary_before prev && Text.is_upper a0 && Text.is_digit b0
              && Text.boundary_after s2) eqn:Hcond.
    + apply andb_true_iff in Hcond as (Hcond & Hq).
      apply andb_true_iff in Hcond as (Hcond & Hb).
      apply andb_true_iff in Hcond as (Hp & Ha).
      rewrite elem_of_cons, (IH s2 (Some b0) x) by lia. split.
      * intros [->|(p & a & b & q & -> & -> & Ha' & Hb' & Hp' & Hq')].
        -- by exists EmptyString, a0, b0, s2.
        -- by exists (String a0 (String b0 p)), a, b, q.
      * intros (p & a & b & q & Hs & -> & Ha' & Hb' & Hp' & Hq').
        destruct p as [|c [|d p]]; simpl in Hs.
        -- injection Hs as -> -> ->. by left.
        -- injection Hs as -> -> ->. by destruct (upper_not_digit a).
        -- injection Hs as -> -> ->. right. by exists p, a, b, q.
    + rewrite (IH (String b0 s2) (Some a0) x) by (simpl; lia). split.
      * intros (p & a & b & q & Hs & -> & Ha' & Hb' & Hp' & Hq').
        exists (String a0 p), a, b, q. simpl. by rewrite Hs.
      * intros (p & a & b & q & Hs & -> & Ha' & Hb' & Hp' & Hq').
        destruct p as [|c p]; simpl in Hs.
        -- injection Hs as -> -> ->. simpl in Hp'.
           by rewrite Hp', Ha', Hb', Hq' in Hcond.
        -- injection Hs as -> Hs. by exists p, a, b, q.
Qed.

Lemma findall_spec s x : x ∈ Text.findall s <-> is_match None s x.
Proof. by apply (findall_from_spec (String.length s)). Qed.

Lemma references_spec f x : x ∈ references f <-> is_match None (Text.upper f) x.
Proof. unfold references. rewrite elem_of_list_to_set. apply findall_spec. Qed.

End PatternFacts.

Section NameFacts.

Lemma ord_chr n : n < 256 -> Text.ord (Text.chr n) = n.
Proof. apply nat_ascii_embedding. Qed.

Lemma chr_inj m n : m < 256 -> n < 256 -> Text.chr m = Text.chr n -> m = n.
Proof. intros Hm Hn H. by rewrite <- (ord_chr m), <- (ord_chr n), H. Qed.

Lemma digit_char_inj d e : d < 10 -> e < 10 -> Text.digit_char d = Text.digit_char e -> d = e.
Proof.
  unfold Text.digit_char. intros Hd He H. apply chr_inj in H; lia.
Qed.

Lemma str_digits_step fuel n acc :
  Text.str_digits (S fuel) n acc =
  if (n <? 10)%nat then String (Text.digit_char (n mod 10)) acc
  else Text.str_digits fuel (n / 10) (String (Text.digit_char (n mod 10)) acc).
Proof. done. Qed.

Lemma str_digits_length_one fuel n acc :
  n < 10 -> 0 < fuel ->
  Text.str_digits fuel n acc = String (Text.digit_char n) acc.
Proof.
  intros Hn Hf. destruct fuel as [|fuel]; [lia|].
  rewrite str_digits_step.
  destruct (n <? 10)%nat eqn:E; [|apply Nat.ltb_ge in E; lia].
  by rewrite Nat.mod_small.
Qed.

(** [str] is injective on the natural numbers. *)
Lemma str_digits_inj : forall n fuel fuel' n' acc acc',
  n < fuel -> n' < fuel' -> String.length acc = String.length acc' ->
  Text.str_digits fuel n acc = Text.str_digits fuel' n' acc' ->
  n = n' /\ acc = acc'.
Proof.
  induction n as [n IH] using lt_wf_ind.
  intros fuel fuel' n' acc acc' Hf Hf' Hlen H.
  destruct (le_lt_dec 10 n) as [Hn|Hn]; destruct (le_lt_dec 10 n') as [Hn'|Hn'].
  - destruct fuel as [|fuel]; [lia|]. destruct fuel' as [|fuel']; [lia|].
    rewrite !str_digits_step in H.
    destruct (n <? 10)%nat eqn:E; [apply Nat.ltb_lt in E; lia|].
    destruct (n' <? 10)%nat eqn:E'; [apply Nat.ltb_lt in E'; lia|].
    pose proof (Nat.mod_upper_bound n 10 ltac:(lia)) as Hm.
    pose proof (Nat.mod_upper_bound n' 10 ltac:(lia)) as Hm'.
    pose proof (Nat.div_mod_eq n 10) as Hd.
    pose proof (Nat.div_mod_eq n' 10) as Hd'.
    assert (n / 10 < n) by (apply Nat.div_lt; lia).
    assert (n' / 10 < n') by (apply Nat.div_lt; lia).
    destruct (IH (n / 10) ltac:(done) fuel fuel' (n' / 10)
                (String (Text.digit_char (n mod 10)) acc)
                (String (Text.digit_char (n' mod 10)) acc')
                ltac:(lia) ltac:(lia) ltac:(by simpl; rewrite Hlen) H)
      as (Hq & Hacc).
    injection Hacc as Hdig ->. apply digit_char_inj in Hdig; [|done..].
    change (n mod 10 = n' mod 10) in Hdig.
    split; [lia|done].
  - exfalso. rewrite (str_digits_length_one fuel' n' acc') in H by lia.
    apply (f_equal String.length) in H.
    pose proof (str_digits_two fuel n acc Hn ltac:(lia)) as Hg.
    rewrite H in Hg. cbn [String.length] in Hg. lia.
  - exfalso. rewrite (str_digits_length_one fuel n acc) in H by lia.
    apply (f_equal String.length) in H.
    pose proof (str_digits_two fuel' n' acc' Hn' ltac:(lia)) as Hg.
    rewrite <- H in Hg. cbn [String.length] in Hg. lia.
  - rewrite (str_digits_length_one fuel n acc),
      (str_digits_length_one fuel' n' acc') in H by lia.
    injection H as H ->. apply digit_char_inj in H; done.
Qed.

Lemma str_nat_inj n n' : Text.str_nat n = Text.str_nat n' -> n = n'.
Proof.
  unfold Text.str_nat. intros H.
  by destruct (str_digits_inj n (S n) (S n') n' EmptyString EmptyString
                 ltac:(lia) ltac:(lia) eq_refl H).
Qed.

(** Two cells have the same name only when they are the same cell. *)
Lemma cell_name_inj i j i' j' :
  j < 63 -> j' < 63 -> cell_name i j = cell_name i' j' -> i = i' /\ j = j'.
Proof.
  unfold cell_name. intros Hj Hj' H.
  change (Text.ord "A") with 65 in H.
  assert (Hc : Text.chr (65 + j) = Text.chr (65 + j')) by congruence.
  assert (Hs : Text.str_nat (i + 1) = Text.str_nat (i' + 1)) by congruence.
  apply str_nat_inj in Hs. apply chr_inj in Hc; lia.
Qed.

Lemma cell_name_short i j :
  i < 9 -> cell_name i j
           = String (Text.chr (65 + j)) (String (Text.digit_char (i + 1)) EmptyString).
Proof.
  intros Hi. unfold cell_name, Text.str_nat.
  by rewrite str_digits_length_one by lia.
Qed.

Lemma is_upper_chr j : j < 191 -> Text.is_upper (Text.chr (65 + j)) = true <-> j < 26.
Proof.
  intros Hj. unfold Text.is_upper, Text.in_range. rewrite ord_chr by lia.
  rewrite andb_true_iff, !Nat.leb_le. lia.
Qed.

Lemma is_digit_digit_char d : d < 10 -> Text.is_digit (Text.digit_char d) = true.
Proof.
  intros Hd. unfold Text.is_digit, Text.digit_char, Text.in_range.
  rewrite ord_chr by lia. rewrite andb_true_iff, !Nat.leb_le. lia.
Qed.

Lemma upper_char_upper a : Text.is_upper a = true -> Text.upper_char a = a.
Proof.
  unfold Text.upper_char, Text.is_upper, Text.is_lower, Text.in_range.
  rewrite andb_true_iff, !Nat.leb_le. intros [H1 H2].
  destruct (_ && _) eqn:E; [|done].
  apply andb_true_iff in E as [E1 E2]. apply Nat.leb_le in E1, E2. lia.
Qed.

Lemma upper_char_digit a : Text.is_digit a = true -> Text.upper_char a = a.
Proof.
  unfold Text.upper_char, Text.is_digit, Text.is_lower, Text.in_range.
  rewrite andb_true_iff, !Nat.leb_le. intros [H1 H2].
  destruct (_ && _) eqn:E; [|done].
  apply andb_true_iff in E as [E1 E2]. apply Nat.leb_le in E1, E2. lia.
Qed.

(** A reference is the name of a cell of the first nine rows and of the
    columns [A] to [Z], or a letter with the digit 0, which no cell has. *)
Lemma reference_shape f r :
  r ∈ references f ->
  (exists i j, i < 9 /\ j < 26 /\ r = cell_name i j) \/
  (exists j, j < 26 /\ r = String (Text.chr (65 + j)) "0").
Proof.
  intros Hr. apply references_spec in Hr as (p & a & b & q & _ & -> & Ha & Hb & _).
  unfold Text.is_upper, Text.is_digit, Text.in_range in Ha, Hb.
  apply andb_true_iff in Ha as [Ha1 Ha2]. apply andb_true_iff in Hb as [Hb1 Hb2].
  apply Nat.leb_le in Ha1, Ha2, Hb1, Hb2.
  assert (Ea : a = Text.chr (65 + (Text.ord a - 65))).
  { replace (65 + (Text.ord a - 65)) with (Text.ord a) by lia.
    symmetry. apply ascii_nat_embedding. }
  assert (Eb : b = Text.chr (Text.ord b)).
  { symmetry. apply ascii_nat_embedding. }
  destruct (decide (Text.ord b = 48)) as [E|E].
  - right. exists (Text.ord a - 65). split; [lia|].
    rewrite <- Ea. rewrite Eb, E. done.
  - left. exists (Text.ord b - 49), (Text.ord a - 65). split_and!; [lia..|].
    rewrite cell_name_short by lia. rewrite <- Ea. unfold Text.digit_char.
    replace (48 + (Text.ord b - 49 + 1)) with (Text.ord b) by lia.
    by rewrite <- Eb.
Qed.

Lemma cell_name_no_zero i j k : cell_name i j <> String (Text.chr k) "0".
Proof.
  unfold cell_name. intros H. injection H as _ H.
  destruct (le_lt_dec 9 i) as [Hi|Hi].
  - pose proof (cell_name_length i j Hi) as Hl. unfold cell_name in Hl.
    simpl in Hl. rewrite H in Hl. simpl in Hl. lia.
  - unfold Text.str_nat in H. rewrite str_digits_length_one in H by lia.
    injection H as H. change "0"%char with (Text.digit_char 0) in H.
    apply digit_char_inj in H; lia.
Qed.

End NameFacts.

Section SheetFacts.

Lemma create_row_lookup i (l : list nat) :
  forall (m : gmap string SpreadSheetItem) k,
  is_Some (foldl (fun m j => <[cell_name i j := new_item]> m) m l !! k) <->
  is_Some (m !! k) \/ exists j, j ∈ l /\ k = cell_name i j.
Proof.
  induction l as [|j l IH]; intros m k; simpl.
  - split; [by left|]. intros [H|(j & Hj & _)]; [done|by apply elem_of_nil in Hj].
  - rewrite IH. split.
    + intros [H|(j' & Hj' & ->)].
      * destruct (decide (k = cell_name i j)) as [->|Hk].
        -- right. exists j. split; [by left|done].
        -- left. by rewrite lookup_insert_ne in H.
      * right. exists j'. split; [by right|done].
    + intros [H|(j' & Hj' & ->)].
      * left. destruct (decide (k = cell_name i j)) as [->|Hk].
        -- by rewrite lookup_insert_eq.
        -- by rewrite lookup_insert_ne.
      * apply elem_of_cons in Hj' as [->|Hj'].
        -- left. by rewrite lookup_insert_eq.
        -- right. by exists j'.
Qed.

Lemma create_rows_lookup cols (l : list nat) :
  forall (m : gmap string SpreadSheetItem) k,
  is_Some (foldl (fun m i => create_row i cols m) m l !! k) <->
  is_Some (m !! k) \/ exists i j, i ∈ l /\ j < cols /\ k = cell_name i j.
Proof.
  induction l as [|i l IH]; intros m k; simpl.
  - split; [by left|]. intros [H|(i & j & Hi & _)]; [done|by apply elem_of_nil in Hi].
  - rewrite IH. unfold create_row at 1. rewrite create_row_lookup. split.
    + intros [[H|(j & Hj & ->)]|(i' & j & Hi' & Hj & ->)].
      * by left.
      * right. exists i, j. apply elem_of_seq in Hj. split_and!; [by left|lia|done].
      * right. exists i', j. split_and!; [by right|done..].
    + intros [H|(i' & j & Hi' & Hj & ->)].
      * by left; left.
      * apply elem_of_cons in Hi' as [->|Hi'].
        -- left. right. exists j. split; [|done]. apply elem_of_seq. lia.
        -- right. by exists i', j.
Qed.

(** The dictionary of a new sheet holds the names [cell_name i j] of its
    rows and columns and no other key. *)
Lemma SpreadSheet_cells rows cols k :
  is_Some (siblings (SpreadSheet rows cols) !! k) <->
  exists i j, i < rows /\ j < cols /\ k = cell_name i j.
Proof.
  unfold SpreadSheet, create_widgets. simpl. rewrite create_rows_lookup.
  rewrite lookup_empty. split.
  - intros [H|(i & j & Hi & Hj & ->)]; [by destruct H|].
    exists i, j. apply elem_of_seq in Hi. split_and!; [lia|done..].
  - intros (i & j & Hi & Hj & ->). right. exists i, j.
    split_and!; [|done..]. apply elem_of_seq. lia.
Qed.

Lemma create_row_size i (l : list nat) :
  forall (m : gmap string SpreadSheetItem),
    NoDup l -> (forall j, j ∈ l -> j < 63) ->
    (forall j, j ∈ l -> m !! cell_name i j = None) ->
    size (foldl (fun m j => <[cell_name i j := new_item]> m) m l) = size m + length l.
Proof.
  induction l as [|j l IH]; intros m ND Hl Hm; simpl; [lia|].
  apply NoDup_cons in ND as [Hj ND].
  rewrite IH; [|done|..].
  - rewrite map_size_insert_None; [lia|]. apply Hm. by left.
  - intros j' Hj'. apply Hl. by right.
  - intros j' Hj'. rewrite lookup_insert_ne; [apply Hm; by right|].
    intros E. apply cell_name_inj in E as [_ ->]; [done|apply Hl..].
    + by left.
    + by right.
Qed.

Lemma create_rows_size cols (l : list nat) :
  forall (m : gmap string SpreadSheetItem),
    cols <= 63 -> NoDup l ->
    (forall i j, i ∈ l -> j < cols -> m !! cell_name i j = None) ->
    size (foldl (fun m i => create_row i cols m) m l) = size m + length l * cols.
Proof.
  intros m Hc. revert m.
  induction l as [|i l IH]; intros m ND Hm; simpl; [lia|].
  apply NoDup_cons in ND as [Hi ND].
  rewrite IH; [|done|].
  - unfold create_row. rewrite create_row_size.
    + rewrite length_seq. lia.
    + apply NoDup_seq.
    + intros j Hj. apply elem_of_seq in Hj. lia.
    + intros j Hj. apply elem_of_seq in Hj. apply Hm; [by left|lia].
  - intros i' j Hi' Hj. apply eq_None_not_Some. unfold create_row.
    rewrite create_row_lookup. intros [H|(j' & Hj' & E)].
    + rewrite Hm in H; [by destruct H|by right|done].
    + apply elem_of_seq in Hj'. apply cell_name_inj in E as [-> _]; [done|lia..].
Qed.

End SheetFacts.

(** ** More on edits *)

Section More.

Context {python : Python}.

Lemma formulas_dom (m m' : gmap string SpreadSheetItem) name text :
  formula <$> m' = alter (fun _ => Some text) name (formula <$> m) ->
  dom m' = dom m.
Proof.
  intros H. apply (f_equal dom) in H.
  by rewrite dom_alter_L, !dom_fmap_L in H.
Qed.

Lemma edits_to_dom w0 es w :
  edits_to w0 es w -> dom (siblings w) = dom (siblings w0).
Proof.
  induction 1 as [w|w name text fuel w1 es w2 He _ IH]; [done|].
  rewrite IH. apply edit_formulas in He. by eapply formulas_dom.
Qed.

Lemma edits_to_cells rows cols es w k :
  edits_to (SpreadSheet rows cols) es w ->
  is_Some (siblings w !! k) <-> exists i j, i < rows /\ j < cols /\ k = cell_name i j.
Proof.
  intros He. rewrite <- SpreadSheet_cells.
  rewrite <- !elem_of_dom. by rewrite (edits_to_dom _ _ _ He).
Qed.

(** The recalculation of an edited cell returns exactly when every name in
    the text is a cell of the dictionary. *)
Lemma edit_calculate_returns_iff w name text self :
  consistent (graph w) -> eval_raises_Exception ->
  siblings w !! name = Some self -> text <> "" ->
  (exists w1, calculate name (setData name text w) = Done tt w1) <->
  (forall r, r ∈ references text -> is_Some (siblings w !! r)).
Proof.
  intros Hc Hev Hs Hne.
  assert (Hs' : siblings (setData name text w) !! name
                = Some (set_formula (Some text) self)).
  { by rewrite lookup_setData, Hs, decide_True. }
  split.
  - intros (w1 & H) r Hr.
    destruct (calculate_Done_lookups name _ w1 _ text Hs' eq_refl Hne H) as (H1 & _).
    specialize (H1 r Hr). rewrite lookup_setData in H1.
    by apply fmap_is_Some in H1.
  - intros Hall.
    rewrite (calculate_nonempty name _ _ text Hs' eq_refl Hne).
    + cbv zeta. destruct (py_eval _ _) as [v|e] eqn:E; [by eexists|].
      rewrite (Hev _ _ _ E). by eexists.
    + split.
      * intros r Hr. rewrite lookup_setData. apply fmap_is_Some. by apply Hall.
      * intros r Hr. simpl in Hr.
        destruct (reqs_mirrored _ Hc name (formula self) (deps self) (reqs self) r)
          as (f' & d' & r' & Hg & Hd); [|set_solver|].
        { apply graph_lookup_Some. by exists self. }
        apply graph_lookup_Some in Hg as (c & Hcr & _ & <- & _).
        rewrite lookup_setData, Hcr. eexists. split; [done|].
        by case_decide.
Qed.

(** An edit that returns changes the value and the flag of the edited cell
    and of its transitive dependents only. *)
Lemma edit_frame fuel name text w w' e :
  consistent (graph w) -> acyclic (graph w) ->
  edit fuel name text w = Some (Done tt w') ->
  e <> name -> ~ reaches (graph w') name e ->
  value <$> siblings w' !! e = value <$> siblings w !! e /\
  error_shown <$> siblings w' !! e = error_shown <$> siblings w !! e.
Proof.
  intros Hc Ha H Hne Hnr.
  pose proof (edit_acyclic _ _ _ _ _ Hc Ha H) as Ha'.
  unfold edit, display in H.
  destruct (calculate name (setData name text w)) as [[] w1|] eqn:Hcal; [|done].
  pose proof (edit_calculate_consistent _ _ _ _ Hc Hcal) as Hc1.
  destruct (edit_calculate_graph _ _ _ _ Hcal) as (self & Hs & Hg1 & _).
  assert (Hs1 : is_Some (siblings w1 !! name)).
  { apply graph_is_Some. rewrite Hg1, lookup_rewired, graph_lookup, Hs. done. }
  destruct (propagate_keeps_graph fuel name w1 _ Hc1 Hs1 H) as (Hg & _).
  simpl in Hg. rewrite Hg in Ha', Hnr.
  destruct (propagate_settles _ Hc1 Ha' fuel name w1 w' eq_refl H) as (_ & _ & Hch).
  destruct (calculate_frame name _ w1 e Hcal Hne) as (_ & Kv & Ke).
  rewrite lookup_setData, decide_False in Kv, Ke by done.
  assert (Heq : siblings w' !! e = siblings w1 !! e).
  { destruct (decide (siblings w' !! e = siblings w1 !! e)) as [Heq|Hd]; [done|].
    by apply Hch in Hd. }
  rewrite Heq, Kv, Ke. by destruct (siblings w !! e).
Qed.

End More.

Section LoopFacts.

Context {python : Python}.

Lemma for_each_app {A : Type} (l1 l2 : list A) (body : A -> M unit) w :
  for_each (l1 ++ l2) body w = bind (for_each l1 body) (fun _ => for_each l2 body) w.
Proof.
  revert w. induction l1 as [|x l1 IH]; intros w; simpl.
  - done.
  - unfold bind. destruct (body x w) as [[] w1|e w1]; [|done]. apply IH.
Qed.

End LoopFacts.

Section Only.

Context {python : Python}.

Lemma for_each_fuel_only (body : string -> world -> option (result unit)) g
    (Q : string -> Prop) l :
  (forall d w r, graph w = g -> d ∈ l -> body d w = Some r ->
     graph (world_of r) = g /\
     exists t, calculated (world_of r) = calculated w ++ t /\ forall Y, Y ∈ t -> Q Y) ->
  forall w r, graph w = g -> for_each_fuel l body w = Some r ->
    graph (world_of r) = g /\
    exists t, calculated (world_of r) = calculated w ++ t /\ forall Y, Y ∈ t -> Q Y.
Proof.
  induction l as [|x l IH]; intros Hb w r Hg H.
  - simpl in H. injection H as <-. split; [done|]. exists []. split.
    + by rewrite app_nil_r.
    + intros Y HY. by apply elem_of_nil in HY.
  - simpl in H. destruct (body x w) as [r0|] eqn:Hx; [|done].
    destruct (Hb x w r0 Hg ltac:(by left) Hx) as (Hg0 & t0 & Ht0 & HQ0).
    destruct r0 as [[] w1|e w1].
    + destruct (IH (fun d w0 r1 Hw0 Hd => Hb d w0 r1 Hw0 ltac:(by right)) w1 r Hg0 H)
        as (Hg1 & t1 & Ht1 & HQ1).
      split; [done|]. exists (t0 ++ t1). split.
      * simpl in Ht0. by rewrite Ht1, Ht0, app_assoc.
      * intros Y HY. apply elem_of_app in HY as [HY|HY]; auto.
    + injection H as <-. split; [done|]. by exists t0.
Qed.

(** Whatever a pass of [propagate] recalculates is a transitive dependent of
    the cell it started from. *)
Lemma propagate_only_dependents g : consistent g ->
  forall fuel X w r, graph w = g -> is_Some (g !! X) ->
    propagate fuel X w = Some r ->
    graph (world_of r) = g /\
    exists t, calculated (world_of r) = calculated w ++ t /\
      forall Y, Y ∈ t -> reaches g X Y.
Proof.
  intros Hc. induction fuel as [|fuel IH]; intros X w r Hg HX H; [done|].
  simpl in H. destruct (siblings w !! X) as [self|] eqn:Hs.
  2:{ rewrite <- Hg in HX. apply graph_is_Some in HX.
      rewrite Hs in HX. by destruct HX. }
  eapply for_each_fuel_only; [|exact Hg|exact H].
  intros d w0 r0 Hg0 Hd Hb. cbv beta in Hb.
  apply elem_of_iter in Hd.
  assert (Hdep : dependent g X d) by (subst g; by eapply dependent_graph).
  assert (Hdg : is_Some (g !! d)) by by eapply dependent_is_Some.
  destruct (calculate_keeps_graph d w0) as (Kg & Kc & _);
    [by rewrite Hg0|apply graph_is_Some; by rewrite Hg0|].
  destruct (calculate d w0) as [[] w1|e w1]; simpl in Kg, Kc.
  - destruct (IH d w1 r0 ltac:(congruence) Hdg Hb) as (Pg & t & Pt & PQ).
    split; [done|]. exists (d :: t). split.
    + rewrite Pt, Kc, <- app_assoc. done.
    + intros Y HY. apply elem_of_cons in HY as [->|HY]; [by apply reaches_one|].
      eapply reaches_more; [done|]. by apply PQ.
  - injection Hb as <-. simpl. split; [congruence|]. exists [d]. split; [done|].
    intros Y HY. apply elem_of_cons in HY as [->|HY]; [by apply reaches_one|].
    by apply elem_of_nil in HY.
Qed.

Lemma edit_only_dependents fuel name text w w' :
  consistent (graph w) ->
  edit fuel name text w = Some (Done tt w') ->
  exists t, calculated w' = calculated w ++ name :: t /\
    forall Y, Y ∈ t -> reaches (graph w') name Y.
Proof.
  intros Hc H. unfold edit, display in H.
  destruct (calculate name (setData name text w)) as [[] w1|] eqn:Hcal; [|done].
  pose proof (edit_calculate_consistent _ _ _ _ Hc Hcal) as Hc1.
  destruct (edit_calculate_graph _ _ _ _ Hcal) as (self & Hs & Hg1 & _).
  assert (Hs1 : is_Some (graph w1 !! name)).
  { rewrite Hg1, lookup_rewired, graph_lookup, Hs. done. }
  destruct (propagate_only_dependents _ Hc1 fuel name w1 _ eq_refl Hs1 H)
    as (Hg & t & Ht & HQ).
  simpl in Hg, Ht. exists t. split.
  - apply calculate_Done_inv in Hcal as (_ & _ & Hcl & _).
    rewrite Ht, Hcl. simpl. by rewrite <- app_assoc.
  - by rewrite Hg.
Qed.

End Only.

Lemma some_result_sound {A : Type} (o : option A) (d : A) :
  bool_decide (is_Some o) = true -> o = Some (default d o).
Proof. intros H. apply bool_decide_eq_true_1 in H. by destruct H as [a ->]. Qed.

Lemma is_Some_check {A : Type} (o : option A) :
  bool_decide (is_Some o) = true -> is_Some o.
Proof. apply bool_decide_eq_true_1. Qed.


(** * The claims *)

Section Claims.

Context {python : Python}.

Lemma ranked_acyclic g (rank : string -> nat) :
  (forall X Y, dependent g X Y -> rank Y < rank X) -> acyclic g.
Proof.
  intros Hr.
  assert (H : forall X Y, reaches g X Y -> rank Y < rank X).
  { induction 1 as [X Y H|X D Y H _ IH]; [by apply Hr|].
    etrans; [exact IH|]. by apply Hr. }
  intros X HX. apply H in HX. lia.
Qed.

Lemma dependent_check g X Y :
  match g !! X with
  | Some (_, d, _) => bool_decide (Y ∈ d)
  | None => false
  end = true ->
  dependent g X Y.
Proof.
  destruct (g !! X) as [[[f d] r]|] eqn:HX; [|done].
  intros H. apply bool_decide_eq_true_1 in H. by exists f, d, r.
Qed.

Lemma ranked_check g (rank : string -> nat) :
  map_Forall (fun X l => set_Forall (fun Y => rank Y < rank X) l.1.2) g ->
  forall X Y, dependent g X Y -> rank Y < rank X.
Proof.
  intros H X Y (f & d & r & HX & HY). by apply (H X _ HX).
Qed.

Lemma edits_to_SpreadSheet_consistent rows cols es w :
  edits_to (SpreadSheet rows cols) es w -> consistent (graph w).
Proof.
  intros H. eapply edits_to_consistent; [exact H|]. apply SpreadSheet_consistent.
Qed.



(** C10.  A cell in row 10 or beyond has a name of three characters or more;
    the reference pattern yields two-character names only, so no formula
    refers to such a cell and its [deps] set stays empty through any sequence
    of edits. *)
Theorem rows_beyond_nine_unreferenced rows cols i j es w :
  9 <= i ->
  edits_to (SpreadSheet rows cols) es w ->
  3 <= String.length (cell_name i j) /\
  (forall f, cell_name i j ∉ references f) /\
  (forall c, siblings w !! cell_name i j = Some c -> deps c = ∅).
Proof.
  intros Hi He. pose proof (cell_name_length i j Hi) as Hlen.
  split_and!; [done| |].
  - intros f Hf. apply references_length in Hf. lia.
  - intros c Hc.
    eapply (edits_to_ind_world (fun w => only_short_names_have_deps (siblings w)));
      [| |exact He| |exact Hc|lia].
    + intros. by apply setData_only_short.
    + intros. by eapply calculate_only_short.
    + apply SpreadSheet_only_short.
Qed.

End Claims.

Section MoreClaims.

Context {python : Python}.

(** During the propagation pass of an edit that returns, every cell that
    depends on the edited cell, directly or through other cells, is
    recalculated at least once. *)
Lemma propagation_visits_dependents rows cols es w fuel name text w' Y :
  edits_to (SpreadSheet rows cols) es w ->
  edit fuel name text w = Some (Done tt w') ->
  reaches (graph w') name Y ->
  exists t, calculated w' = calculated w ++ name :: t /\ Y ∈ t.
Proof.
  intros He H HY.
  pose proof (edits_to_SpreadSheet_consistent _ _ _ _ He) as Hc.
  unfold edit, display in H.
  destruct (calculate name (setData name text w)) as [[] w1|] eqn:Hcal; [|done].
  pose proof (edit_calculate_consistent _ _ _ _ Hc Hcal) as Hc1.
  assert (Hs1 : is_Some (siblings w1 !! name)).
  { apply graph_is_Some.
    destruct (edit_calculate_graph _ _ _ _ Hcal) as (self & Hs & Hg & _).
    rewrite Hg, lookup_rewired, graph_lookup, Hs. done. }
  destruct (propagate_keeps_graph fuel name w1 _ Hc1 Hs1 H) as (Hg & _).
  simpl in Hg. rewrite Hg in HY.
  destruct (propagate_visits _ fuel name w1 w' Y Hc1 eq_refl H HY) as (t & Ht & HYt).
  apply calculate_Done_inv in Hcal as (_ & _ & Hcalc & _). simpl in Hcalc.
  exists t. split; [|done]. by rewrite Ht, Hcalc, <- app_assoc.
Qed.

(** C4.  For a cell with a non-empty formula whose references are found, a
    failing evaluation leaves [value] as it was and sets [error_shown]; the
    error is shown if and only if [error_shown] was not set before.  A
    successful evaluation stores the result and clears [error_shown], showing
    nothing. *)
Theorem failing_evaluation_reported_once name w self f :
  siblings w !! name = Some self ->
  formula self = Some f -> f <> "" ->
  lookups_succeed name (siblings w) (reqs self) (references f) ->
  match py_eval (Text.upper f)
          (environment (req_values_of (siblings w) (references f))) with
  | Returns v =>
      exists w' self', calculate name w = Done tt w' /\
        siblings w' !! name = Some self' /\
        value self' = v /\ error_shown self' = false /\
        shown w' = shown w
  | Raises e =>
      is_Exception e = true ->
      exists w' self', calculate name w = Done tt w' /\
        siblings w' !! name = Some self' /\
        value self' = value self /\ error_shown self' = true /\
        shown w' = shown w ++ (if error_shown self then [] else [exc_str e])
  end.
Proof.
  intros Hs Hf Hne HL.
  rewrite (calculate_nonempty _ _ self f) by done. cbv zeta.
  destruct (py_eval _ _) as [v|e].
  - eexists _, _. split; [done|]. simpl.
    rewrite lookup_alter_eq, lookup_relinked, Hs. simpl. done.
  - intros ->. eexists _, _. split; [done|]. simpl.
    rewrite lookup_alter_eq, lookup_relinked, Hs. simpl.
    split; [reflexivity|]. simpl. by rewrite value_relink.
Qed.

(** The [try] block of [calculate] as it stands: whatever object [eval]
    returns is stored; an [Exception] is caught and reported once. *)
Lemma evaluate_spec name f env prev w self :
  siblings w !! name = Some self ->
  match py_eval f env with
  | Returns v =>
      evaluate name f env prev w =
      Done tt (with_siblings
                 (alter (fun c => set_error_shown false (set_value v c)) name
                    (siblings w)) w)
  | Raises e =>
      if is_Exception e then
        evaluate name f env prev w =
        Done tt (World
                   (alter (fun c => set_value prev (set_error_shown true c)) name
                      (siblings w))
                   (shown w ++ (if error_shown self then [] else [exc_str e]))
                   (calculated w))
      else evaluate name f env prev w = Raised e w
  end.
Proof.
  intros Hs. unfold evaluate. destruct (py_eval f env) as [v|e].
  - unfold bind, update_item, with_siblings; simpl. by rewrite alter_alter_eq.
  - destruct (is_Exception e); [|done].
    unfold bind, get_item. rewrite Hs.
    destruct (error_shown self) eqn:Hes.
    + unfold ret, update_item, with_siblings; simpl. rewrite app_nil_r.
      do 2 f_equal. apply alter_ext. intros c Hc. rewrite Hs in Hc.
      injection Hc as <-. destruct self; simpl in *. by subst.
    + unfold show_error_message, update_item, with_siblings; simpl.
      by rewrite alter_alter_eq.
Qed.

(** A formula that names something that is not a cell: the lookup raises
    [KeyError] before the [try] block is reached. *)
Lemma for_each_guarded_Raised pre g err l w e w' :
  for_each l (guarded pre g err) w = Raised e w' ->
  e = err \/ exists r, e = key_error r.
Proof.
  revert w. induction l as [|x l IH]; intros w H; simpl in H; [done|].
  unfold bind in H. unfold guarded at 1 in H.
  destruct (siblings w !! x) as [c|].
  - destruct (pre c); [by eapply IH|]. injection H as <- _. by left.
  - injection H as <- _. right. by eexists.
Qed.

Lemma calculate_missing_reference name w self f r :
  siblings w !! name = Some self ->
  formula self = Some f -> f <> "" ->
  r ∈ references f -> siblings w !! r = None ->
  exists e w', calculate name w = Raised e w' /\ exc_type e = KeyError.
Proof.
  intros Hs Hf Hne Hr Hnone.
  destruct (calculate name w) as [[] w'|e w'] eqn:H.
  { destruct (calculate_Done_lookups _ _ _ _ _ Hs Hf Hne H) as [HC _].
    specialize (HC r Hr). rewrite Hnone in HC. by destruct HC. }
  exists e, w'. split; [done|].
  unfold calculate in H. unfold bind at 1 in H. unfold get_item at 1 in H.
  rewrite Hs in H. unfold bind at 1 in H. unfold note_calculate at 1 in H.
  rewrite Hf in H. rewrite decide_False in H by done.
  set (w0 := World _ _ _) in H.
  unfold bind at 1 in H.
  destruct (for_each (iter (references f ∖ reqs self)) (deps_add name) w0)
    as [[] w1|e1 w1] eqn:E1.
  2:{ injection H as <- _.
      rewrite (for_each_ext _ _ _ _ (deps_add_guarded name)) in E1.
      apply for_each_guarded_Raised in E1 as [->|[? ->]]; done. }
  unfold bind at 1 in H.
  destruct (for_each (iter (reqs self ∖ references f)) (deps_remove name) w1)
    as [[] w2|e2 w2] eqn:E2.
  2:{ injection H as <- _.
      rewrite (for_each_ext _ _ _ _ (deps_remove_guarded name)) in E2.
      apply for_each_guarded_Raised in E2 as [->|[? ->]]; done. }
  unfold bind at 1 in H.
  destruct (values_of (iter (references f)) w2) as [rv w3|e3 w3] eqn:E3.
  2:{ injection H as <- _.
      apply values_of_Raised in E3 as (_ & r' & _ & _ & ->). done. }
  exfalso.
  rewrite (for_each_ext _ _ _ _ (deps_add_guarded name)) in E1.
  pose proof (for_each_guarded_inv _ _ _ _ _ _ (NoDup_iter _) E1) as I1.
  rewrite for_each_guarded_Done in E1 by (done || apply NoDup_iter).
  injection E1 as <-.
  rewrite (for_each_ext _ _ _ _ (deps_remove_guarded name)) in E2.
  pose proof (for_each_guarded_inv _ _ _ _ _ _ (NoDup_iter _) E2) as I2.
  rewrite for_each_guarded_Done in E2 by (done || apply NoDup_iter).
  injection E2 as <-.
  destruct (values_of_inv _ _ _ _ E3 r) as [c Hc]; [by apply elem_of_iter|].
  simpl in Hc. rewrite !lookup_each, Hnone in Hc. done.
Qed.

End MoreClaims.

(** The edit of [name] to [text] on [w] never returns when the graph left by
    the recalculation of [name] holds a cycle that [name] reaches. *)
Lemma edit_diverges `{Python} rows cols es w name text w1 :
  eval_raises_Exception ->
  edits_to (SpreadSheet rows cols) es w ->
  calculate name (setData name text w) = Done tt w1 ->
  reaches_cycle (graph w1) name ->
  forall fuel, edit fuel name text w = None.
Proof.
  intros Hev He Hcal Hcyc fuel. unfold edit, display. rewrite Hcal.
  apply (propagate_diverges (graph w1)); try done.
  eapply edit_calculate_consistent; [|exact Hcal].
  by eapply edits_to_SpreadSheet_consistent.
Qed.


(** Concrete runs on the sheet of [main]. *)




Lemma rows_beyond_nine_unreferenced_witness :
  3 <= String.length (cell_name 9 0) /\
  (forall f, cell_name 9 0 ∉ references f) /\
  (forall c,
     siblings (world_after 5 [("A1", "A10+1"); ("B1", "A1+1")] main_sheet)
       !! cell_name 9 0 = Some c ->
     deps c = ∅).
Proof.
  apply (rows_beyond_nine_unreferenced 10 10 9 0 [("A1", "A10+1"); ("B1", "A1+1")]).
  - lia.
  - apply world_after_sound. vm_compute. reflexivity.
Defined.




Lemma failing_evaluation_reported_once_witness :
  exists w' self',
    calculate "A1" (setData "A1" "1/" main_sheet) = Done tt w' /\
    siblings w' !! "A1" = Some self' /\
    value self' = VInt 0 /\ error_shown self' = true /\
    shown w' = [] ++ [exc_str PyExpr.syntax_error].
Proof.
  pose proof (failing_evaluation_reported_once "A1"
                (setData "A1" "1/" main_sheet)
                (set_formula (Some "1/") new_item) "1/") as H.
  assert (E : py_eval (Text.upper "1/")
                (environment
                   (req_values_of (siblings (setData "A1" "1/" main_sheet))
                      (references "1/")))
              = Raises PyExpr.syntax_error) by (vm_compute; reflexivity).
  rewrite E in H. apply H.
  - vm_compute. reflexivity.
  - reflexivity.
  - discriminate.
  - assert (R : references "1/" = ∅) by (vm_compute; reflexivity).
    rewrite R. split; intros r Hr; exfalso; revert Hr; simpl;
      [apply not_elem_of_empty|rewrite difference_diag_L; apply not_elem_of_empty].
  - reflexivity.
Defined.

(** C5 fails on the code: [calculate] on an empty formula returns at once.  A
    cell whose broken formula [B1+] is then cleared keeps its flag and its
    [reqs], and [B1] keeps the cell among its [deps]. *)
Lemma cleared_cell_keeps_reqs_and_flag :
  value <$> cell_at (edits 5 [("A1", "B1+"); ("A1", "")] main_sheet) "A1"
    = Some (VInt 0) /\
  error_shown <$> cell_at (edits 5 [("A1", "B1+"); ("A1", "")] main_sheet) "A1"
    = Some true /\
  reqs <$> cell_at (edits 5 [("A1", "B1+"); ("A1", "")] main_sheet) "A1"
    = Some {["B1"]} /\
  deps <$> cell_at (edits 5 [("A1", "B1+"); ("A1", "")] main_sheet) "B1"
    = Some {["A1"]}.
Proof. split_and!; vm_compute; reflexivity. Qed.

(** The edges that a cleared cell keeps still count: once [A1], which named
    [B1], is cleared, the edit of [B1] to [A1] closes a cycle through the
    empty cell and never returns. *)
Lemma cleared_cell_closes_cycle :
  returned (edits 5 [("A1", "B1"); ("A1", "")] main_sheet) = true /\
  ~ exists fuel r,
      edit fuel "B1" "A1" (world_after 5 [("A1", "B1"); ("A1", "")] main_sheet)
      = Some r.
Proof.
  split; [vm_compute; reflexivity|].
  intros (fuel & r & H).
  rewrite (edit_diverges 10 10 [("A1", "B1"); ("A1", "")] _ _ _
             (world_of (calculate "B1"
                (setData "B1" "A1"
                   (world_after 5 [("A1", "B1"); ("A1", "")] main_sheet)))))
    in H; [done| | | |].
  - apply eval_total_raises.
  - apply world_after_sound. vm_compute. reflexivity.
  - apply is_Done_sound. vm_compute. reflexivity.
  - exists "B1". split; [by left|].
    apply (reaches_more _ "B1" "A1" "B1"); [|apply reaches_one];
      apply dependent_check; vm_compute; reflexivity.
Qed.

(** C6 fails on the code: a formula that names a cell outside the grid makes
    [calculate] raise [KeyError] outside its [try] block; the edit stops
    there and the dependents of the edited cell are not recalculated. *)
Lemma unknown_cell_raises_KeyError :
  raised (edit 5 "A1" "A0" main_sheet) = Some (key_error "A0") /\
  raised (edit 5 "A1" "5+Z9" (world_after 5 [("B1", "A1+1")] main_sheet))
    = Some (key_error "Z9") /\
  calculated (world_after 5 [("B1", "A1+1")] main_sheet) = ["B1"] /\
  (calculated ∘ world_of) <$>
    edit 5 "A1" "5+Z9" (world_after 5 [("B1", "A1+1")] main_sheet)
    = Some ["B1"; "A1"].
Proof. split_and!; vm_compute; reflexivity. Qed.



(** C9, amended.  On a fresh sheet, editing [A1] to [5] and then [B1] to
    [A1+1] leaves 6 in [B1]; editing [A1] to [10] afterwards propagates and
    leaves 11 in [B1].  (A formula is the bare expression: no [=] in front.) *)
Theorem chain_recalculated :
  value <$> cell_at (edits 5 [("A1", "5"); ("B1", "A1+1")] main_sheet) "B1"
    = Some (VInt 6) /\
  value <$> cell_at (edits 5 [("A1", "5"); ("B1", "A1+1"); ("A1", "10")] main_sheet) "B1"
    = Some (VInt 11).
Proof. split; vm_compute; reflexivity. Qed.

(** C9, as stated, fails: with the formulas written [=5] and [=A1+1], [eval]
    raises a syntax error at the [=]; both cells keep the value 0 and two
    errors are shown. *)
Lemma leading_equals_is_a_syntax_error :
  value <$> cell_at (edits 5 [("A1", "=5"); ("B1", "=A1+1")] main_sheet) "B1"
    = Some (VInt 0) /\
  value <$> cell_at (edits 5 [("A1", "=5"); ("B1", "=A1+1"); ("A1", "=10")] main_sheet) "B1"
    = Some (VInt 0) /\
  shown <$> edits 5 [("A1", "=5"); ("B1", "=A1+1")] main_sheet
    = Some [exc_str PyExpr.syntax_error; exc_str PyExpr.syntax_error].
Proof. split_and!; vm_compute; reflexivity. Qed.

(** Edits that close a cycle, and cleared cells. *)

Section Hangs.

Context {python : Python}.

(** The [deps] of a cell [X] after the recalculation of the edited cell
    [name]: [name] is among them when the new text names [X]. *)
Lemma edit_calculate_dependent name text w w1 X cx :
  consistent (graph w) ->
  calculate name (setData name text w) = Done tt w1 ->
  siblings w !! X = Some cx -> X ∈ references text ->
  dependent (graph w1) X name.
Proof.
  intros Hc Hcal HX Hin.
  destruct (edit_calculate_graph _ _ _ _ Hcal) as (self & Hs & Hg & _).
  assert (Hne : text <> "").
  { intros ->. revert Hin. unfold references. simpl. set_solver. }
  rewrite decide_False in Hg by done. simpl in Hg.
  rewrite Hg. eexists _, _, _. split.
  { rewrite lookup_rewired, graph_lookup, HX. simpl. reflexivity. }
  simpl. apply elem_of_relink_deps.
  destruct (decide (X ∈ reqs self)) as [HR|HR].
  - right. split; [|set_solver].
    destruct (reqs_mirrored _ Hc name (formula self) (deps self) (reqs self) X)
      as (f' & d' & r' & Hg' & Hd); [|done|].
    + apply graph_lookup_Some. by exists self.
    + apply graph_lookup_Some in Hg' as (c & Hc' & _ & <- & _). congruence.
  - left. split; [done|set_solver].
Qed.

(** The other dependents of a cell stay through the recalculation of the
    edited cell. *)
Lemma edit_calculate_dependent_kept name text w w1 X Y :
  calculate name (setData name text w) = Done tt w1 ->
  dependent (graph w) X Y -> Y <> name ->
  dependent (graph w1) X Y.
Proof.
  intros Hcal (f & d & r & HX & HY) Hne.
  destruct (edit_calculate_graph _ _ _ _ Hcal) as (self & Hs & Hg & _).
  rewrite Hg. eexists _, _, _. split.
  { rewrite lookup_rewired, HX. simpl. reflexivity. }
  simpl. apply elem_of_relink_deps. right. split; [done|]. by intros [? _].
Qed.

Lemma self_reference_diverges name text w w1 :
  eval_raises_Exception -> consistent (graph w) ->
  name ∈ references text ->
  calculate name (setData name text w) = Done tt w1 ->
  forall fuel, edit fuel name text w = None.
Proof.
  intros Hev Hc Hin Hcal fuel. unfold edit, display. rewrite Hcal.
  apply (propagate_diverges (graph w1)); try done.
  - by eapply edit_calculate_consistent.
  - apply calculate_Done_inv in Hcal as Hinv. destruct Hinv as (self & Hs & _).
    rewrite lookup_setData in Hs.
    destruct (siblings w !! name) as [c|] eqn:Hn; [|done].
    exists name. split; [by left|]. apply reaches_one.
    by eapply edit_calculate_dependent.
Qed.

Lemma naming_a_requirer_diverges A B text w w2 ca :
  eval_raises_Exception -> consistent (graph w) ->
  siblings w !! A = Some ca -> B ∈ reqs ca -> A <> B ->
  A ∈ references text ->
  calculate B (setData B text w) = Done tt w2 ->
  forall fuel, edit fuel B text w = None.
Proof.
  intros Hev Hc HA HB Hne Hin Hcal fuel. unfold edit, display. rewrite Hcal.
  apply (propagate_diverges (graph w2)); try done.
  - by eapply edit_calculate_consistent.
  - exists B. split; [by left|].
    apply (reaches_more _ B A B); [|apply reaches_one].
    + eapply edit_calculate_dependent_kept; [done| |done].
      destruct (reqs_mirrored _ Hc A (formula ca) (deps ca) (reqs ca) B)
        as (f' & d' & r' & Hg' & Hd); [|done|].
      * apply graph_lookup_Some. by exists ca.
      * by exists f', d', r'.
    + by eapply edit_calculate_dependent.
Qed.

(** The item of a cell that an edit to the empty text leaves: the value is
    0, the relation sets and the flag are those before the edit. *)
Lemma edit_empty_item fuel name w w' self :
  consistent (graph w) -> acyclic (graph w) ->
  siblings w !! name = Some self ->
  edit fuel name "" w = Some (Done tt w') ->
  siblings w' !! name
  = Some (Item (Some "") (VInt 0) (deps self) (reqs self) (error_shown self)).
Proof.
  intros Hc Ha Hs H.
  pose proof (edit_acyclic _ _ _ _ _ Hc Ha H) as Ha'.
  unfold edit, display in H.
  destruct (calculate name (setData name "" w)) as [[] w1|] eqn:Hcal; [|done].
  pose proof (edit_calculate_consistent _ _ _ _ Hc Hcal) as Hc1.
  assert (Hs' : siblings (setData name "" w) !! name
                = Some (set_formula (Some "") self)).
  { by rewrite lookup_setData, Hs, decide_True. }
  rewrite (calculate_empty name _ _ Hs') in Hcal by by right.
  injection Hcal as <-.
  assert (H1 : siblings (World (alter (set_value (VInt 0)) name
                                  (siblings (setData name "" w)))
                           (shown (setData name "" w))
                           (calculated (setData name "" w) ++ [name])) !! name
               = Some (Item (Some "") (VInt 0) (deps self) (reqs self)
                         (error_shown self))).
  { cbn [siblings]. by rewrite lookup_alter_eq, Hs'. }
  set (w1 := World _ _ _) in *.
  destruct (propagate_keeps_graph fuel name w1 _ Hc1 ltac:(by rewrite H1) H)
    as (Hg & _).
  simpl in Hg. rewrite Hg in Ha'.
  destruct (propagate_settles _ Hc1 Ha' fuel name w1 w' eq_refl H) as (_ & _ & Hch).
  destruct (decide (siblings w' !! name = siblings w1 !! name)) as [Heq|Hd].
  - by rewrite Heq.
  - apply Hch in Hd. by destruct (Ha' name).
Qed.

End Hangs.

(** * Further properties of the engine *)

(** X1.  After any run of edits that return, the dependency graph has no
    cycle: an edit that closes a cycle does not return. *)
Theorem returning_edits_leave_no_cycle `{Python} rows cols es w :
  edits_to (SpreadSheet rows cols) es w -> acyclic (graph w).
Proof.
  intros He.
  by destruct (edits_to_stable _ _ _ He (SpreadSheet_consistent _ _)
                 (SpreadSheet_acyclic _ _) (SpreadSheet_stable _ _))
    as (_ & Ha & _).
Qed.

Lemma returning_edits_leave_no_cycle_witness :
  acyclic (graph (world_after 5
             [("A1", "5"); ("B1", "A1+1"); ("C1", "A1+B1"); ("C1", "B1+")]
             main_sheet)).
Proof.
  apply (returning_edits_leave_no_cycle 10 10
           [("A1", "5"); ("B1", "A1+1"); ("C1", "A1+B1"); ("C1", "B1+")]).
  apply world_after_sound. vm_compute. reflexivity.
Defined.





(** X4.  A formula that names a cell that the sheet does not hold makes
    [calculate] raise [KeyError]: the lookups [self.siblings[r]] stand outside
    the [try] block. *)
Theorem missing_reference_raises_KeyError `{Python} name w self f r :
  siblings w !! name = Some self ->
  formula self = Some f -> f <> "" ->
  r ∈ references f -> siblings w !! r = None ->
  exists e w', calculate name w = Raised e w' /\ exc_type e = KeyError.
Proof. apply calculate_missing_reference. Qed.

Lemma missing_reference_raises_KeyError_witness :
  exists e w',
    calculate "A1" (setData "A1" "5+Z9" main_sheet) = Raised e w' /\
    exc_type e = KeyError.
Proof.
  apply (missing_reference_raises_KeyError "A1" (setData "A1" "5+Z9" main_sheet)
           (set_formula (Some "5+Z9") new_item) "5+Z9" "Z9").
  - vm_compute. reflexivity.
  - reflexivity.
  - discriminate.
  - apply (bool_decide_unpack _). vm_compute. exact I.
  - vm_compute. reflexivity.
Defined.

(** On the sheet of [main]: when the set [{A1, Z9}] is iterated with [A1]
    first, the edit of [B1] to [A1+Z9] adds [B1] to the [deps] of [A1],
    raises at [Z9], and leaves the [reqs] of [B1] empty. *)
Lemma raising_edit_stops_between_updates :
  iter (references "A1+Z9") = ["A1"; "Z9"] /\
  raised (edit 5 "B1" "A1+Z9" main_sheet) = Some (key_error "Z9") /\
  deps <$> cell_at (world_of <$> edit 5 "B1" "A1+Z9" main_sheet) "A1"
    = Some {["B1"]} /\
  reqs <$> cell_at (world_of <$> edit 5 "B1" "A1+Z9" main_sheet) "B1"
    = Some ∅.
Proof. split_and!; vm_compute; reflexivity. Qed.

(** X5.  A [KeyError] can stop [calculate] between its updates.  When the
    names that the formula adds are iterated with cells [l1] before a name
    [r] that is no cell, [calculate] raises [KeyError(r)] after it has added
    the cell to the [deps] of every cell of [l1], and before it assigns the
    [reqs] of the cell, which name none of [l1]. *)
Theorem calculate_stops_between_updates {python : Python} name w self f l1 r l2 :
  siblings w !! name = Some self ->
  formula self = Some f -> f <> "" ->
  iter (references f ∖ reqs self) = l1 ++ r :: l2 ->
  (forall x, x ∈ l1 -> is_Some (siblings w !! x)) ->
  siblings w !! r = None ->
  exists w',
    calculate name w = Raised (key_error r) w' /\
    (forall x, x ∈ l1 ->
       (x ∉ reqs self) /\ exists cx, siblings w' !! x = Some cx /\ name ∈ deps cx) /\
    reqs <$> siblings w' !! name = Some (reqs self).
Proof.
  intros Hs Hf Hne Hl Hl1 Hr.
  pose proof (NoDup_iter (references f ∖ reqs self)) as ND. rewrite Hl in ND.
  apply NoDup_app in ND as (ND1 & _ & _).
  set (w0 := World (siblings w) (shown w) (calculated w ++ [name])).
  assert (H1 : for_each l1 (deps_add name) w0
               = Done tt (with_siblings
                   (each (fun x c => if decide (x ∈ l1) then add_dep name c else c)
                      (siblings w0)) w0)).
  { rewrite (for_each_ext l1 (deps_add name)
               (guarded (fun _ => true) (add_dep name) (key_error name)))
      by (intros; apply deps_add_guarded).
    apply for_each_guarded_Done; [done|].
    intros x Hx. destruct (Hl1 x Hx) as [c Hc]. by exists c. }
  eexists. split.
  - unfold calculate, bind at 1, get_item. rewrite Hs.
    unfold bind at 1, note_calculate. fold w0. rewrite Hf, decide_False by done.
    cbv zeta. unfold bind at 1. rewrite Hl, for_each_app.
    unfold bind at 1. rewrite H1. simpl. unfold bind at 1.
    unfold deps_add at 1, bind at 1, get_item. simpl.
    rewrite lookup_each, Hr. simpl. reflexivity.
  - simpl. split.
    + intros x Hx. split.
      * assert (x ∈ references f ∖ reqs self); [|set_solver].
        apply elem_of_iter. rewrite Hl. apply elem_of_app. by left.
      * destruct (Hl1 x Hx) as [c Hc]. rewrite lookup_each, Hc. simpl.
        eexists. split; [done|]. rewrite decide_True by done.
        unfold add_dep. simpl. set_solver.
    + rewrite lookup_each, Hs. simpl. by case_decide.
Qed.

Lemma calculate_stops_between_updates_witness :
  exists w',
    calculate "B1" (setData "B1" "A1+Z9" main_sheet) = Raised (key_error "Z9") w' /\
    (forall x, x ∈ ["A1"] ->
       (x ∉ reqs (set_formula (Some "A1+Z9") new_item)) /\
       exists cx, siblings w' !! x = Some cx /\ "B1" ∈ deps cx) /\
    reqs <$> siblings w' !! "B1" = Some (reqs (set_formula (Some "A1+Z9") new_item)).
Proof.
  apply (calculate_stops_between_updates "B1" (setData "B1" "A1+Z9" main_sheet)
           (set_formula (Some "A1+Z9") new_item) "A1+Z9" ["A1"] "Z9" []).
  - vm_compute. reflexivity.
  - reflexivity.
  - discriminate.
  - vm_compute. reflexivity.
  - intros x Hx. apply elem_of_cons in Hx as [->|Hx]; [|by apply elem_of_nil in Hx].
    apply is_Some_check. vm_compute. reflexivity.
  - vm_compute. reflexivity.
Defined.







(** X9.  The text typed into a cell is kept as it is.  However an edit ends
    (it returns or it raises), [data] with the edit role gives the text back
    for the edited cell, no other formula has changed, and no cell was added
    or removed. *)
Theorem typed_text_is_kept {python : Python} fuel name text w r :
  edit fuel name text w = Some r ->
  is_Some (siblings w !! name) ->
  data 0 EditRole name (world_of r) = Some (Done (Some text) (world_of r)) /\
  (forall e, e <> name ->
     formula <$> siblings (world_of r) !! e = formula <$> siblings w !! e) /\
  dom (siblings (world_of r)) = dom (siblings w).
Proof.
  intros H [c Hc]. apply edit_formulas in H.
  assert (Hl : forall e, formula <$> siblings (world_of r) !! e
               = alter (fun _ => Some text) name (formula <$> siblings w) !! e).
  { intros e. by rewrite <- H, lookup_fmap. }
  split_and!.
  - specialize (Hl name). rewrite lookup_alter_eq, lookup_fmap, Hc in Hl.
    simpl. destruct (siblings (world_of r) !! name) as [c'|]; [|done].
    simpl in Hl. by injection Hl as ->.
  - intros e He. by rewrite Hl, lookup_alter_ne, lookup_fmap.
  - by eapply formulas_dom.
Qed.

Lemma typed_text_is_kept_witness :
  data 0 EditRole "B1"
    (world_of (default (Done tt main_sheet) (edit 5 "B1" "a1+Z9" main_sheet)))
  = Some (Done (Some "a1+Z9")
      (world_of (default (Done tt main_sheet) (edit 5 "B1" "a1+Z9" main_sheet)))) /\
  (forall e, e <> "B1" ->
     formula <$> siblings
       (world_of (default (Done tt main_sheet) (edit 5 "B1" "a1+Z9" main_sheet))) !! e
     = formula <$> siblings main_sheet !! e) /\
  dom (siblings
         (world_of (default (Done tt main_sheet) (edit 5 "B1" "a1+Z9" main_sheet))))
  = dom (siblings main_sheet).
Proof.
  apply (typed_text_is_kept 5 "B1" "a1+Z9" main_sheet).
  - apply some_result_sound. vm_compute. reflexivity.
  - apply is_Some_check. vm_compute. reflexivity.
Defined.

(** X10.  An edit that returns changes the value and the flag of the edited
    cell and of its transitive dependents only. *)
Theorem edit_changes_dependents_only {python : Python} rows cols es w fuel name text w' e :
  edits_to (SpreadSheet rows cols) es w ->
  edit fuel name text w = Some (Done tt w') ->
  (value <$> siblings w' !! e <> value <$> siblings w !! e ->
   e = name \/ reaches (graph w') name e) /\
  (error_shown <$> siblings w' !! e <> error_shown <$> siblings w !! e ->
   e = name \/ reaches (graph w') name e).
Proof.
  intros He H.
  destruct (edits_to_stable _ _ _ He (SpreadSheet_consistent _ _)
              (SpreadSheet_acyclic _ _) (SpreadSheet_stable _ _))
    as (Hc & Ha & _).
  destruct (decide (e = name)) as [->|Hne]; [by split; left|].
  pose proof (edit_acyclic _ _ _ _ _ Hc Ha H) as Ha'.
  pose proof H as H0. unfold edit, display in H.
  destruct (calculate name (setData name text w)) as [[] w1|] eqn:Hcal; [|done].
  pose proof (edit_calculate_consistent _ _ _ _ Hc Hcal) as Hc1.
  destruct (edit_calculate_graph _ _ _ _ Hcal) as (self & Hs & Hg1 & _).
  assert (Hs1 : is_Some (siblings w1 !! name)).
  { apply graph_is_Some. rewrite Hg1, lookup_rewired, graph_lookup, Hs. done. }
  destruct (propagate_keeps_graph fuel name w1 _ Hc1 Hs1 H) as (Hg & _).
  simpl in Hg. rewrite Hg in Ha'.
  destruct (propagate_settles _ Hc1 Ha' fuel name w1 w' eq_refl H) as (_ & _ & Hch).
  destruct (calculate_frame name _ w1 e Hcal Hne) as (_ & Kv & Ke).
  rewrite lookup_setData, decide_False in Kv, Ke by done.
  assert (Hsame : siblings w' !! e = siblings w1 !! e ->
                  value <$> siblings w' !! e = value <$> siblings w !! e /\
                  error_shown <$> siblings w' !! e = error_shown <$> siblings w !! e).
  { intros ->. rewrite Kv, Ke. by destruct (siblings w !! e). }
  destruct (decide (siblings w' !! e = siblings w1 !! e)) as [Heq|Hd].
  - destruct (Hsame Heq) as [E1 E2]. by split.
  - apply Hch in Hd. rewrite Hg. by split; right.
Qed.

Lemma edit_changes_dependents_only_witness :
  (value <$> siblings (world_after 5 [("A1", "7")]
       (world_after 5 [("A1", "5"); ("B1", "A1+1"); ("C1", "B1+1")] main_sheet)) !! "C1"
   <> value <$> siblings
       (world_after 5 [("A1", "5"); ("B1", "A1+1"); ("C1", "B1+1")] main_sheet) !! "C1" ->
   "C1" = "A1" \/
   reaches (graph (world_after 5 [("A1", "7")]
       (world_after 5 [("A1", "5"); ("B1", "A1+1"); ("C1", "B1+1")] main_sheet)))
     "A1" "C1") /\
  (error_shown <$> siblings (world_after 5 [("A1", "7")]
       (world_after 5 [("A1", "5"); ("B1", "A1+1"); ("C1", "B1+1")] main_sheet)) !! "C1"
   <> error_shown <$> siblings
       (world_after 5 [("A1", "5"); ("B1", "A1+1"); ("C1", "B1+1")] main_sheet) !! "C1" ->
   "C1" = "A1" \/
   reaches (graph (world_after 5 [("A1", "7")]
       (world_after 5 [("A1", "5"); ("B1", "A1+1"); ("C1", "B1+1")] main_sheet)))
     "A1" "C1").
Proof.
  apply (edit_changes_dependents_only 10 10
           [("A1", "5"); ("B1", "A1+1"); ("C1", "B1+1")] _ 5 "A1" "7").
  - apply world_after_sound. vm_compute. reflexivity.
  - apply edit_returned_sound. vm_compute. reflexivity.
Defined.

(** X11.  A propagation pass recalculates nothing but the edited cell and
    its transitive dependents. *)
Theorem only_dependents_recalculated {python : Python} rows cols es w fuel name text w' :
  edits_to (SpreadSheet rows cols) es w ->
  edit fuel name text w = Some (Done tt w') ->
  exists t, calculated w' = calculated w ++ name :: t /\
    forall Y, Y ∈ t -> reaches (graph w') name Y.
Proof.
  intros He H. eapply edit_only_dependents; [|done].
  by eapply edits_to_SpreadSheet_consistent.
Qed.

Lemma only_dependents_recalculated_witness :
  exists t,
    calculated (world_after 5 [("A1", "7")]
       (world_after 5 [("A1", "5"); ("B1", "A1+1"); ("C1", "B1+1")] main_sheet))
    = calculated (world_after 5 [("A1", "5"); ("B1", "A1+1"); ("C1", "B1+1")] main_sheet)
      ++ "A1" :: t /\
    forall Y, Y ∈ t ->
      reaches (graph (world_after 5 [("A1", "7")]
         (world_after 5 [("A1", "5"); ("B1", "A1+1"); ("C1", "B1+1")] main_sheet)))
        "A1" Y.
Proof.
  apply (only_dependents_recalculated 10 10
           [("A1", "5"); ("B1", "A1+1"); ("C1", "B1+1")] _ 5 "A1" "7").
  - apply world_after_sound. vm_compute. reflexivity.
  - apply edit_returned_sound. vm_compute. reflexivity.
Defined.


(** X13.  Two cells of a sheet have the same name only when they are the
    same cell (for columns whose letter is an ASCII character). *)
Theorem cell_names_differ i j i' j' :
  j < 63 -> j' < 63 -> cell_name i j = cell_name i' j' -> i = i' /\ j = j'.
Proof. apply cell_name_inj. Qed.

Lemma cell_names_differ_witness : 11 = 11 /\ 3 = 3.
Proof.
  apply (cell_names_differ 11 3 11 3); [lia|lia|reflexivity].
Defined.

(** X14.  A cell can be referred to by a formula exactly when it lies in one
    of the first nine rows and in one of the columns [A] to [Z]. *)
Theorem referable_cells i j :
  j < 63 -> (exists f, cell_name i j ∈ references f) <-> i < 9 /\ j < 26.
Proof.
  intros Hj. split.
  - intros (f & Hf). split.
    + destruct (le_lt_dec 9 i) as [Hi|Hi]; [|done].
      apply references_length in Hf. pose proof (cell_name_length i j Hi). lia.
    + apply references_spec in Hf as (p & a & b & q & _ & Hx & Ha & _).
      unfold cell_name in Hx. change (Text.ord "A") with 65 in Hx.
      injection Hx as Hx _. rewrite <- Hx in Ha. apply is_upper_chr in Ha; lia.
  - intros [Hi Hj']. exists (cell_name i j). apply references_spec.
    rewrite cell_name_short by done.
    assert (Ha : Text.is_upper (Text.chr (65 + j)) = true) by (apply is_upper_chr; lia).
    assert (Hb : Text.is_digit (Text.digit_char (i + 1)) = true)
      by (apply is_digit_digit_char; lia).
    exists EmptyString, (Text.chr (65 + j)), (Text.digit_char (i + 1)), EmptyString.
    split_and!; try done.
    simpl. by rewrite upper_char_upper, upper_char_digit.
Qed.

Lemma referable_cells_witness :
  (exists f, cell_name 8 25 ∈ references f) <-> 8 < 9 /\ 25 < 26.
Proof. apply (referable_cells 8 25). lia. Defined.

(** X15.  Every reference of a formula is the name of a cell of the first
    nine rows and the columns [A] to [Z], or a letter followed by the digit
    0, which is the name of no cell. *)
Theorem references_name_cells_or_row_zero f r :
  r ∈ references f ->
  (exists i j, i < 9 /\ j < 26 /\ r = cell_name i j) \/
  (exists j, j < 26 /\ r = String (Text.chr (65 + j)) "0" /\
     forall i' j', cell_name i' j' <> r).
Proof.
  intros Hr. destruct (reference_shape f r Hr) as [H|(j & Hj & ->)]; [by left|].
  right. exists j. split_and!; [done..|]. intros i' j'. apply cell_name_no_zero.
Qed.

Lemma references_name_cells_or_row_zero_witness :
  (exists i j, i < 9 /\ j < 26 /\ "B0" = cell_name i j) \/
  (exists j, j < 26 /\ "B0" = String (Text.chr (65 + j)) "0" /\
     forall i' j', cell_name i' j' <> "B0").
Proof.
  apply (references_name_cells_or_row_zero "a1+b0").
  apply (bool_decide_unpack _). vm_compute. exact I.
Defined.

(** X16.  Through any run of edits that return, the dictionary of the sheet
    holds the names [cell_name i j] of its rows and columns and no other
    key. *)
Theorem cells_of_the_sheet {python : Python} rows cols es w k :
  edits_to (SpreadSheet rows cols) es w ->
  is_Some (siblings w !! k) <-> exists i j, i < rows /\ j < cols /\ k = cell_name i j.
Proof. apply edits_to_cells. Qed.

Lemma cells_of_the_sheet_witness :
  is_Some (siblings (world_after 5 [("A1", "5"); ("B1", "A1+1")] main_sheet) !! "K1")
  <-> exists i j, i < 10 /\ j < 10 /\ "K1" = cell_name i j.
Proof.
  apply (cells_of_the_sheet 10 10 [("A1", "5"); ("B1", "A1+1")]).
  apply world_after_sound. vm_compute. reflexivity.
Defined.

(** X17.  A new sheet of at most 63 columns holds one item for every row and
    column: no two cells share an item. *)
Theorem one_item_per_cell rows cols :
  cols <= 63 -> size (siblings (SpreadSheet rows cols)) = rows * cols.
Proof.
  intros Hc. unfold SpreadSheet, create_widgets. simpl.
  rewrite create_rows_size; [|done|apply NoDup_seq|done].
  by rewrite map_size_empty, length_seq.
Qed.

Lemma one_item_per_cell_witness : size (siblings (SpreadSheet 10 10)) = 10 * 10.
Proof. apply (one_item_per_cell 10 10). lia. Defined.

(** X18.  When [eval] raises nothing past the handler, the recalculation of
    a cell edited to a non-empty text returns exactly when every reference
    of the text names a cell of the sheet. *)
Theorem recalculation_returns_iff_cells {python : Python} rows cols es w i0 j0 text :
  eval_raises_Exception ->
  edits_to (SpreadSheet rows cols) es w ->
  i0 < rows -> j0 < cols -> text <> "" ->
  (exists w1,
     calculate (cell_name i0 j0) (setData (cell_name i0 j0) text w) = Done tt w1) <->
  (forall r, r ∈ references text ->
     exists i j, i < rows /\ j < cols /\ r = cell_name i j).
Proof.
  intros Hev He Hi Hj Hne.
  pose proof (edits_to_SpreadSheet_consistent _ _ _ _ He) as Hc.
  assert (Hs : is_Some (siblings w !! cell_name i0 j0)).
  { apply (edits_to_cells rows cols es w _ He). by exists i0, j0. }
  destruct Hs as [self Hs].
  rewrite (edit_calculate_returns_iff w _ text self Hc Hev Hs Hne).
  split; intros H0 r Hr.
  - apply (edits_to_cells rows cols es w r He). by apply H0.
  - apply (edits_to_cells rows cols es w r He). by apply H0.
Qed.

Lemma recalculation_returns_iff_cells_witness :
  (exists w1,
     calculate (cell_name 0 1)
       (setData (cell_name 0 1) "A1+K1"
          (world_after 5 [("A1", "5")] main_sheet)) = Done tt w1) <->
  (forall r, r ∈ references "A1+K1" ->
     exists i j, i < 10 /\ j < 10 /\ r = cell_name i j).
Proof.
  apply (recalculation_returns_iff_cells 10 10 [("A1", "5")]).
  - apply eval_total_raises.
  - apply world_after_sound. vm_compute. reflexivity.
  - lia.
  - lia.
  - discriminate.
Defined.

(** X19.  After any run of edits that return, the relation sets follow the
    formulas: the [reqs] of a cell with a non-empty formula are the
    references of the formula, and the cell is among the [deps] of exactly
    the cells that the formula names. *)
Theorem relation_sets_follow_formulas {python : Python} rows cols es w X Y cx cy f :
  edits_to (SpreadSheet rows cols) es w ->
  siblings w !! X = Some cx -> siblings w !! Y = Some cy ->
  formula cy = Some f -> f <> "" ->
  reqs cy = references f /\ (Y ∈ deps cx <-> X ∈ references f).
Proof.
  intros He HX HY Hf Hne.
  pose proof (edits_to_SpreadSheet_consistent _ _ _ _ He) as Hc.
  assert (HR : reqs cy = references f).
  { eapply (reqs_current _ Hc Y f (deps cy)); [|done].
    apply graph_lookup_Some. by exists cy. }
  split; [done|]. rewrite <- HR.
  symmetry. by apply (consistent_mutual w Hc Y X cy cx).
Qed.

Lemma relation_sets_follow_formulas_witness :
  reqs (Item (Some "A1+B1") (VInt 11) ∅ {["A1"; "B1"]} false) = references "A1+B1" /\
  ("C1" ∈ deps (Item (Some "5") (VInt 5) {["B1"; "C1"]} ∅ false)
   <-> "A1" ∈ references "A1+B1").
Proof.
  apply (relation_sets_follow_formulas 10 10
           [("A1", "5"); ("B1", "A1+1"); ("C1", "A1+B1")]
           (world_after 5 [("A1", "5"); ("B1", "A1+1"); ("C1", "A1+B1")] main_sheet)
           "A1" "C1").
  - apply world_after_sound. vm_compute. reflexivity.
  - vm_compute. reflexivity.
  - vm_compute. reflexivity.
  - reflexivity.
  - discriminate.
Defined.

(** X20.  An edit to the empty text that returns leaves 0 in the cell and
    keeps its relation sets and its flag as they were: the cell stays among
    the [deps] of the cells that its former formula named. *)
Theorem cleared_cell_keeps_relations {python : Python} rows cols es w fuel name w' self :
  edits_to (SpreadSheet rows cols) es w ->
  siblings w !! name = Some self ->
  edit fuel name "" w = Some (Done tt w') ->
  siblings w' !! name
  = Some (Item (Some "") (VInt 0) (deps self) (reqs self) (error_shown self)).
Proof.
  intros He.
  destruct (edits_to_stable _ _ _ He (SpreadSheet_consistent _ _)
              (SpreadSheet_acyclic _ _) (SpreadSheet_stable _ _))
    as (Hc & Ha & _).
  by apply edit_empty_item.
Qed.

Lemma cleared_cell_keeps_relations_witness :
  siblings (world_after 5 [("A1", "")]
              (world_after 5 [("A1", "B1+")] main_sheet)) !! "A1"
  = Some (Item (Some "") (VInt 0)
            (deps (Item (Some "B1+") (VInt 0) ∅ {["B1"]} true))
            (reqs (Item (Some "B1+") (VInt 0) ∅ {["B1"]} true))
            (error_shown (Item (Some "B1+") (VInt 0) ∅ {["B1"]} true))).
Proof.
  apply (cleared_cell_keeps_relations 10 10 [("A1", "B1+")]
           (world_after 5 [("A1", "B1+")] main_sheet) 5 "A1"
           (world_after 5 [("A1", "")] (world_after 5 [("A1", "B1+")] main_sheet))
           (Item (Some "B1+") (VInt 0) ∅ {["B1"]} true)).
  - apply world_after_sound. vm_compute. reflexivity.
  - vm_compute. reflexivity.
  - apply edit_returned_sound. vm_compute. reflexivity.
Defined.




